(** * Jlang: lexer, parser and lowering of [src/jlang.cpp]

    A shallow embedding of the Kaleidoscope-style front end in
    [src/jlang.cpp]: the hand-written lexer [gettok], the recursive-descent
    and precedence-climbing parser, the [codegen] methods that lower the
    AST through the LLVM API, and the driver ([MainLoop] and [main]) that
    runs them.  The C++ globals ([LastChar], [IdentifierStr],
    [NumVal], [CurTok], [NamedValues], [TheModule]) become fields of explicit
    state records that are threaded through the functions.

    The repository's other source file is an earlier copy of the lexer and
    of the AST classes, without parser or lowering; the development follows
    [src/jlang.cpp]. *)

From Stdlib Require Import ZArith Ascii String List Lia.
From stdpp Require Import base option list gmap strings pretty.

Set Warnings "-register-all".

Local Open Scope string_scope.
Local Open Scope Z_scope.

(** ** C characters and [<cctype>]

    [getchar] returns an [int]: an [unsigned char] value or [EOF].  The
    classification functions are those of the "C" locale (the program never
    calls [setlocale]); they answer 0 on [EOF]. *)

Definition EOF : Z := -1.

Definition int_of_char (c : ascii) : Z := Z.of_N (N_of_ascii c).
Definition char_of_int (i : Z) : ascii := ascii_of_N (Z.to_N (i mod 256)).

Definition isspace (c : Z) : bool := (c =? 32) || ((9 <=? c) && (c <=? 13)).
Definition isupper (c : Z) : bool := (65 <=? c) && (c <=? 90).
Definition islower (c : Z) : bool := (97 <=? c) && (c <=? 122).
Definition isalpha (c : Z) : bool := isupper c || islower c.
Definition isdigit (c : Z) : bool := (48 <=? c) && (c <=? 57).
Definition isalnum (c : Z) : bool := isalpha c || isdigit c.
(** [isascii(c)] is [(c & ~0x7f) == 0]. *)
Definition isascii (c : Z) : bool := (0 <=? c) && (c <=? 127).

(** ** Tokens: [enum Token] *)

Definition tok_eof : Z := -1.
Definition tok_def : Z := -2.
Definition tok_extern : Z := -3.
Definition tok_identifier : Z := -4.
Definition tok_number : Z := -5.

(** ** Doubles

    No claim depends on floating-point arithmetic, so a [double] is kept
    symbolic: it is either the zero a static [double] starts with, or the
    result of [std::strtod] on a given text. *)

Inductive double : Type :=
| double_zero
| strtod (NumStr : string).

(** ** The lexer: [gettok] *)

Module Lex.

(** The lexer's globals and the unread part of standard input. *)
Record state : Type := mk {
  LastChar : Z;             (* static int LastChar = ' ' *)
  stdin : string;           (* what getchar() has not returned yet *)
  IdentifierStr : string;   (* static std::string IdentifierStr *)
  NumVal : double           (* static double NumVal *)
}.

Definition init (input : string) : state :=
  {| LastChar := int_of_char " "; stdin := input;
     IdentifierStr := ""; NumVal := double_zero |}.

(** [str += c] for an [int c]: the value is converted to [char]. *)
Definition push_back (str : string) (c : Z) : string :=
  str +:+ String (char_of_int c) "".

(** [while (std::isspace(LastChar)) LastChar = getchar();]
    At the end of input [getchar] gives [EOF], which is not a space. *)
Fixpoint skip_space (LastChar : Z) (stdin : string) : Z * string :=
  if isspace LastChar then
    match stdin with
    | EmptyString => (EOF, EmptyString)
    | String c rest => skip_space (int_of_char c) rest
    end
  else (LastChar, stdin).

(** [while (std::isalnum(LastChar = getchar())) IdentifierStr += LastChar;]
    Returns the identifier, the new [LastChar] and the rest of the input. *)
Fixpoint read_alnum (IdentifierStr : string) (stdin : string)
  : string * Z * string :=
  match stdin with
  | EmptyString => (IdentifierStr, EOF, EmptyString)
  | String c rest =>
      let LastChar := int_of_char c in
      if isalnum LastChar then read_alnum (push_back IdentifierStr LastChar) rest
      else (IdentifierStr, LastChar, rest)
  end.

(** The condition of the number branch, as written:
    [std::isdigit((LastChar) || LastChar == '.')].  The argument of
    [isdigit] is the value of the logical or, that is 0 or 1. *)
Definition number_cond (LastChar : Z) : bool :=
  isdigit (Z.b2z (negb (LastChar =? 0) || (LastChar =? int_of_char "."))).

(** [do { NumStr += LastChar; LastChar = getchar(); } while (number_cond);]
    entered with the current [LastChar]. *)
Fixpoint read_number (NumStr : string) (LastChar : Z) (stdin : string)
  : string * Z * string :=
  let NumStr := push_back NumStr LastChar in
  match stdin with
  | EmptyString => (NumStr, EOF, EmptyString)
  | String c rest =>
      let LastChar := int_of_char c in
      if number_cond LastChar then read_number NumStr LastChar rest
      else (NumStr, LastChar, rest)
  end.

(** [do LastChar = getchar();
     while (LastChar != EOF && LastChar != '\n' && LastChar != '\r');] *)
Fixpoint skip_comment (stdin : string) : Z * string :=
  match stdin with
  | EmptyString => (EOF, EmptyString)
  | String c rest =>
      let LastChar := int_of_char c in
      if (LastChar =? 10) || (LastChar =? 13) then (LastChar, rest)
      else skip_comment rest
  end.

(** The last two statements of [gettok]: the end-of-file test and the
    single-character token. *)
Definition gettok_tail (LastChar : Z) (stdin : string) (Id : string)
    (Num : double) : Z * state :=
  if LastChar =? EOF then (tok_eof, mk LastChar stdin Id Num)
  else
    let ThisChar := LastChar in
    match stdin with
    | EmptyString => (ThisChar, mk EOF EmptyString Id Num)
    | String c rest => (ThisChar, mk (int_of_char c) rest Id Num)
    end.

(** [gettok], with fuel for the recursive call after a comment. *)
Fixpoint gettok_rec (fuel : nat) (st : state) : option (Z * state) :=
  let '(LastChar, stdin) := skip_space (LastChar st) (stdin st) in
  if isalpha LastChar then
    let '(Id, LastChar, stdin) :=
      read_alnum (String (char_of_int LastChar) "") stdin in
    let st' := mk LastChar stdin Id (NumVal st) in
    if String.eqb Id "def" then Some (tok_def, st')
    else if String.eqb Id "extern" then Some (tok_extern, st')
    else Some (tok_identifier, st')
  else if number_cond LastChar then
    let '(NumStr, LastChar, stdin) := read_number "" LastChar stdin in
    Some (tok_number, mk LastChar stdin (IdentifierStr st) (strtod NumStr))
  else if LastChar =? int_of_char "#" then
    let '(LastChar, stdin) := skip_comment stdin in
    if negb (LastChar =? EOF) then
      match fuel with
      | O => None
      | S fuel => gettok_rec fuel (mk LastChar stdin (IdentifierStr st) (NumVal st))
      end
    else Some (gettok_tail LastChar stdin (IdentifierStr st) (NumVal st))
  else Some (gettok_tail LastChar stdin (IdentifierStr st) (NumVal st)).

(** Every recursive call has consumed at least one character, so the length
    of the unread input is enough fuel (see [gettok_rec_total]). *)
Definition gettok (st : state) : Z * state :=
  match gettok_rec (String.length (stdin st)) st with
  | Some r => r
  | None => (tok_eof, st)
  end.

End Lex.

(** ** The AST

    A [std::unique_ptr<T>] is an owned object or the null pointer: [option T].
    The children of a node are owned pointers, so they are options too; a
    moved-from pointer is [None]. *)

Inductive ExprAST : Type :=
| NumberExprAST (Val : double)
| VariableExprAST (Name : string)
| BinaryExprAST (Op : ascii) (LHS RHS : option ExprAST)
| CallExprAST (Callee : string) (Args : list (option ExprAST)).

Record PrototypeAST : Type := mkPrototypeAST {
  getName : string;
  protoArgs : list string
}.

Record FunctionAST : Type := mkFunctionAST {
  Proto : option PrototypeAST;
  Body : option ExprAST
}.

(** ** The parser

    The parser reads its tokens through [getNextTok], which calls [gettok]
    and, after an identifier or a number, reads the globals [IdentifierStr]
    and [NumVal].  That is all it knows about the lexer, so the parser is
    written over this interface: [Lex.gettok] is one instance, a prepared
    list of tokens is another. *)

Record Lexer : Type := mkLexer {
  lex_state : Type;
  lex_gettok : lex_state -> Z * lex_state;
  lex_IdentifierStr : lex_state -> string;
  lex_NumVal : lex_state -> double
}.

(** The lexer of [src/jlang.cpp]. *)
Definition stdin_lexer : Lexer :=
  {| lex_state := Lex.state; lex_gettok := Lex.gettok;
     lex_IdentifierStr := Lex.IdentifierStr; lex_NumVal := Lex.NumVal |}.

(** A token as the parser sees it: the code [gettok] returns, with the
    value that [IdentifierStr] or [NumVal] holds after the call. *)
Inductive token : Type :=
| TChar (c : ascii)
| TIdentifier (name : string)
| TNumber (v : double)
| TDef
| TExtern.

(** A lexer that replays a list of tokens and then answers [tok_eof]. *)
Module TokLex.

Record state : Type := mk {
  rest : list token;
  IdentifierStr : string;
  NumVal : double
}.

Definition init (ts : list token) : state :=
  {| rest := ts; IdentifierStr := ""; NumVal := double_zero |}.

Definition gettok (st : state) : Z * state :=
  match rest st with
  | [] => (tok_eof, st)
  | TChar c :: ts => (int_of_char c, mk ts (IdentifierStr st) (NumVal st))
  | TIdentifier x :: ts => (tok_identifier, mk ts x (NumVal st))
  | TNumber v :: ts => (tok_number, mk ts (IdentifierStr st) v)
  | TDef :: ts => (tok_def, mk ts "def" (NumVal st))
  | TExtern :: ts => (tok_extern, mk ts "extern" (NumVal st))
  end.

End TokLex.

Definition token_lexer : Lexer :=
  {| lex_state := TokLex.state; lex_gettok := TokLex.gettok;
     lex_IdentifierStr := TokLex.IdentifierStr; lex_NumVal := TokLex.NumVal |}.

(** [std::map<char, int> BinopPrecedence], as [main] fills it. *)
Definition BinopPrecedence : gmap Z Z :=
  <[int_of_char "*" := 40]> (<[int_of_char "-" := 20]>
    (<[int_of_char "+" := 20]> (<[int_of_char "<" := 10]> ∅))).

Module Parse.
Section Parser.

Context {L : Lexer}.

(** The parser's globals: [CurTok], the lexer it pulls from, and the lines
    [LogError] has printed so far (oldest first). *)
Record state : Type := mk {
  CurTok : Z;
  lexer : lex_state L;
  out : list string
}.

(** A parsing action: it runs on a state and gives a result and the next
    state, or [None] when the fuel of a loop or recursion ran out. *)
Definition M (A : Type) : Type := state -> option (A * state).

Definition ret {A} (a : A) : M A := fun s => Some (a, s).
Definition bind {A B} (m : M A) (k : A -> M B) : M B :=
  fun s => match m s with Some (a, s') => k a s' | None => None end.
Definition out_of_fuel {A} : M A := fun _ => None.

Notation "x <- m ;; k" := (bind m (fun x => k))
  (at level 100, m at next level, right associativity).
Notation "m ;;; k" := (bind m (fun _ => k))
  (at level 100, right associativity).

Definition getCurTok : M Z := fun s => Some (CurTok s, s).
Definition getIdentifierStr : M string :=
  fun s => Some (lex_IdentifierStr L (lexer s), s).
Definition getNumVal : M double :=
  fun s => Some (lex_NumVal L (lexer s), s).

(** [static int getNextTok() { return CurTok = gettok(); }] *)
Definition getNextTok : M Z :=
  fun s => let '(t, l) := lex_gettok L (lexer s) in
           Some (t, mk t l (out s)).

(** [GetTokPrecedence].  [BinopPrecedence[CurTok]] on a missing key adds
    the key with value 0, which later lookups cannot tell from a miss. *)
Definition TokPrecedence (tok : Z) : Z :=
  if negb (isascii tok) then -1
  else
    let TokPrec := default 0 (BinopPrecedence !! tok) in
    if TokPrec <=? 0 then -1 else TokPrec.

Definition GetTokPrecedence : M Z :=
  fun s => Some (TokPrecedence (CurTok s), s).

(** [LogError] prints the line and returns a null pointer; [LogErrorP]
    does the same for prototypes. *)
Definition LogError {A} (Str : string) : M (option A) :=
  fun s => Some (None, mk (CurTok s) (lexer s) (out s ++ ["Log Error: " +:+ Str])%list).

Definition LogErrorP (Str : string) : M (option PrototypeAST) := LogError Str.

Definition ParseNumberExpr : M (option ExprAST) :=
  NumVal <- getNumVal ;;
  let Result := Some (NumberExprAST NumVal) in
  getNextTok ;;;
  ret Result.

Definition tok_is (c : ascii) (tok : Z) : bool := tok =? int_of_char c.

(** The mutually recursive parsing functions.  [fuel] bounds the depth of
    calls and the number of loop iterations together: a loop is a call of
    the function on the state after one iteration. *)
Fixpoint ParseExpression (fuel : nat) : M (option ExprAST) :=
  match fuel with
  | O => out_of_fuel
  | S fuel =>
      LHS <- ParsePrimary fuel ;;
      match LHS with
      | None => ret None
      | Some _ => ParseBinOpRHS fuel 0 LHS
      end
  end

with ParsePrimary (fuel : nat) : M (option ExprAST) :=
  match fuel with
  | O => out_of_fuel
  | S fuel =>
      tok <- getCurTok ;;
      if tok =? tok_number then ParseNumberExpr
      else if tok =? tok_identifier then ParseIdentifierExpr fuel
      else if tok_is "(" tok then ParseParenExpr fuel
      else
        (* default: has no return and falls through to case tok_number *)
        @LogError ExprAST "Unkown token while parsing!" ;;;
        ParseNumberExpr
  end

with ParseParenExpr (fuel : nat) : M (option ExprAST) :=
  match fuel with
  | O => out_of_fuel
  | S fuel =>
      getNextTok ;;;
      V <- ParseExpression fuel ;;
      match V with
      | None => ret None
      | Some _ =>
          tok <- getCurTok ;;
          if negb (tok_is ")" tok) then LogError "Expected ')'"
          else getNextTok ;;; ret V
      end
  end

with ParseIdentifierExpr (fuel : nat) : M (option ExprAST) :=
  match fuel with
  | O => out_of_fuel
  | S fuel =>
      IdName <- getIdentifierStr ;;
      getNextTok ;;;
      tok <- getCurTok ;;
      if negb (tok_is "(" tok) then ret (Some (VariableExprAST IdName))
      else
        getNextTok ;;;
        tok <- getCurTok ;;
        if negb (tok_is ")" tok) then ParseArgs fuel IdName []
        else getNextTok ;;; ret (Some (CallExprAST IdName []))
  end

(** The [while (true)] loop of [ParseIdentifierExpr] with the two
    statements after it; [Args] is the vector built so far. *)
with ParseArgs (fuel : nat) (IdName : string) (Args : list (option ExprAST))
  : M (option ExprAST) :=
  match fuel with
  | O => out_of_fuel
  | S fuel =>
      Arg <- ParseExpression fuel ;;
      match Arg with
      | None => ret None
      | Some _ =>
          let Args := (Args ++ [Arg])%list in
          tok <- getCurTok ;;
          if tok_is ")" tok then
            getNextTok ;;; ret (Some (CallExprAST IdName Args))
          else if negb (tok_is "," tok) then
            LogError "Expected ')' or ',' in the argument list"
          else getNextTok ;;; ParseArgs fuel IdName Args
      end
  end

(** [ParseBinOpRHS]: one iteration of the [while (true)] loop, then the
    loop again.  In the recursive call the argument is [std::move(LHS)],
    which leaves [LHS] null for the [BinaryExprAST] built afterwards. *)
with ParseBinOpRHS (fuel : nat) (ExprPrec : Z) (LHS : option ExprAST)
  : M (option ExprAST) :=
  match fuel with
  | O => out_of_fuel
  | S fuel =>
      TokPrec <- GetTokPrecedence ;;
      if TokPrec <? ExprPrec then ret LHS
      else
        BinOp <- getCurTok ;;
        getNextTok ;;;
        RHS <- ParsePrimary fuel ;;
        match RHS with
        | None => ret None
        | Some _ =>
            NextPrec <- GetTokPrecedence ;;
            if TokPrec <? NextPrec then
              RHS <- ParseBinOpRHS fuel (TokPrec + 1) LHS ;;
              let LHS : option ExprAST := None in
              match RHS with
              | None => ret None
              | Some _ =>
                  ParseBinOpRHS fuel ExprPrec
                    (Some (BinaryExprAST (char_of_int BinOp) LHS RHS))
              end
            else
              ParseBinOpRHS fuel ExprPrec
                (Some (BinaryExprAST (char_of_int BinOp) LHS RHS))
        end
  end.

(** The [while (getNextTok() == tok_identifier)] loop of [ParsePrototype]
    and what follows it. *)
Fixpoint ParsePrototypeArgs (fuel : nat) (Fname : string)
    (ArgNames : list string) : M (option PrototypeAST) :=
  match fuel with
  | O => out_of_fuel
  | S fuel =>
      tok <- getNextTok ;;
      if tok =? tok_identifier then
        Id <- getIdentifierStr ;;
        ParsePrototypeArgs fuel Fname (ArgNames ++ [Id])%list
      else if negb (tok_is ")" tok) then
        LogErrorP "Expected ')' name in prototype"
      else
        getNextTok ;;;
        ret (Some (mkPrototypeAST Fname ArgNames))
  end.

Definition ParsePrototype (fuel : nat) : M (option PrototypeAST) :=
  tok <- getCurTok ;;
  if negb (tok =? tok_identifier) then
    LogErrorP "Expected fucntion name in prototype"
  else
    Fname <- getIdentifierStr ;;
    getNextTok ;;;
    tok <- getCurTok ;;
    if negb (tok_is "(" tok) then LogErrorP "Expected '(' name in prototype"
    else ParsePrototypeArgs fuel Fname [].

Definition ParseDefinition (fuel : nat) : M (option FunctionAST) :=
  getNextTok ;;;
  Proto <- ParsePrototype fuel ;;
  match Proto with
  | None => ret None
  | Some _ =>
      E <- ParseExpression fuel ;;
      match E with
      | Some _ => ret (Some (mkFunctionAST Proto E))
      | None => ret None
      end
  end.

Definition ParseExtern (fuel : nat) : M (option PrototypeAST) :=
  getNextTok ;;;
  ParsePrototype fuel.

Definition ParseTopLevelExpr (fuel : nat) : M (option FunctionAST) :=
  E <- ParseExpression fuel ;;
  match E with
  | Some _ =>
      let Proto := Some (mkPrototypeAST "__anon_expr" []) in
      ret (Some (mkFunctionAST Proto E))
  | None => ret None
  end.

(** The state in which [main] enters [MainLoop]: [getNextTok()] has been
    called once on the fresh lexer. *)
Definition start (l : lex_state L) : state :=
  let '(t, l') := lex_gettok L l in mk t l' [].

End Parser.
End Parse.

(** ** Lowering: the [codegen] methods

    LLVM is a library outside this repository.  Of its objects the model
    keeps what the program can observe through the calls it makes:
    - a [Value*] that an [IRBuilder] call returns is the symbolic term of
      that call (whether LLVM folds a constant or inserts an instruction is
      not modelled; the optional name argument is dropped);
    - a [Function*] is a handle, the allocation number of the function;
    - the module is its list of functions in creation order.  A function
      whose name is taken gets the name LLVM's symbol table makes up for it
      (the name, a dot and the next free number), so a name identifies at
      most one function and [getFunction] finds the first owner. *)

Module CG.

Inductive Value : Type :=
| ConstantFP (v : double)
| Argument (F : nat) (ArgNo : nat)
| FAdd (L R : Value)
| FSub (L R : Value)
| FMul (L R : Value)
| FCmpULT (L R : Value)
| UIToFP (V : Value)
| Call (Callee : nat) (Args : list Value)
| Ret (V : Value).

Record Function : Type := mkFunction {
  handle : nat;               (* the identity of the object *)
  fname : string;             (* getName() *)
  fargs : list string;        (* the names of args(), in order *)
  blocks : nat                (* the number of basic blocks *)
}.

(** The lowering globals: [TheModule], [NamedValues], [Builder], and the
    lines printed by [LogError]. *)
Record state : Type := mk {
  TheModule : list Function;
  LastUnique : nat;                         (* of the module's symbol table *)
  allocated : nat;                          (* functions created so far *)
  NamedValues : gmap string (option Value); (* std::map<std::string, Value *> *)
  InsertPoint : option (nat * nat);         (* function handle, block number *)
  built : list Value;                       (* IRBuilder calls, oldest first *)
  out : list string
}.

(** [InitializeModule]. *)
Definition init : state :=
  {| TheModule := []; LastUnique := 0; allocated := 0; NamedValues := ∅;
     InsertPoint := None; built := []; out := [] |}.

(** A lowering action.  [None] stands for undefined behaviour: a method
    called through a null pointer. *)
Definition M (A : Type) : Type := state -> option (A * state).

Definition ret {A} (a : A) : M A := fun s => Some (a, s).
Definition bind {A B} (m : M A) (k : A -> M B) : M B :=
  fun s => match m s with Some (a, s') => k a s' | None => None end.
Definition undefined {A} : M A := fun _ => None.

Notation "x <- m ;; k" := (bind m (fun x => k))
  (at level 100, m at next level, right associativity).
Notation "m ;;; k" := (bind m (fun _ => k))
  (at level 100, right associativity).

(** [p->method()] for an owned pointer [p]. *)
Definition deref {T A} (p : option T) (method : T -> M A) : M A :=
  match p with
  | Some obj => method obj
  | None => undefined
  end.

Definition LogErrorV (Str : string) : M (option Value) :=
  fun s => Some (None,
    mk (TheModule s) (LastUnique s) (allocated s) (NamedValues s)
       (InsertPoint s) (built s) (out s ++ ["Log Error: " +:+ Str])%list).

(** An [IRBuilder] call: it is recorded and its value, which is never
    null, returned. *)
Definition Create (V : Value) : M Value :=
  fun s => Some (V,
    mk (TheModule s) (LastUnique s) (allocated s) (NamedValues s)
       (InsertPoint s) (built s ++ [V])%list (out s)).

(** [TheModule->getFunction(Name)]; the empty name is the name of unnamed
    values and is never in the symbol table. *)
Definition lookup_function (Name : string) (fs : list Function)
  : option Function :=
  if decide (Name = "") then None
  else List.find (fun F => String.eqb (fname F) Name) fs.

Definition getFunction (Name : string) : M (option Function) :=
  fun s => Some (lookup_function Name (TheModule s), s).

(** [NamedValues[Name]] as an rvalue: a missing key is added with a null
    pointer. *)
Definition NamedValues_at (Name : string) : M (option Value) :=
  fun s =>
    match NamedValues s !! Name with
    | Some V => Some (V, s)
    | None =>
        Some (None,
          mk (TheModule s) (LastUnique s) (allocated s)
             (<[Name := None]> (NamedValues s))
             (InsertPoint s) (built s) (out s))
    end.

(** [ValueSymbolTable::makeUniqueName]: append the next number (after
    [sep]) until the name is free. *)
Fixpoint makeUniqueName (fuel : nat) (taken : list string) (Name sep : string)
    (LastUnique : nat) : string * nat :=
  let LastUnique := S LastUnique in
  let UniqueName := Name +:+ sep +:+ pretty LastUnique in
  match fuel with
  | O => (UniqueName, LastUnique)
  | S fuel =>
      if bool_decide (UniqueName ∈ taken)
      then makeUniqueName fuel taken Name sep LastUnique
      else (UniqueName, LastUnique)
  end.

(** [Value::setName] in a symbol table holding [taken]. *)
Definition createValueName (taken : list string) (Name sep : string)
    (LastUnique : nat) : string * nat :=
  if decide (Name = "") then (Name, LastUnique)
  else if bool_decide (Name ∈ taken)
  then makeUniqueName (length taken) taken Name sep LastUnique
  else (Name, LastUnique).

(** [Function::Create(FT, ExternalLinkage, Name, TheModule.get())] for a
    type of [nargs] parameters: a new function at the end of the module,
    its arguments still unnamed. *)
Definition Function_Create (nargs : nat) (Name : string) : M Function :=
  fun s =>
    let '(Name', LastUnique') :=
      createValueName (List.map fname (TheModule s)) Name "." (LastUnique s) in
    let F := mkFunction (allocated s) Name' (replicate nargs "") 0 in
    Some (F,
      mk (TheModule s ++ [F])%list LastUnique' (S (allocated s))
         (NamedValues s) (InsertPoint s) (built s) (out s)).

(** Replace the object behind a handle. *)
Definition update_function (F : Function) (fs : list Function)
  : list Function :=
  List.map (fun G => if Nat.eqb (handle G) (handle F) then F else G) fs.

(** The loop [for (auto &Arg : F->args()) Arg.setName(Args[Idx++]);]:
    the names go into the function's own symbol table, which renames a
    repeated name. *)
Fixpoint setArgNames (Args : list string) (named : list string)
    (LastUnique : nat) : list string :=
  match Args with
  | [] => named
  | a :: Args =>
      let '(a', LastUnique') := createValueName named a "" LastUnique in
      setArgNames Args (named ++ [a'])%list LastUnique'
  end.

(** [PrototypeAST::codegen]. *)
Definition PrototypeAST_codegen (P : PrototypeAST) : M (option Function) :=
  F <- Function_Create (length (protoArgs P)) (getName P) ;;
  let F' := mkFunction (handle F) (fname F)
              (setArgNames (protoArgs P) [] 0) (blocks F) in
  fun s =>
    Some (Some F',
      mk (update_function F' (TheModule s)) (LastUnique s) (allocated s)
         (NamedValues s) (InsertPoint s) (built s) (out s)).

(** The [switch (Op)] of [BinaryExprAST::codegen]. *)
Definition codegen_binop (Op : ascii) (L R : Value) : M (option Value) :=
  if Ascii.eqb Op "+" then V <- Create (FAdd L R) ;; ret (Some V)
  else if Ascii.eqb Op "-" then V <- Create (FSub L R) ;; ret (Some V)
  else if Ascii.eqb Op "*" then V <- Create (FMul L R) ;; ret (Some V)
  else if Ascii.eqb Op "<" then
    L <- Create (FCmpULT L R) ;;
    V <- Create (UIToFP L) ;;
    ret (Some V)
  else LogErrorV "invalid binary operator!".

(** The loop of [CallExprAST::codegen] over the arguments not yet lowered,
    with the call it ends in:
    [for (auto &i : Args) { ArgsV.push_back(i->codegen());
                            if (!ArgsV.back()) return nullptr; }]
    [codegen] is the virtual method, passed in because the two are
    mutually recursive. *)
Definition codegen_args (codegen : ExprAST -> M (option Value))
    (CalleeF : Function)
  : list (option ExprAST) -> list Value -> M (option Value) :=
  fix loop (Args : list (option ExprAST)) (ArgsV : list Value) :=
    match Args with
    | [] => V <- Create (Call (handle CalleeF) ArgsV) ;; ret (Some V)
    | i :: Args =>
        back <- deref i codegen ;;
        match back with
        | None => ret None
        | Some V => loop Args (ArgsV ++ [V])%list
        end
    end.

(** [ExprAST::codegen], by cases on the dynamic type of the node. *)
Fixpoint codegen (e : ExprAST) : M (option Value) :=
  match e with
  | NumberExprAST Val => ret (Some (ConstantFP Val))
  | VariableExprAST Name =>
      V <- NamedValues_at Name ;;
      match V with
      | None => LogErrorV "Unkown variable name!" ;;; ret V
      | Some _ => ret V
      end
  | BinaryExprAST Op LHS RHS =>
      L <- deref LHS codegen ;;
      R <- deref RHS codegen ;;
      match L, R with
      | Some L, Some R => codegen_binop Op L R
      | _, _ => ret None
      end
  | CallExprAST Callee Args =>
      CalleeF <- getFunction Callee ;;
      match CalleeF with
      | None => LogErrorV "Unkown function referenced!"
      | Some CalleeF =>
          if negb (Nat.eqb (length (fargs CalleeF)) (length Args)) then
            LogErrorV "Incorrect argument number!"
          else codegen_args codegen CalleeF Args []
      end
  end.

(** [BasicBlock::Create] of the block [entry] in [TheFunction] followed by
    [Builder->SetInsertPoint(BB)]. *)
Definition enter_block (F : Function) : M Function :=
  fun s =>
    let F' := mkFunction (handle F) (fname F) (fargs F) (S (blocks F)) in
    Some (F',
      mk (update_function F' (TheModule s)) (LastUnique s) (allocated s)
         (NamedValues s) (Some (handle F, blocks F)) (built s) (out s)).

(** [NamedValues.clear()] and the loop
    [for (auto &Arg : TheFunction->args())
       NamedValues[std::string(Arg.getName())] = &Arg;]. *)
Fixpoint bind_args (F : nat) (ArgNo : nat) (names : list string)
    (NV : gmap string (option Value)) : gmap string (option Value) :=
  match names with
  | [] => NV
  | a :: names =>
      bind_args F (S ArgNo) names (<[a := Some (Argument F ArgNo)]> NV)
  end.

Definition reset_NamedValues (F : Function) : M unit :=
  fun s =>
    Some (tt,
      mk (TheModule s) (LastUnique s) (allocated s)
         (bind_args (handle F) 0 (fargs F) ∅)
         (InsertPoint s) (built s) (out s)).

(** [TheFunction->eraseFromParent()]. *)
Definition eraseFromParent (F : Function) : M unit :=
  fun s =>
    Some (tt,
      mk (List.filter (fun G => negb (Nat.eqb (handle G) (handle F)))
            (TheModule s))
         (LastUnique s) (allocated s) (NamedValues s) (InsertPoint s)
         (built s) (out s)).

(** [FunctionAST::codegen]; the result is the handle of the function.
    [verifyFunction] only inspects the function. *)
Definition FunctionAST_codegen (Fn : FunctionAST) : M (option nat) :=
  TheFunction <- deref (Proto Fn) (fun P => getFunction (getName P)) ;;
  TheFunction <- match TheFunction with
                 | None => deref (Proto Fn) PrototypeAST_codegen
                 | Some _ => ret TheFunction
                 end ;;
  match TheFunction with
  | None => ret None
  | Some TheFunction =>
      TheFunction <- enter_block TheFunction ;;
      reset_NamedValues TheFunction ;;;
      RetVal <- deref (Body Fn) codegen ;;
      match RetVal with
      | Some RetVal =>
          Create (Ret RetVal) ;;;
          ret (Some (handle TheFunction))
      | None =>
          eraseFromParent TheFunction ;;;
          ret None
      end
  end.

End CG.

(** ** The driver: the [Handle...] functions, [MainLoop] and [main]

    The driver runs the parser and the lowering on the same standard
    output.  Its state holds the parser's globals, the lowering's globals
    and what was written to [errs()].  Standard output is one stream: it is
    the [out] field of the parser state, and the lowering is handed it for
    the time of a [codegen] call.  An entry of it is the text of one print
    call without its final newline; the prompt is the only text printed
    without one. *)

Module Driver.

(** What is written to [errs()]: the IR of the function behind a handle,
    or of the module. *)
Inductive dump : Type :=
| print_function (F : nat)
| print_module (fs : list CG.Function).

Section WithLexer.

Context {L : Lexer}.

Record state : Type := mk {
  parser : @Parse.state L;
  lowering : CG.state;
  errs : list dump
}.

Definition stdout (s : state) : list string := Parse.out (parser s).

(** How a call ends: it returns, it runs into undefined behaviour (the
    lowering called a method through a null pointer), or the fuel of a loop
    ran out. *)
Inductive result (A : Type) : Type :=
| Done (a : A) (s : state)
| Undefined
| OutOfFuel.

Arguments Done {A} a s.
Arguments Undefined {A}.
Arguments OutOfFuel {A}.

Definition M (A : Type) : Type := state -> result A.

Definition ret {A} (a : A) : M A := fun s => Done a s.
Definition bind {A B} (m : M A) (k : A -> M B) : M B :=
  fun s => match m s with
           | Done a s' => k a s'
           | Undefined => Undefined
           | OutOfFuel => OutOfFuel
           end.

Notation "x <- m ;; k" := (bind m (fun x => k))
  (at level 100, m at next level, right associativity).
Notation "m ;;; k" := (bind m (fun _ => k))
  (at level 100, right associativity).

(** A call into the parser. *)
Definition parse {A} (m : @Parse.M L A) : M A :=
  fun s => match m (parser s) with
           | Some (a, p) => Done a (mk p (lowering s) (errs s))
           | None => OutOfFuel
           end.

Definition with_out (c : CG.state) (o : list string) : CG.state :=
  CG.mk (CG.TheModule c) (CG.LastUnique c) (CG.allocated c) (CG.NamedValues c)
        (CG.InsertPoint c) (CG.built c) o.

(** A call of a [codegen] method. *)
Definition lower {A} (m : CG.M A) : M A :=
  fun s => match m (with_out (lowering s) (stdout s)) with
           | Some (a, c) =>
               Done a (mk (Parse.mk (Parse.CurTok (parser s))
                                    (Parse.lexer (parser s)) (CG.out c))
                          c (errs s))
           | None => Undefined
           end.

(** [fmt::print] and [std::printf]. *)
Definition print (text : string) : M unit :=
  fun s => Done tt (mk (Parse.mk (Parse.CurTok (parser s))
                                 (Parse.lexer (parser s))
                                 (stdout s ++ [text])%list)
                       (lowering s) (errs s)).

(** [FnIR->print(errs())]. *)
Definition print_errs (F : nat) : M unit :=
  fun s => Done tt (mk (parser s) (lowering s)
                       (errs s ++ [print_function F])%list).

Definition HandleDefinition (fuel : nat) : M unit :=
  FnAST <- parse (Parse.ParseDefinition fuel) ;;
  match FnAST with
  | Some FnAST =>
      FnIR <- lower (CG.FunctionAST_codegen FnAST) ;;
      match FnIR with
      | Some FnIR =>
          print "Parsed a function definition." ;;;
          print_errs FnIR ;;;
          print ""
      | None => ret tt
      end
  | None => parse Parse.getNextTok ;;; ret tt
  end.

Definition HandleExtern (fuel : nat) : M unit :=
  ProtoAST <- parse (Parse.ParseExtern fuel) ;;
  match ProtoAST with
  | Some ProtoAST =>
      FnIR <- lower (CG.PrototypeAST_codegen ProtoAST) ;;
      match FnIR with
      | Some FnIR =>
          print "Parsed an extern" ;;;
          print_errs (CG.handle FnIR) ;;;
          print ""
      | None => ret tt
      end
  | None => parse Parse.getNextTok ;;; ret tt
  end.

Definition HandleTopLevelExpression (fuel : nat) : M unit :=
  FnAST <- parse (Parse.ParseTopLevelExpr fuel) ;;
  match FnAST with
  | Some FnAST =>
      FnIR <- lower (CG.FunctionAST_codegen FnAST) ;;
      match FnIR with
      | Some FnIR =>
          print "Parsed a top-level expr" ;;;
          print_errs FnIR ;;;
          print ""
      | None => ret tt
      end
  | None => parse Parse.getNextTok ;;; ret tt
  end.

(** [MainLoop]: one unit of fuel for a turn of [while (true)]; the parser
    gets what is left. *)
Fixpoint MainLoop (fuel : nat) : M unit :=
  match fuel with
  | O => fun _ => OutOfFuel
  | S fuel =>
      print "Jlang>" ;;;
      tok <- parse Parse.getCurTok ;;
      if tok =? tok_eof then ret tt
      else if Parse.tok_is ";" tok then
        parse Parse.getNextTok ;;; MainLoop fuel
      else if tok =? tok_def then HandleDefinition fuel ;;; MainLoop fuel
      else if tok =? tok_extern then HandleExtern fuel ;;; MainLoop fuel
      else HandleTopLevelExpression fuel ;;; MainLoop fuel
  end.

(** [InitializeModule]: a fresh, empty module. *)
Definition InitializeModule : M unit :=
  fun s => Done tt (mk (parser s) (with_out CG.init (CG.out (lowering s)))
                       (errs s)).

(** [TheModule->print(errs(), nullptr)]. *)
Definition print_TheModule : M unit :=
  fun s => Done tt (mk (parser s) (lowering s)
                       (errs s ++ [print_module (CG.TheModule (lowering s))])%list).

(** The globals when [main] starts: [CurTok] is zero-initialised, nothing
    is printed; [TheModule] is set by [InitializeModule] before its first
    use. *)
Definition initial (stdin : lex_state L) : state :=
  mk (Parse.mk 0 stdin []) CG.init [].

(** [main], on the standard input [stdin].  Its four assignments to
    [BinopPrecedence] give the table [BinopPrecedence] above. *)
Definition main (fuel : nat) (stdin : lex_state L) : result Z :=
  (print "Jlang>" ;;;
   parse Parse.getNextTok ;;;
   InitializeModule ;;;
   MainLoop fuel ;;;
   print_TheModule ;;;
   ret 0) (initial stdin).

End WithLexer.

Arguments Done {L A} a s.
Arguments Undefined {L A}.
Arguments OutOfFuel {L A}.

End Driver.

(** ** Predicates and helpers used in the statements *)

(** [LastChar] holds what [getchar] returns: [EOF] or an [unsigned char]. *)
Definition Lex_wf (st : Lex.state) : Prop := -1 <= Lex.LastChar st <= 255.

(** The tokens of [n] successive calls of [gettok]. *)
Fixpoint Lex_tokens (n : nat) (st : Lex.state) : list Z :=
  match n with
  | O => []
  | S n => let '(t, st') := Lex.gettok st in t :: Lex_tokens n st'
  end.

(** The lexer state after [n] calls of [gettok]. *)
Fixpoint Lex_after (n : nat) (st : Lex.state) : Lex.state :=
  match n with
  | O => st
  | S n => Lex_after n (snd (Lex.gettok st))
  end.

(** Every character of the string is a letter or a digit. *)
Fixpoint all_alnum (s : string) : bool :=
  match s with
  | EmptyString => true
  | String c rest => isalnum (int_of_char c) && all_alnum rest
  end.

(** The parser states in which [main] starts parsing. *)
Definition parse_text (input : string) : @Parse.state stdin_lexer :=
  @Parse.start stdin_lexer (Lex.init input).

Definition parse_tokens (ts : list token) : @Parse.state token_lexer :=
  @Parse.start token_lexer (TokLex.init ts).

(** [LowersAll s Args Vs s']: lowering the arguments [Args] one after the
    other from left to right, starting in [s], succeeds on every one; [Vs]
    are the values in the same order and [s'] is the final state. *)
Inductive LowersAll : CG.state -> list (option ExprAST) -> list CG.Value ->
                      CG.state -> Prop :=
| LowersAll_nil s : LowersAll s [] [] s
| LowersAll_cons s a V s1 Args Vs s2 :
    CG.codegen a s = Some (Some V, s1) ->
    LowersAll s1 Args Vs s2 ->
    LowersAll s (Some a :: Args) (V :: Vs) s2.

(** A name is the name of at most one function of the module. *)
Definition names_identify (fs : list CG.Function) : Prop :=
  forall F G, In F fs -> In G fs ->
    CG.fname F = CG.fname G -> CG.fname F <> "" -> CG.handle F = CG.handle G.

(** The state [s] with one more line printed. *)
Definition CG_printed (s : CG.state) (line : string) : CG.state :=
  CG.mk (CG.TheModule s) (CG.LastUnique s) (CG.allocated s) (CG.NamedValues s)
        (CG.InsertPoint s) (CG.built s) (CG.out s ++ [line])%list.

(** The state [s] with one more [IRBuilder] call recorded. *)
Definition CG_built (s : CG.state) (V : CG.Value) : CG.state :=
  CG.mk (CG.TheModule s) (CG.LastUnique s) (CG.allocated s) (CG.NamedValues s)
        (CG.InsertPoint s) (CG.built s ++ [V])%list (CG.out s).

(** What a call of [gettok] can return, and the state it leaves. *)
Inductive gettok_result (st : Lex.state) : Z -> Lex.state -> Prop :=
| gettok_eof st' :
    Lex.LastChar st' = EOF ->
    Lex.IdentifierStr st' = Lex.IdentifierStr st ->
    Lex.NumVal st' = Lex.NumVal st ->
    gettok_result st tok_eof st'
| gettok_word t st' :
    t = tok_def \/ t = tok_extern \/ t = tok_identifier ->
    all_alnum (Lex.IdentifierStr st') = true ->
    Lex.NumVal st' = Lex.NumVal st ->
    gettok_result st t st'
| gettok_char t st' :
    0 <= t <= 255 ->
    Lex.IdentifierStr st' = Lex.IdentifierStr st ->
    Lex.NumVal st' = Lex.NumVal st ->
    gettok_result st t st'.

(** Every function of the module was allocated before now. *)
Definition handles_below (s : CG.state) : Prop :=
  forall F, In F (CG.TheModule s) -> (CG.handle F < CG.allocated s)%nat.

(** The test of [eraseFromParent]: [G] is not the object [F]. *)
Definition keeps_other (F : CG.Function) (G : CG.Function) : bool :=
  negb (Nat.eqb (CG.handle G) (CG.handle F)).

(** [F] with one more basic block. *)
Definition with_block (F : CG.Function) : CG.Function :=
  CG.mkFunction (CG.handle F) (CG.fname F) (CG.fargs F) (S (CG.blocks F)).

(** The state in which [FunctionAST::codegen] lowers the body when
    [TheFunction] is [F]: the entry block is created and [NamedValues] holds
    the arguments of [F] under their names. *)
Definition CG_entered (s : CG.state) (F : CG.Function) : CG.state :=
  CG.mk (CG.update_function (with_block F) (CG.TheModule s))
        (CG.LastUnique s) (CG.allocated s)
        (CG.bind_args (CG.handle F) 0 (CG.fargs F) ∅)
        (Some (CG.handle F, CG.blocks F)) (CG.built s) (CG.out s).

(** The state [s] after [F->eraseFromParent()]. *)
Definition CG_erased (s : CG.state) (F : CG.Function) : CG.state :=
  CG.mk (List.filter (keeps_other F) (CG.TheModule s))
        (CG.LastUnique s) (CG.allocated s) (CG.NamedValues s)
        (CG.InsertPoint s) (CG.built s) (CG.out s).

(** The function [PrototypeAST::codegen] makes for [P] in state [s]. *)
Definition CG_created (P : PrototypeAST) (s : CG.state) : CG.Function :=
  CG.mkFunction (CG.allocated s)
    (fst (CG.createValueName (List.map CG.fname (CG.TheModule s)) (getName P) "."
                             (CG.LastUnique s)))
    (CG.setArgNames (protoArgs P) [] 0) 0.

(** What lowering an expression leaves alone: the functions of the module,
    the allocation counters and the insertion point. *)
Definition same_module (s s' : CG.state) : Prop :=
  CG.TheModule s' = CG.TheModule s /\ CG.LastUnique s' = CG.LastUnique s /\
  CG.allocated s' = CG.allocated s /\ CG.InsertPoint s' = CG.InsertPoint s.


(** The characters the lexer can still return something for: none once
    [LastChar] is [EOF], otherwise [LastChar] and the unread input. *)
Definition Lex_remaining_of (LastChar : Z) (stdin : string) : nat :=
  if LastChar =? EOF then 0%nat else S (String.length stdin).

Definition Lex_remaining (st : Lex.state) : nat :=
  Lex_remaining_of (Lex.LastChar st) (Lex.stdin st).

(** The same for the parser, counting the current token. *)
Definition Parse_remaining (s : @Parse.state stdin_lexer) : nat :=
  if Parse.CurTok s =? tok_eof then 0%nat
  else S (Lex_remaining (Parse.lexer s)).

(** [CurTok] is [tok_eof] only when the lexer is at the end of input. *)
Definition Parse_wf (s : @Parse.state stdin_lexer) : Prop :=
  Parse.CurTok s = tok_eof -> Lex.LastChar (Parse.lexer s) = EOF.

(** The action returns from [s], in a well-formed state with no more left
    to read than before. *)
Definition runs {A} (m : @Parse.M stdin_lexer A) (s : @Parse.state stdin_lexer)
  : Prop :=
  exists r s', m s = Some (r, s') /\ Parse_wf s' /\
               (Parse_remaining s' <= Parse_remaining s)%nat.

(** The expression parser returns from every state with at most [n] left to
    read, given fuel linear in [n]. *)
Definition terminates_at (n : nat) : Prop :=
  (forall s fuel, Parse_wf s -> (Parse_remaining s <= n)%nat ->
     (4 * n + 2 <= fuel)%nat -> runs (Parse.ParsePrimary fuel) s) /\
  (forall s fuel ExprPrec LHS, Parse_wf s -> (Parse_remaining s <= n)%nat ->
     0 <= ExprPrec -> (4 * n + 1 <= fuel)%nat ->
     runs (Parse.ParseBinOpRHS fuel ExprPrec LHS) s) /\
  (forall s fuel, Parse_wf s -> (Parse_remaining s <= n)%nat ->
     (4 * n + 3 <= fuel)%nat -> runs (Parse.ParseExpression fuel) s) /\
  (forall s fuel IdName Args, Parse_wf s -> (Parse_remaining s <= n)%nat ->
     (4 * n + 4 <= fuel)%nat -> runs (Parse.ParseArgs fuel IdName Args) s).

(** Whatever [m1] returns, [m2] returns too. *)
Definition pref {L : Lexer} {A} (m1 m2 : @Parse.M L A) : Prop :=
  forall s r, m1 s = Some r -> m2 s = Some r.

Definition fuel_mono (L : Lexer) (n m : nat) : Prop :=
  pref (@Parse.ParseExpression L n) (Parse.ParseExpression m) /\
  pref (@Parse.ParsePrimary L n) (Parse.ParsePrimary m) /\
  pref (@Parse.ParseParenExpr L n) (Parse.ParseParenExpr m) /\
  pref (@Parse.ParseIdentifierExpr L n) (Parse.ParseIdentifierExpr m) /\
  (forall Id Args,
     pref (@Parse.ParseArgs L n Id Args) (Parse.ParseArgs m Id Args)) /\
  (forall E LHS,
     pref (@Parse.ParseBinOpRHS L n E LHS) (Parse.ParseBinOpRHS m E LHS)).

(** The lowering state once [extern foo(a)] has been lowered, and the one
    once [extern foo(a b)] has. *)
Definition declared_foo : CG.Function := CG.mkFunction 0 "foo" ["a"] 0.

Definition after_extern_foo : CG.state :=
  CG.mk [declared_foo] 0 1 ∅ None [] [].

Definition declared_foo2 : CG.Function := CG.mkFunction 0 "foo" ["a"; "b"] 0.

Definition after_extern_foo2 : CG.state :=
  CG.mk [declared_foo2] 0 1 ∅ None [] [].

(** The module is well formed: handles are below the allocation counter
    and a name belongs to one function. *)
Definition CG_wf (s : CG.state) : Prop :=
  handles_below s /\ names_identify (CG.TheModule s).

(** *** Source text

    [getchar] on what is left of the standard input. *)
Definition getchar (stdin : string) : Z * string :=
  match stdin with
  | EmptyString => (EOF, EmptyString)
  | String c rest => (int_of_char c, rest)
  end.

(** Every character of the string is white space. *)
Fixpoint all_space (s : string) : bool :=
  match s with
  | EmptyString => true
  | String c rest => isspace (int_of_char c) && all_space rest
  end.

(** The string holds no line feed and no carriage return. *)
Fixpoint no_eol (s : string) : bool :=
  match s with
  | EmptyString => true
  | String c rest =>
      negb ((int_of_char c =? 10) || (int_of_char c =? 13)) && no_eol rest
  end.

(** The token of a word: a keyword or an identifier. *)
Definition word_token (w : string) : Z :=
  if String.eqb w "def" then tok_def
  else if String.eqb w "extern" then tok_extern
  else tok_identifier.

(** The text [rest] does not go on with a letter or a digit. *)
Definition ends_word (rest : string) : Prop :=
  match rest with
  | EmptyString => True
  | String c _ => isalnum (int_of_char c) = false
  end.

(** *** Token streams

    The value [gettok] returns for a token. *)
Definition token_code (t : token) : Z :=
  match t with
  | TChar c => int_of_char c
  | TIdentifier _ => tok_identifier
  | TNumber _ => tok_number
  | TDef => tok_def
  | TExtern => tok_extern
  end.

(** The parser has the first token of [ts] as its current token, with
    [IdentifierStr] or [NumVal] set for it, and the others still to come;
    it is at the end of the stream when [ts] is empty. *)
Definition at_tokens (s : @Parse.state token_lexer) (ts : list token) : Prop :=
  match ts with
  | [] => Parse.CurTok s = tok_eof /\ TokLex.rest (Parse.lexer s) = []
  | t :: ts' =>
      Parse.CurTok s = token_code t /\ TokLex.rest (Parse.lexer s) = ts' /\
      match t with
      | TIdentifier x => TokLex.IdentifierStr (Parse.lexer s) = x
      | TNumber v => TokLex.NumVal (Parse.lexer s) = v
      | _ => True
      end
  end.

(** An operand that is one token: a number or a variable. *)
Inductive atom : Type :=
| ANumber (v : double)
| AVariable (x : string).

Definition atom_token (a : atom) : token :=
  match a with ANumber v => TNumber v | AVariable x => TIdentifier x end.

Definition atom_ast (a : atom) : ExprAST :=
  match a with ANumber v => NumberExprAST v | AVariable x => VariableExprAST x end.

(** A chain [op1 a1 op2 a2 ...] after a first operand: its tokens, and the
    tree that nests to the left. *)
Definition chain_tokens (chain : list (ascii * atom)) : list token :=
  flat_map (fun oa => [TChar (fst oa); atom_token (snd oa)]) chain.

Definition chain_ast (lhs : ExprAST) (chain : list (ascii * atom)) : ExprAST :=
  fold_left (fun acc oa =>
               BinaryExprAST (fst oa) (Some acc) (Some (atom_ast (snd oa))))
            chain lhs.

Definition op_prec (op : ascii) : Z := Parse.TokPrecedence (int_of_char op).

(** Every operator of the chain has a precedence, and none binds tighter
    than the one before it. *)
Fixpoint descending (chain : list (ascii * atom)) : bool :=
  match chain with
  | [] => true
  | oa :: rest =>
      (0 <? op_prec (fst oa)) &&
      match rest with
      | [] => true
      | oa' :: _ => op_prec (fst oa') <=? op_prec (fst oa)
      end && descending rest
  end.

(** What follows is not an operator and not an opening parenthesis. *)
Definition ends_expression (rest : list token) : Prop :=
  match rest with
  | [] => True
  | t :: _ => Parse.TokPrecedence (token_code t) = -1 /\
              token_code t <> int_of_char "("
  end.

(** The tokens of an argument list, without the parentheses. *)
Fixpoint args_tokens (args : list atom) : list token :=
  match args with
  | [] => []
  | a :: rest =>
      atom_token a ::
      match rest with
      | [] => []
      | _ :: _ => TChar "," :: args_tokens rest
      end
  end.

(** The tokens of a prototype up to its closing parenthesis. *)
Definition prototype_tokens (Fname : string) (ArgNames : list string)
  : list token :=
  (TIdentifier Fname :: TChar "(" :: List.map TIdentifier ArgNames)%list.

(** The variables among the operands are parameters. *)
Definition atoms_among (ArgNames : list string) (atoms : list atom) : Prop :=
  forall x, In (AVariable x) atoms -> In x ArgNames.

(** *** Progress of the parser

    The action returns from [s] in a well-formed state with less left to
    read. *)
Definition consumes {A} (m : @Parse.M stdin_lexer A)
    (s : @Parse.state stdin_lexer) : Prop :=
  exists r s', m s = Some (r, s') /\ Parse_wf s' /\
               (Parse_remaining s' < Parse_remaining s)%nat.

(** A parser entry point settles on [p]: from the fuel [4 * n + 3] on, for
    [n] what is left to read, it returns one and the same result, in a
    well-formed state with less left to read (no more, when [p] is at the
    end of input already). *)
Definition settles {A} (m : nat -> @Parse.M stdin_lexer A)
    (p : @Parse.state stdin_lexer) : Prop :=
  exists r p',
    (forall fuel, (4 * Parse_remaining p + 3 <= fuel)%nat ->
       m fuel p = Some (r, p')) /\
    Parse_wf p' /\
    (Parse_remaining p' <= Parse_remaining p)%nat /\
    (Parse.CurTok p <> tok_eof ->
     (Parse_remaining p' < Parse_remaining p)%nat).

(** *** The trees the parser builds *)

Definition is_binop (op : ascii) : bool :=
  Ascii.eqb op "<" || Ascii.eqb op "+" || Ascii.eqb op "-" || Ascii.eqb op "*".

(** The shape of the trees the parser builds: operators with a precedence,
    right operands and call arguments never null.  A left operand may be
    null. *)
Fixpoint parsed_shape (e : ExprAST) : bool :=
  match e with
  | NumberExprAST _ => true
  | VariableExprAST _ => true
  | BinaryExprAST Op LHS RHS =>
      is_binop Op &&
      match LHS with Some l => parsed_shape l | None => true end &&
      match RHS with Some r => parsed_shape r | None => false end
  | CallExprAST _ Args =>
      forallb (fun a => match a with Some e => parsed_shape e | None => false end)
              Args
  end.

Definition shape_opt (o : option ExprAST) : Prop :=
  match o with Some e => parsed_shape e = true | None => True end.

Definition shape_args (Args : list (option ExprAST)) : Prop :=
  forallb (fun a => match a with Some e => parsed_shape e | None => false end)
          Args = true.

(** Whatever the action returns satisfies [P]. *)
Definition post {L : Lexer} {A} (P : A -> Prop) (m : @Parse.M L A) : Prop :=
  forall s r s', m s = Some (r, s') -> P r.

Definition shapes (L : Lexer) (n : nat) : Prop :=
  post shape_opt (@Parse.ParseExpression L n) /\
  post shape_opt (@Parse.ParsePrimary L n) /\
  post shape_opt (@Parse.ParseParenExpr L n) /\
  post shape_opt (@Parse.ParseIdentifierExpr L n) /\
  (forall Id Args, shape_args Args ->
     post shape_opt (@Parse.ParseArgs L n Id Args)) /\
  (forall E LHS, 0 <= E -> shape_opt LHS ->
     post shape_opt (@Parse.ParseBinOpRHS L n E LHS)).

(** *** Lowering steps

    Every pointer in the tree is non-null. *)
Fixpoint no_null (e : ExprAST) : bool :=
  match e with
  | NumberExprAST _ => true
  | VariableExprAST _ => true
  | BinaryExprAST _ LHS RHS =>
      match LHS with Some l => no_null l | None => false end &&
      match RHS with Some r => no_null r | None => false end
  | CallExprAST _ Args =>
      forallb (fun a => match a with Some e => no_null e | None => false end) Args
  end.

(** The value a name stands for in [NamedValues], a null entry counting as
    none. *)
Definition bound (s : CG.state) (x : string) : option CG.Value :=
  match CG.NamedValues s !! x with
  | Some V => V
  | None => None
  end.

(** What a lowering step from [s] to [s'] with result [r] may do: the
    module, the counters and the insertion point stay; instructions are
    added; names keep their values; lines are printed exactly when the
    result is null. *)
Definition lowering_step (s : CG.state) (r : option CG.Value) (s' : CG.state)
  : Prop :=
  same_module s s' /\
  (exists Vs, CG.built s' = (CG.built s ++ Vs)%list) /\
  (forall x, bound s' x = bound s x) /\
  (exists msgs, CG.out s' = (CG.out s ++ msgs)%list /\ (r = None <-> msgs <> [])).

(** *** The driver

    [main] on a source text. *)
Definition run (fuel : nat) (input : string) : @Driver.result stdin_lexer Z :=
  @Driver.main stdin_lexer fuel (Lex.init input).

(** A handler of the driver ends on [s]: from the same fuel on it has one
    outcome, which is undefined behaviour or a return with less left to
    read. *)
Definition handler_ends (h : nat -> @Driver.M stdin_lexer unit)
    (s : @Driver.state stdin_lexer) : Prop :=
  exists o,
    (forall fuel, (4 * Parse_remaining (Driver.parser s) + 3 <= fuel)%nat ->
       h fuel s = o) /\
    (o = Driver.Undefined \/
     exists s', o = Driver.Done tt s' /\ Parse_wf (Driver.parser s') /\
       (Parse_remaining (Driver.parser s') <
        Parse_remaining (Driver.parser s))%nat).

(** The parser state [p'] reads the same input as [p]: only what was
    printed differs. *)
Definition same_input (p p' : @Parse.state stdin_lexer) : Prop :=
  Parse.CurTok p' = Parse.CurTok p /\ Parse.lexer p' = Parse.lexer p.

(** The state in which [main] returns on the text def f(x) x; *)
Definition returned_def_f : @Driver.state stdin_lexer :=
  Driver.mk
    (@Parse.mk stdin_lexer tok_eof (Lex.mk EOF "" "x" double_zero)
       ["Jlang>"; "Jlang>"; "Parsed a function definition."; "";
        "Jlang>"; "Jlang>"])
    (CG.mk [CG.mkFunction 0 "f" ["x"] 1] 0 1
           (<["x" := Some (CG.Argument 0 0)]> ∅) (Some (0%nat, 0%nat))
           [CG.Ret (CG.Argument 0 0)] ["Jlang>"; "Jlang>"])
    [Driver.print_function 0;
     Driver.print_module [CG.mkFunction 0 "f" ["x"] 1]].

(** *** Two lexers that give the same tokens

    [lex_sim n l1 l2]: for [n] calls of [gettok], the lexers [l1] and [l2]
    return the same tokens and show the same [IdentifierStr] and
    [NumVal]. *)
Fixpoint lex_sim {L1 L2 : Lexer} (n : nat) (l1 : lex_state L1)
    (l2 : lex_state L2) : Prop :=
  lex_IdentifierStr L1 l1 = lex_IdentifierStr L2 l2 /\
  lex_NumVal L1 l1 = lex_NumVal L2 l2 /\
  match n with
  | O => True
  | S n =>
      fst (lex_gettok L1 l1) = fst (lex_gettok L2 l2) /\
      lex_sim n (snd (lex_gettok L1 l1)) (snd (lex_gettok L2 l2))
  end.

(** Parser states over two lexers that cannot be told apart. *)
Definition sim_state {L1 L2 : Lexer} (s1 : @Parse.state L1)
    (s2 : @Parse.state L2) : Prop :=
  Parse.CurTok s1 = Parse.CurTok s2 /\ Parse.out s1 = Parse.out s2 /\
  forall n, lex_sim n (Parse.lexer s1) (Parse.lexer s2).

(** Two parsing actions that, from such states, run out of fuel together
    or return the same result in such states. *)
Definition sim {L1 L2 : Lexer} {A} (m1 : @Parse.M L1 A) (m2 : @Parse.M L2 A)
  : Prop :=
  forall s1 s2, sim_state s1 s2 ->
    match m1 s1, m2 s2 with
    | Some (r1, s1'), Some (r2, s2') => r1 = r2 /\ sim_state s1' s2'
    | None, None => True
    | _, _ => False
    end.

Definition sim_all (L1 L2 : Lexer) (n : nat) : Prop :=
  sim (@Parse.ParseExpression L1 n) (@Parse.ParseExpression L2 n) /\
  sim (@Parse.ParsePrimary L1 n) (@Parse.ParsePrimary L2 n) /\
  sim (@Parse.ParseParenExpr L1 n) (@Parse.ParseParenExpr L2 n) /\
  sim (@Parse.ParseIdentifierExpr L1 n) (@Parse.ParseIdentifierExpr L2 n) /\
  (forall Id Args,
     sim (@Parse.ParseArgs L1 n Id Args) (@Parse.ParseArgs L2 n Id Args)) /\
  (forall E LHS,
     sim (@Parse.ParseBinOpRHS L1 n E LHS) (@Parse.ParseBinOpRHS L2 n E LHS)).

(** The token for what [gettok] has returned, [st] being the state it
    left.  The lexer never returns [tok_number]. *)
Definition token_of (t : Z) (st : Lex.state) : token :=
  if t =? tok_def then TDef
  else if t =? tok_extern then TExtern
  else if t =? tok_identifier then TIdentifier (Lex.IdentifierStr st)
  else TChar (char_of_int t).

(** The tokens [gettok] returns before [tok_eof], at most [n] of them. *)
Fixpoint tokenize (n : nat) (st : Lex.state) : list token :=
  match n with
  | O => []
  | S n =>
      let '(t, st') := Lex.gettok st in
      if t =? tok_eof then [] else token_of t st' :: tokenize n st'
  end.

(** The tokens of a source text. *)
Definition tokens_of (input : string) : list token :=
  tokenize (S (String.length input)) (Lex.init input).

(** What a caller sees of a parse: the result and what was printed. *)
Definition observed {L : Lexer} {A} (r : option (A * @Parse.state L))
  : option (A * list string) :=
  match r with
  | Some (a, s) => Some (a, Parse.out s)
  | None => None
  end.

(** Driver states over two lexers that cannot be told apart. *)
Definition sim_driver {L1 L2 : Lexer} (s1 : @Driver.state L1)
    (s2 : @Driver.state L2) : Prop :=
  sim_state (Driver.parser s1) (Driver.parser s2) /\
  Driver.lowering s1 = Driver.lowering s2 /\
  Driver.errs s1 = Driver.errs s2.

(** Two driver actions that, from such states, end in the same way. *)
Definition dsim {L1 L2 : Lexer} {A} (m1 : @Driver.M L1 A) (m2 : @Driver.M L2 A)
  : Prop :=
  forall s1 s2, sim_driver s1 s2 ->
    match m1 s1, m2 s2 with
    | Driver.Done r1 s1', Driver.Done r2 s2' => r1 = r2 /\ sim_driver s1' s2'
    | Driver.Undefined, Driver.Undefined => True
    | Driver.OutOfFuel, Driver.OutOfFuel => True
    | _, _ => False
    end.

(** What is seen of a run of the driver: how it ends and, when it returns,
    the value, the two output streams and the module. *)
Inductive outcome (A : Type) : Type :=
| Returned (a : A) (stdout : list string) (errs : list Driver.dump)
           (lowering : CG.state)
| Crashed
| Unfinished.

Arguments Returned {A} a stdout errs lowering.
Arguments Crashed {A}.
Arguments Unfinished {A}.

Definition outcome_of {L : Lexer} {A} (r : @Driver.result L A) : outcome A :=
  match r with
  | Driver.Done a s =>
      Returned a (Driver.stdout s) (Driver.errs s) (Driver.lowering s)
  | Driver.Undefined => Crashed
  | Driver.OutOfFuel => Unfinished
  end.

(** * Properties *)

(** ** The lexer *)

Section LexerFacts.

Lemma number_cond_false (c : Z) : Lex.number_cond c = false.
Proof.
  unfold Lex.number_cond.
  destruct (negb (c =? 0) || (c =? int_of_char "."))%bool; reflexivity.
Qed.

Lemma int_of_char_range (c : ascii) : 0 <= int_of_char c <= 255.
Proof.
  unfold int_of_char.
  pose proof (N_ascii_bounded c) as H. lia.
Qed.

Lemma skip_space_length LastChar stdin :
  (String.length (snd (Lex.skip_space LastChar stdin)) <= String.length stdin)%nat.
Proof.
  revert LastChar; induction stdin as [|c rest IH]; intros LastChar; simpl.
  - destruct (isspace LastChar); simpl; lia.
  - destruct (isspace LastChar); simpl; [|lia].
    specialize (IH (int_of_char c)). lia.
Qed.

Lemma skip_space_range LastChar stdin :
  -1 <= LastChar <= 255 ->
  -1 <= fst (Lex.skip_space LastChar stdin) <= 255.
Proof.
  revert LastChar; induction stdin as [|c rest IH]; intros LastChar Hr; simpl.
  - destruct (isspace LastChar); simpl; [unfold EOF|]; lia.
  - destruct (isspace LastChar); simpl; [|lia].
    apply IH. pose proof (int_of_char_range c). lia.
Qed.

Lemma skip_space_EOF stdin : Lex.skip_space EOF stdin = (EOF, stdin).
Proof. destruct stdin; reflexivity. Qed.

Lemma skip_comment_length stdin :
  fst (Lex.skip_comment stdin) <> EOF ->
  (String.length (snd (Lex.skip_comment stdin)) < String.length stdin)%nat.
Proof.
  induction stdin as [|c rest IH]; simpl.
  - intros H; contradiction.
  - destruct ((int_of_char c =? 10) || (int_of_char c =? 13))%bool; simpl.
    + lia.
    + intros H. specialize (IH H). lia.
Qed.

Lemma skip_comment_range stdin :
  -1 <= fst (Lex.skip_comment stdin) <= 255.
Proof.
  induction stdin as [|c rest IH]; simpl.
  - unfold EOF; lia.
  - destruct ((int_of_char c =? 10) || (int_of_char c =? 13))%bool; simpl.
    + pose proof (int_of_char_range c); lia.
    + exact IH.
Qed.

Lemma read_alnum_range Id stdin :
  -1 <= snd (fst (Lex.read_alnum Id stdin)) <= 255.
Proof.
  revert Id; induction stdin as [|c rest IH]; intros Id; simpl.
  - unfold EOF; lia.
  - destruct (isalnum (int_of_char c)); simpl.
    + apply IH.
    + pose proof (int_of_char_range c); lia.
Qed.

(** [gettok] terminates: the unread input is enough fuel. *)
Lemma gettok_rec_total fuel st :
  (String.length (Lex.stdin st) <= fuel)%nat ->
  exists r, Lex.gettok_rec fuel st = Some r.
Proof.
  revert st; induction fuel as [|fuel IH]; intros [lc inp id nv] Hlen;
    simpl in *;
    pose proof (skip_space_length lc inp) as Hs;
    destruct (Lex.skip_space lc inp) as [lc1 inp1]; simpl in Hs;
    (destruct (isalpha lc1);
     [ destruct (Lex.read_alnum _ inp1) as [[Id lc2] inp2];
       repeat (destruct (String.eqb _ _)); eexists; reflexivity | ]);
    rewrite number_cond_false;
    (destruct (lc1 =? int_of_char "#"); [|eexists; reflexivity]);
    pose proof (skip_comment_length inp1) as Hc;
    destruct (Lex.skip_comment inp1) as [lc2 inp2]; simpl in Hc;
    (destruct (lc2 =? EOF) eqn:E; simpl; [eexists; reflexivity|]);
    apply Z.eqb_neq in E; specialize (Hc E).
  - lia.
  - apply IH. simpl. lia.
Qed.

Lemma gettok_unfold st :
  Lex.gettok_rec (String.length (Lex.stdin st)) st = Some (Lex.gettok st).
Proof.
  unfold Lex.gettok.
  destruct (gettok_rec_total (String.length (Lex.stdin st)) st) as [r Hr]; [lia|].
  rewrite Hr; reflexivity.
Qed.

Lemma char_of_int_of_char (c : ascii) : char_of_int (int_of_char c) = c.
Proof.
  unfold char_of_int, int_of_char.
  pose proof (N_ascii_bounded c) as H.
  rewrite Z.mod_small by lia.
  rewrite N2Z.id. apply ascii_N_embedding.
Qed.

Lemma int_of_char_of_int (i : Z) : 0 <= i <= 255 -> int_of_char (char_of_int i) = i.
Proof.
  intros H. unfold char_of_int, int_of_char.
  rewrite Z.mod_small by lia.
  rewrite N_ascii_embedding by lia.
  apply Z2N.id; lia.
Qed.

Lemma all_alnum_app s1 s2 :
  all_alnum (s1 +:+ s2) = (all_alnum s1 && all_alnum s2)%bool.
Proof.
  induction s1 as [|c s1 IH]; simpl; [reflexivity|].
  rewrite IH. apply andb_assoc.
Qed.

Lemma read_alnum_all_alnum Id stdin :
  all_alnum Id = true ->
  all_alnum (fst (fst (Lex.read_alnum Id stdin))) = true.
Proof.
  revert Id; induction stdin as [|c rest IH]; intros Id HId; simpl; [exact HId|].
  destruct (isalnum (int_of_char c)) eqn:E; simpl; [|exact HId].
  apply IH. unfold Lex.push_back.
  rewrite all_alnum_app, HId. simpl.
  rewrite char_of_int_of_char, E. reflexivity.
Qed.

Lemma gettok_tail_result st lc inp :
  -1 <= lc <= 255 ->
  let r := Lex.gettok_tail lc inp (Lex.IdentifierStr st) (Lex.NumVal st) in
  Lex_wf (snd r) /\ gettok_result st (fst r) (snd r).
Proof.
  intros Hr. unfold Lex.gettok_tail.
  destruct (lc =? EOF) eqn:E; simpl.
  - apply Z.eqb_eq in E. split; [exact Hr|]. now constructor.
  - apply Z.eqb_neq in E. unfold EOF in E.
    destruct inp as [|c rest]; simpl; (split; [unfold Lex_wf; simpl|]).
    + unfold EOF; lia.
    + apply gettok_char; simpl; [lia|reflexivity|reflexivity].
    + pose proof (int_of_char_range c); lia.
    + apply gettok_char; simpl; [lia|reflexivity|reflexivity].
Qed.

Lemma isalpha_range c : isalpha c = true -> 0 <= c <= 255.
Proof. unfold isalpha, isupper, islower. lia. Qed.

Lemma gettok_rec_result fuel st t st' :
  Lex_wf st ->
  Lex.gettok_rec fuel st = Some (t, st') ->
  Lex_wf st' /\ gettok_result st t st'.
Proof.
  revert st; induction fuel as [|fuel IH]; intros [lc inp id nv] Hwf;
    unfold Lex_wf in Hwf; simpl in *;
    pose proof (skip_space_range lc inp Hwf) as Hs;
    destruct (Lex.skip_space lc inp) as [lc1 inp1]; simpl in Hs;
    (destruct (isalpha lc1) eqn:Ea;
     [ pose proof (read_alnum_range (String (char_of_int lc1) "") inp1) as Hr;
       pose proof (read_alnum_all_alnum (String (char_of_int lc1) "") inp1) as Hal;
       destruct (Lex.read_alnum _ inp1) as [[Id lc2] inp2]; simpl in Hr, Hal;
       assert (all_alnum Id = true) as HId
         by (apply Hal; simpl; rewrite int_of_char_of_int by (apply isalpha_range; exact Ea);
             unfold isalnum; rewrite Ea; reflexivity);
       intros H;
       repeat (destruct (String.eqb _ _)); inversion H; subst; clear H;
       (split; [exact Hr|apply gettok_word; simpl; auto]) | ]);
    rewrite number_cond_false;
    (destruct (lc1 =? int_of_char "#");
     [|intros H; inversion H as [H1];
       pose proof (gettok_tail_result (Lex.mk lc inp id nv) lc1 inp1 Hs) as Ht;
       simpl in Ht; rewrite H1 in Ht; exact Ht]);
    pose proof (skip_comment_range inp1) as Hc;
    destruct (Lex.skip_comment inp1) as [lc2 inp2]; simpl in Hc;
    (destruct (lc2 =? EOF) eqn:E; simpl;
     [intros H; inversion H as [H1];
       pose proof (gettok_tail_result (Lex.mk lc inp id nv) lc2 inp2 Hc) as Ht;
       simpl in Ht; rewrite H1 in Ht; exact Ht|]).
  - discriminate.
  - intros H. apply IH in H; [|exact Hc].
    destruct H as [Hwf' Hres]. split; [exact Hwf'|].
    inversion Hres; subst; simpl in *; [apply gettok_eof|apply gettok_word|apply gettok_char]; auto.
Qed.

Lemma gettok_result_spec st :
  Lex_wf st ->
  Lex_wf (snd (Lex.gettok st)) /\
  gettok_result st (fst (Lex.gettok st)) (snd (Lex.gettok st)).
Proof.
  intros Hwf. pose proof (gettok_unfold st) as H.
  destruct (Lex.gettok st) as [t st']. simpl.
  eapply gettok_rec_result; eauto.
Qed.

Lemma gettok_at_EOF st :
  Lex.LastChar st = EOF -> Lex.gettok st = (tok_eof, st).
Proof.
  intros HE. pose proof (gettok_unfold st) as H.
  remember (Lex.gettok st) as g eqn:Hg. clear Hg.
  destruct st as [lc inp id nv]; simpl in *; subst lc.
  destruct (String.length inp); simpl in H; rewrite skip_space_EOF in H;
    simpl in H; unfold Lex.gettok_tail in H; simpl in H; congruence.
Qed.

Lemma gettok_rec_eof fuel st st' :
  Lex.gettok_rec fuel st = Some (tok_eof, st') -> Lex.LastChar st' = EOF.
Proof.
  revert st; induction fuel as [|fuel IH]; intros [lc inp id nv]; simpl;
    destruct (Lex.skip_space lc inp) as [lc1 inp1];
    (destruct (isalpha lc1);
     [ destruct (Lex.read_alnum _ inp1) as [[Id lc2] inp2];
       repeat (destruct (String.eqb _ _)); discriminate | ]);
    rewrite number_cond_false;
    assert (forall l i, Some (Lex.gettok_tail l i id nv) = Some (tok_eof, st') ->
                        Lex.LastChar st' = EOF) as Htail
      by (intros l i; unfold Lex.gettok_tail;
          destruct (l =? EOF) eqn:E;
          [ apply Z.eqb_eq in E; intros H; inversion H; exact E
          | apply Z.eqb_neq in E; unfold EOF, tok_eof in *;
            destruct i; intros H; inversion H; congruence ]);
    (destruct (lc1 =? int_of_char "#"); [|apply Htail]);
    destruct (Lex.skip_comment inp1) as [lc2 inp2];
    (destruct (lc2 =? EOF); simpl; [apply Htail|]).
  - discriminate.
  - apply IH.
Qed.

Lemma Lex_tokens_at_EOF n st :
  Lex.LastChar st = EOF -> Lex_tokens n st = repeat tok_eof n.
Proof.
  intros HE. induction n as [|n IH]; simpl; [reflexivity|].
  rewrite (gettok_at_EOF st HE). rewrite IH. reflexivity.
Qed.

Lemma Lex_tokens_wf n st :
  Lex_wf st -> Forall (fun t => -4 <= t <= 255) (Lex_tokens n st).
Proof.
  revert st; induction n as [|n IH]; intros st Hwf; simpl; [constructor|].
  destruct (gettok_result_spec st Hwf) as [Hwf' Hres].
  destruct (Lex.gettok st) as [t st']; simpl in *.
  constructor; [|apply IH; exact Hwf'].
  inversion Hres; subst; unfold tok_eof, tok_def, tok_extern, tok_identifier in *;
    intuition lia.
Qed.

(** *** Progress: every token but [tok_eof] consumes input *)

Lemma skip_space_remaining lc inp :
  (Lex_remaining_of (fst (Lex.skip_space lc inp)) (snd (Lex.skip_space lc inp))
   <= Lex_remaining_of lc inp)%nat.
Proof.
  revert lc; induction inp as [|c rest IH]; intros lc; simpl.
  - destruct (isspace lc) eqn:E; simpl; [|lia].
    unfold Lex_remaining_of at 1. simpl. lia.
  - destruct (isspace lc) eqn:E; simpl; [|lia].
    specialize (IH (int_of_char c)).
    etransitivity; [exact IH|].
    unfold Lex_remaining_of.
    assert ((lc =? EOF) = false) as ->
      by (apply Z.eqb_neq; intros ->; discriminate E).
    destruct (int_of_char c =? EOF); simpl; lia.
Qed.

Lemma read_alnum_remaining Id inp :
  (Lex_remaining_of (snd (fst (Lex.read_alnum Id inp))) (snd (Lex.read_alnum Id inp))
   <= String.length inp)%nat.
Proof.
  revert Id; induction inp as [|c rest IH]; intros Id; simpl.
  - unfold Lex_remaining_of. simpl. lia.
  - destruct (isalnum (int_of_char c)); simpl.
    + specialize (IH (Lex.push_back Id (int_of_char c))). lia.
    + unfold Lex_remaining_of. destruct (int_of_char c =? EOF); lia.
Qed.

Lemma gettok_tail_remaining lc inp id nv :
  fst (Lex.gettok_tail lc inp id nv) <> tok_eof ->
  (Lex_remaining (snd (Lex.gettok_tail lc inp id nv)) < Lex_remaining_of lc inp)%nat.
Proof.
  unfold Lex.gettok_tail, Lex_remaining, Lex_remaining_of.
  destruct (lc =? EOF) eqn:E; simpl; [intros H; contradiction H; reflexivity|].
  intros _. destruct inp as [|c rest]; simpl; [lia|].
  destruct (int_of_char c =? EOF); lia.
Qed.

Lemma skip_comment_remaining inp :
  (Lex_remaining_of (fst (Lex.skip_comment inp)) (snd (Lex.skip_comment inp))
   <= String.length inp)%nat.
Proof.
  induction inp as [|c rest IH]; simpl.
  - unfold Lex_remaining_of. simpl. lia.
  - destruct ((int_of_char c =? 10) || (int_of_char c =? 13))%bool; simpl.
    + unfold Lex_remaining_of. destruct (int_of_char c =? EOF); lia.
    + lia.
Qed.

Lemma gettok_rec_progress fuel st t st' :
  Lex.gettok_rec fuel st = Some (t, st') ->
  t <> tok_eof ->
  (Lex_remaining st' < Lex_remaining st)%nat.
Proof.
  revert st; induction fuel as [|fuel IH]; intros [lc inp id nv];
    unfold Lex_remaining at 2; simpl;
    pose proof (skip_space_remaining lc inp) as Hs;
    destruct (Lex.skip_space lc inp) as [lc1 inp1] eqn:Ess; simpl in Hs;
    (destruct (isalpha lc1) eqn:Ea;
     [ pose proof (read_alnum_remaining (String (char_of_int lc1) "") inp1) as Hr;
       destruct (Lex.read_alnum _ inp1) as [[Id lc2] inp2]; simpl in Hr;
       assert (Lex_remaining_of lc1 inp1 = S (String.length inp1)) as Hl1
         by (unfold Lex_remaining_of;
             destruct (lc1 =? EOF) eqn:E1; [|reflexivity];
             apply Z.eqb_eq in E1; subst lc1; discriminate Ea);
       intros H Hne;
       repeat (destruct (String.eqb _ _)); inversion H; subst;
       unfold Lex_remaining; simpl; lia | ]);
    rewrite number_cond_false;
    assert (forall l i, (Lex_remaining_of l i <= Lex_remaining_of lc1 inp1)%nat ->
              Some (Lex.gettok_tail l i id nv) = Some (t, st') -> t <> tok_eof ->
              (Lex_remaining st' < Lex_remaining_of lc inp)%nat) as Htail
      by (intros l i Hle H Hne; inversion H as [H1];
          pose proof (gettok_tail_remaining l i id nv) as Ht;
          rewrite H1 in Ht; simpl in Ht; specialize (Ht Hne); lia);
    (destruct (lc1 =? int_of_char "#") eqn:Eh; [|apply Htail; lia]);
    pose proof (skip_comment_remaining inp1) as Hc;
    destruct (Lex.skip_comment inp1) as [lc2 inp2]; simpl in Hc;
    assert (Lex_remaining_of lc1 inp1 = S (String.length inp1)) as Hl1
      by (unfold Lex_remaining_of; apply Z.eqb_eq in Eh; subst lc1; reflexivity);
    (destruct (lc2 =? EOF) eqn:E; simpl; [apply Htail; lia|]).
  - discriminate.
  - intros H Hne. apply IH in H; [|exact Hne].
    unfold Lex_remaining at 2 in H. simpl in H. lia.
Qed.

Lemma gettok_progress st :
  fst (Lex.gettok st) <> tok_eof ->
  (Lex_remaining (snd (Lex.gettok st)) < Lex_remaining st)%nat.
Proof.
  pose proof (gettok_unfold st) as H.
  destruct (Lex.gettok st) as [t st']. simpl.
  eapply gettok_rec_progress; eauto.
Qed.

Lemma Lex_after_at_EOF n st :
  Lex.LastChar st = EOF -> Lex_after n st = st.
Proof.
  intros HE. induction n as [|n IH]; simpl; [reflexivity|].
  rewrite (gettok_at_EOF st HE). simpl. exact IH.
Qed.

(** From any state the lexer reaches the end of input: after as many calls
    as characters remain, the next call yields [tok_eof]. *)
Lemma gettok_reaches_eof n st :
  (Lex_remaining st <= n)%nat ->
  fst (Lex.gettok (Lex_after n st)) = tok_eof.
Proof.
  revert st; induction n as [|n IH]; intros st Hn; simpl.
  - unfold Lex_remaining, Lex_remaining_of in Hn.
    destruct (Lex.LastChar st =? EOF) eqn:E; [|lia].
    apply Z.eqb_eq in E. rewrite (gettok_at_EOF st E). reflexivity.
  - destruct (Z.eq_dec (fst (Lex.gettok st)) tok_eof) as [He|Hne].
    + assert (Lex.LastChar (snd (Lex.gettok st)) = EOF) as HE.
      { pose proof (gettok_unfold st) as Hu.
        destruct (Lex.gettok st) as [t st']; simpl in *; subst t.
        eapply gettok_rec_eof; eauto. }
      rewrite (Lex_after_at_EOF n _ HE). rewrite (gettok_at_EOF _ HE). reflexivity.
    + apply IH. pose proof (gettok_progress st Hne). lia.
Qed.

Lemma gettok_reaches_eof_init (input : string) :
  fst (Lex.gettok (Lex_after (S (String.length input)) (Lex.init input))) = tok_eof.
Proof. apply gettok_reaches_eof. unfold Lex_remaining, Lex_remaining_of. simpl. lia. Qed.

(** ** C2 — the number branch of [gettok] *)

Lemma Lex_after_NumVal n st :
  Lex_wf st -> Lex.NumVal (Lex_after n st) = Lex.NumVal st.
Proof.
  revert st; induction n as [|n IH]; intros st Hwf; simpl; [reflexivity|].
  destruct (gettok_result_spec st Hwf) as [Hwf' Hres].
  rewrite IH by exact Hwf'.
  inversion Hres; assumption.
Qed.

Lemma Lex_init_wf (input : string) : Lex_wf (Lex.init input).
Proof. unfold Lex_wf; simpl; change (int_of_char " ") with 32; lia. Qed.

(** C2 (the code departs from the claim).  The claim: a numeral is lexed as
    one [tok_number] carrying its value.  In the code the test of the number
    branch is [isdigit] of a truth value, which never holds: whatever the
    input, no call of [gettok] yields [tok_number] and [NumVal] keeps its
    initial zero; the numeral 1 comes out as the character token 49. *)
Theorem gettok_never_yields_tok_number :
  (forall (input : string) (n : nat),
     ~ In tok_number (Lex_tokens n (Lex.init input))) /\
  (forall (input : string) (n : nat),
     Lex.NumVal (Lex_after n (Lex.init input)) = double_zero) /\
  Lex.gettok (Lex.init "1") =
    (int_of_char "1", Lex.mk EOF "" "" double_zero).
Proof.
  split; [|split; [|reflexivity]].
  - intros input n Hin.
    pose proof (Lex_tokens_wf n _ (Lex_init_wf input)) as HF.
    rewrite List.Forall_forall in HF. apply HF in Hin.
    unfold tok_number in Hin. lia.
  - intros input n. apply (Lex_after_NumVal n _ (Lex_init_wf input)).
Qed.

(** The digits and the point of a longer numeral are separate tokens. *)
Example gettok_numeral_3_14 :
  Lex_tokens 5 (Lex.init "3.14") =
    [int_of_char "3"; int_of_char "."; int_of_char "1"; int_of_char "4"; tok_eof].
Proof. reflexivity. Qed.

(** ** C9 — end of input *)

(** C9.  Once [getchar] has returned [EOF], [gettok] yields [tok_eof] and
    leaves the lexer as it is; and after any call that yielded [tok_eof],
    every later call yields [tok_eof] too. *)
Theorem gettok_eof_absorbing (st : Lex.state) :
  (Lex.LastChar st = EOF -> Lex.gettok st = (tok_eof, st)) /\
  (forall st', Lex.gettok st = (tok_eof, st') ->
     forall n, Lex_tokens n st' = repeat tok_eof n).
Proof.
  split; [apply gettok_at_EOF|].
  intros st' H n. apply Lex_tokens_at_EOF.
  pose proof (gettok_unfold st) as Hu. rewrite H in Hu.
  eapply gettok_rec_eof; eauto.
Qed.

Lemma gettok_eof_absorbing_witness :
  Lex.gettok (Lex.init "a") = (tok_identifier, Lex.mk EOF "" "a" double_zero) /\
  Lex.gettok (Lex.mk EOF "" "a" double_zero) = (tok_eof, Lex.mk EOF "" "a" double_zero) /\
  Lex_tokens 3 (Lex.mk EOF "" "a" double_zero) = [tok_eof; tok_eof; tok_eof].
Proof.
  split; [reflexivity|]. split; [reflexivity|].
  exact (proj2 (gettok_eof_absorbing (Lex.mk EOF "" "a" double_zero))
               (Lex.mk EOF "" "a" double_zero) eq_refl 3%nat).
Defined.

End LexerFacts.

(** ** The parser *)

Section ParserFacts.

Import Parse.

Lemma TokPrecedence_operator (op : ascii) :
  0 < TokPrecedence (int_of_char op) ->
  op = "<"%char \/ op = "+"%char \/ op = "-"%char \/ op = "*"%char.
Proof.
  destruct op as [[] [] [] [] [] [] [] []]; intros H; vm_compute in H;
    try discriminate H; auto.
Qed.

(** ** C1 — operator precedence *)

(** C1 (the code departs from the claim).  The claim: when a
    tighter-binding operator follows a looser one, as in 1+2*3, the tree is
    1+(2*3).  [ParseBinOpRHS] hands the moved [LHS], not [RHS], to its
    recursive call: for numbers a, b, c and operators with
    prec(op1) < prec(op2), the tokens a op1 b op2 c parse to a node op1
    whose left child is null and whose right child is a op2 c; the operand
    b is lost.  The same happens on the source text a+b*c. *)
Theorem ParseBinOpRHS_tighter_operator_drops_operand
    (a b c : double) (op1 op2 : ascii) :
  0 < TokPrecedence (int_of_char op1) < TokPrecedence (int_of_char op2) ->
  fst <$> ParseExpression 6
            (parse_tokens [TNumber a; TChar op1; TNumber b; TChar op2; TNumber c])
  = Some (Some (BinaryExprAST op1 None
                  (Some (BinaryExprAST op2 (Some (NumberExprAST a))
                                           (Some (NumberExprAST c)))))) /\
  fst <$> ParseExpression 6 (parse_text "a+b*c")
  = Some (Some (BinaryExprAST "+" None
                  (Some (BinaryExprAST "*" (Some (VariableExprAST "a"))
                                           (Some (VariableExprAST "c")))))).
Proof.
  intros [H1 H2]. split; [|vm_compute; reflexivity].
  assert (0 < TokPrecedence (int_of_char op2)) as H3 by lia.
  apply TokPrecedence_operator in H1, H3.
  destruct H1 as [-> | [-> | [-> | ->]]], H3 as [-> | [-> | [-> | ->]]];
    vm_compute in H2; try discriminate H2; vm_compute; reflexivity.
Qed.


Lemma ParseBinOpRHS_tighter_operator_drops_operand_witness :
  0 < TokPrecedence (int_of_char "+") < TokPrecedence (int_of_char "*") /\
  fst <$> ParseExpression 6
            (parse_tokens [TNumber (strtod "1"); TChar "+"; TNumber (strtod "2");
                           TChar "*"; TNumber (strtod "3")])
  = Some (Some (BinaryExprAST "+" None
                  (Some (BinaryExprAST "*" (Some (NumberExprAST (strtod "1")))
                                           (Some (NumberExprAST (strtod "3"))))))).
Proof.
  assert (0 < TokPrecedence (int_of_char "+") < TokPrecedence (int_of_char "*"))
    as H by (split; vm_compute; reflexivity).
  split; [exact H|].
  exact (proj1 (ParseBinOpRHS_tighter_operator_drops_operand
                  (strtod "1") (strtod "2") (strtod "3") "+" "*" H)).
Defined.

(** The other two examples of the claim come out as it says: a looser
    operator after a tighter one, and two operators of equal precedence. *)
Example parse_1_times_2_plus_3 :
  fst <$> ParseExpression 6
            (parse_tokens [TNumber (strtod "1"); TChar "*"; TNumber (strtod "2");
                           TChar "+"; TNumber (strtod "3")])
  = Some (Some (BinaryExprAST "+"
                  (Some (BinaryExprAST "*" (Some (NumberExprAST (strtod "1")))
                                           (Some (NumberExprAST (strtod "2")))))
                  (Some (NumberExprAST (strtod "3"))))).
Proof. vm_compute; reflexivity. Qed.

Example parse_1_minus_2_minus_3 :
  fst <$> ParseExpression 6
            (parse_tokens [TNumber (strtod "1"); TChar "-"; TNumber (strtod "2");
                           TChar "-"; TNumber (strtod "3")])
  = Some (Some (BinaryExprAST "-"
                  (Some (BinaryExprAST "-" (Some (NumberExprAST (strtod "1")))
                                           (Some (NumberExprAST (strtod "2")))))
                  (Some (NumberExprAST (strtod "3"))))).
Proof. vm_compute; reflexivity. Qed.

(** On the text 1+2*3 itself the digits are not numbers for the lexer
    (see C2): each one is reported as an unknown token and parsed as the
    number [NumVal]. *)
Example parse_text_1_plus_2_times_3 :
  ParseExpression 6 (parse_text "1+2*3")
  = Some (Some (BinaryExprAST "+" None
                  (Some (BinaryExprAST "*" (Some (NumberExprAST double_zero))
                                           (Some (NumberExprAST double_zero))))),
          @mk stdin_lexer tok_eof (Lex.mk EOF "" "" double_zero)
             ["Log Error: Unkown token while parsing!";
              "Log Error: Unkown token while parsing!";
              "Log Error: Unkown token while parsing!"]).
Proof. vm_compute; reflexivity. Qed.

(** ** C3 — the default case of [ParsePrimary] *)

(** C3 (the code departs from the claim).  The claim: a current token that
    is not a number, an identifier or an opening parenthesis makes
    [ParsePrimary] fail.  The [default] label prints the diagnostic but has
    no [return], so control falls into [case tok_number]: the call succeeds
    with a [NumberExprAST] holding the last [NumVal] and consumes the
    token. *)
Theorem ParsePrimary_default {L : Lexer} (fuel : nat) (s : @state L) :
  CurTok s <> tok_number ->
  CurTok s <> tok_identifier ->
  CurTok s <> int_of_char "(" ->
  ParsePrimary (S fuel) s =
    Some (Some (NumberExprAST (lex_NumVal L (lexer s))),
          mk (fst (lex_gettok L (lexer s))) (snd (lex_gettok L (lexer s)))
             (out s ++ ["Log Error: Unkown token while parsing!"])).
Proof.
  intros Hn Hi Hp. simpl. unfold bind, getCurTok, tok_is.
  apply Z.eqb_neq in Hn, Hi, Hp. rewrite Hn, Hi, Hp.
  unfold LogError, ParseNumberExpr, bind, getNumVal, getNextTok, ret. simpl.
  destruct (lex_gettok L (lexer s)); reflexivity.
Qed.


Lemma ParsePrimary_default_witness :
  CurTok (parse_text ")") <> tok_number /\
  CurTok (parse_text ")") <> tok_identifier /\
  CurTok (parse_text ")") <> int_of_char "(" /\
  ParsePrimary 1 (parse_text ")") =
    Some (Some (NumberExprAST double_zero),
          @mk stdin_lexer (fst (Lex.gettok (Lex.mk EOF "" "" double_zero)))
             (snd (Lex.gettok (Lex.mk EOF "" "" double_zero)))
             ["Log Error: Unkown token while parsing!"]).
Proof.
  assert (CurTok (parse_text ")") <> tok_number) as H1 by (vm_compute; discriminate).
  assert (CurTok (parse_text ")") <> tok_identifier) as H2 by (vm_compute; discriminate).
  assert (CurTok (parse_text ")") <> int_of_char "(") as H3 by (vm_compute; discriminate).
  repeat (split; [assumption|]).
  exact (ParsePrimary_default (L:=stdin_lexer) 0 (parse_text ")") H1 H2 H3).
Defined.

(** ** C10 — the anonymous top-level function *)

Lemma ParsePrototypeArgs_name {L : Lexer} fuel Fname ArgNames (s s' : @state L) P :
  ParsePrototypeArgs fuel Fname ArgNames s = Some (Some P, s') ->
  getName P = Fname.
Proof.
  revert ArgNames s; induction fuel as [|fuel IH]; intros ArgNames s; simpl.
  - discriminate.
  - unfold bind, getNextTok.
    destruct (lex_gettok L (lexer s)) as [t l].
    destruct (t =? tok_identifier).
    + unfold getIdentifierStr. apply IH.
    + destruct (negb (tok_is ")" t)).
      * unfold LogErrorP, LogError. intros H; inversion H.
      * unfold getNextTok, ret; simpl.
        destruct (lex_gettok L l). intros H; inversion H. reflexivity.
Qed.

Lemma ParsePrototype_name {L : Lexer} fuel (s s' : @state L) P :
  ParsePrototype fuel s = Some (Some P, s') ->
  CurTok s = tok_identifier /\ getName P = lex_IdentifierStr L (lexer s).
Proof.
  unfold ParsePrototype, bind, getCurTok.
  destruct (CurTok s =? tok_identifier) eqn:E; simpl.
  - apply Z.eqb_eq in E. unfold getIdentifierStr, getNextTok.
    destruct (lex_gettok L (lexer s)) as [t l]; simpl.
    destruct (negb (tok_is "(" t)).
    + unfold LogErrorP, LogError. intros H; inversion H.
    + intros H. apply ParsePrototypeArgs_name in H. auto.
  - unfold LogErrorP, LogError. intros H; inversion H.
Qed.

Lemma gettok_identifier_alnum (st : Lex.state) :
  Lex_wf st ->
  fst (Lex.gettok st) = tok_identifier ->
  all_alnum (Lex.IdentifierStr (snd (Lex.gettok st))) = true.
Proof.
  intros Hwf Ht. destruct (gettok_result_spec st Hwf) as [_ Hres].
  rewrite Ht in Hres. inversion Hres as [ | | t st' Hr]; subst; auto.
  unfold tok_identifier in Hr. lia.
Qed.

Lemma ParseExtern_name fuel (s s' : @state stdin_lexer) P :
  Lex_wf (lexer s) ->
  ParseExtern fuel s = Some (Some P, s') ->
  all_alnum (getName P) = true.
Proof.
  intros Hwf. unfold ParseExtern, bind, getNextTok.
  pose proof (gettok_identifier_alnum (lexer s) Hwf) as Hal.
  simpl in *. destruct (Lex.gettok (lexer s)) as [t l]; simpl in *.
  intros H. apply ParsePrototype_name in H. simpl in H.
  destruct H as [Ht ->]. auto.
Qed.

Lemma ParseDefinition_name fuel (s s' : @state stdin_lexer) Fn :
  Lex_wf (lexer s) ->
  ParseDefinition fuel s = Some (Some Fn, s') ->
  exists P, Proto Fn = Some P /\ all_alnum (getName P) = true.
Proof.
  intros Hwf. unfold ParseDefinition, bind, getNextTok.
  pose proof (gettok_identifier_alnum (lexer s) Hwf) as Hal.
  simpl in *. destruct (Lex.gettok (lexer s)) as [t l]; simpl in *.
  destruct (ParsePrototype fuel _) as [[[P|] s1]|] eqn:EP;
    unfold ret; try discriminate.
  apply ParsePrototype_name in EP. simpl in EP. destruct EP as [Ht HP].
  destruct (ParseExpression fuel s1) as [[[E|] s2]|]; try discriminate.
  intros H; inversion H; subst. simpl.
  exists P. split; [reflexivity|]. rewrite HP. auto.
Qed.

(** C10.  [ParseTopLevelExpr] returns a function exactly when
    [ParseExpression] returns an expression, and then it is the function
    named [__anon_expr] with no parameter and that expression as its body.
    A name that [ParseExtern] or [ParseDefinition] reads from the source
    text is never [__anon_expr]: it is the text of a [tok_identifier], which
    holds letters and digits only. *)
Theorem ParseTopLevelExpr_anonymous_function :
  (forall (L : Lexer) (fuel : nat) (s : @state L),
     ParseTopLevelExpr fuel s =
       match ParseExpression fuel s with
       | Some (Some E, s') =>
           Some (Some (mkFunctionAST (Some (mkPrototypeAST "__anon_expr" []))
                                     (Some E)), s')
       | Some (None, s') => Some (None, s')
       | None => None
       end) /\
  (forall fuel (s s' : @state stdin_lexer) P,
     Lex_wf (lexer s) ->
     ParseExtern fuel s = Some (Some P, s') ->
     getName P <> "__anon_expr") /\
  (forall fuel (s s' : @state stdin_lexer) Fn,
     Lex_wf (lexer s) ->
     ParseDefinition fuel s = Some (Some Fn, s') ->
     exists P, Proto Fn = Some P /\ getName P <> "__anon_expr").
Proof.
  split; [|split].
  - intros L fuel s. unfold ParseTopLevelExpr, bind.
    destruct (ParseExpression fuel s) as [[[E|] s']|]; reflexivity.
  - intros fuel s s' P Hwf H. apply ParseExtern_name in H; [|exact Hwf].
    intros Heq. rewrite Heq in H. discriminate H.
  - intros fuel s s' Fn Hwf H.
    destruct (ParseDefinition_name _ _ _ _ Hwf H) as [P [HP Hal]].
    exists P. split; [exact HP|].
    intros Heq. rewrite Heq in Hal. discriminate Hal.
Qed.

Lemma ParseTopLevelExpr_anonymous_function_witness :
  Lex_wf (lexer (parse_text "extern f(x)")) /\
  ParseExtern 3 (parse_text "extern f(x)") =
    Some (Some (mkPrototypeAST "f" ["x"]),
          @mk stdin_lexer tok_eof (Lex.mk EOF "" "x" double_zero) []) /\
  getName (mkPrototypeAST "f" ["x"]) <> "__anon_expr" /\
  ParseTopLevelExpr 3 (parse_text "x") =
    Some (Some (mkFunctionAST (Some (mkPrototypeAST "__anon_expr" []))
                              (Some (VariableExprAST "x"))),
          @mk stdin_lexer tok_eof (Lex.mk EOF "" "x" double_zero) []).
Proof.
  assert (Lex_wf (lexer (parse_text "extern f(x)"))) as Hwf
    by (vm_compute; split; discriminate).
  assert (ParseExtern 3 (parse_text "extern f(x)") =
    Some (Some (mkPrototypeAST "f" ["x"]),
          @mk stdin_lexer tok_eof (Lex.mk EOF "" "x" double_zero) [])) as HP
    by (vm_compute; reflexivity).
  split; [exact Hwf|]. split; [exact HP|]. split.
  - exact (proj1 (proj2 ParseTopLevelExpr_anonymous_function) _ _ _ _ Hwf HP).
  - rewrite (proj1 ParseTopLevelExpr_anonymous_function). vm_compute; reflexivity.
Defined.

End ParserFacts.

(** ** Termination of the parser *)

Section ParserTermination.
Import Parse.

Lemma runs_bind {A B} (m : M A) (k : A -> M B) s :
  (exists r s', m s = Some (r, s') /\
                (Parse_remaining s' <= Parse_remaining s)%nat /\
                runs (k r) s') ->
  runs (bind m k) s.
Proof.
  intros [r [s' [Hm [Hle [r' [s'' [Hk [Hwf Hle']]]]]]]].
  exists r', s''. unfold bind. rewrite Hm. split; [exact Hk|]. split; [exact Hwf|lia].
Qed.

Lemma runs_bind_pure {A B} (m : M A) (k : A -> M B) s r :
  m s = Some (r, s) -> runs (k r) s -> runs (bind m k) s.
Proof. intros Hm Hk. apply runs_bind. exists r, s. auto. Qed.

Lemma runs_ret {A} (a : A) s : Parse_wf s -> runs (ret a) s.
Proof. intros Hwf. exists a, s. auto. Qed.

Lemma runs_LogError {A} Str s : Parse_wf s -> runs (@LogError stdin_lexer A Str) s.
Proof. intros Hwf. eexists. eexists. split; [reflexivity|]. split; [exact Hwf|]. reflexivity. Qed.

Lemma getNextTok_spec s :
  Parse_wf s ->
  exists s', getNextTok s = Some (CurTok s', s') /\ Parse_wf s' /\
             (Parse_remaining s' <= Parse_remaining s)%nat /\
             (CurTok s <> tok_eof -> (Parse_remaining s' < Parse_remaining s)%nat).
Proof.
  intros Hwf. unfold getNextTok. simpl.
  pose proof (gettok_unfold (lexer s)) as Hu.
  pose proof (gettok_progress (lexer s)) as Hp.
  destruct (Lex.gettok (lexer s)) as [t l] eqn:Eg; simpl in *.
  exists (@mk stdin_lexer t l (out s)). split; [reflexivity|]. simpl.
  assert (t = tok_eof -> Lex.LastChar l = EOF) as Hwf'
    by (intros ->; eapply gettok_rec_eof; eauto).
  split; [exact Hwf'|].
  unfold Parse_remaining; simpl.
  destruct (CurTok s =? tok_eof) eqn:Ec.
  - apply Z.eqb_eq in Ec. specialize (Hwf Ec).
    rewrite (gettok_at_EOF _ Hwf) in Eg. inversion Eg; subst.
    simpl. split; [lia|]. intros H; contradiction.
  - destruct (t =? tok_eof) eqn:Et; [split; intros; lia|].
    apply Z.eqb_neq in Et. specialize (Hp Et). split; intros; lia.
Qed.

Lemma runs_getNextTok {B} (k : Z -> M B) s n :
  Parse_wf s -> (Parse_remaining s <= n)%nat ->
  (forall s', Parse_wf s' -> (Parse_remaining s' <= Parse_remaining s)%nat ->
              (CurTok s <> tok_eof -> (Parse_remaining s' < n)%nat) ->
              runs (k (CurTok s')) s') ->
  runs (bind getNextTok k) s.
Proof.
  intros Hwf Hn Hk. destruct (getNextTok_spec s Hwf) as [s' [Hg [Hwf' [Hle Hlt]]]].
  apply runs_bind. exists (CurTok s'), s'. split; [exact Hg|]. split; [exact Hle|].
  apply Hk; auto. intros Hc. specialize (Hlt Hc). lia.
Qed.

Lemma runs_ParseNumberExpr s : Parse_wf s -> runs ParseNumberExpr s.
Proof.
  intros Hwf. unfold ParseNumberExpr.
  eapply runs_bind_pure; [reflexivity|].
  eapply (runs_getNextTok _ s _ Hwf (Nat.le_refl _)).
  intros s' Hwf' _ _. apply runs_ret. exact Hwf'.
Qed.

Lemma TokPrecedence_eof : TokPrecedence tok_eof = -1.
Proof. reflexivity. Qed.

Lemma TokPrecedence_nonneg_not_eof tok : 0 <= TokPrecedence tok -> tok <> tok_eof.
Proof. intros H ->. rewrite TokPrecedence_eof in H. lia. Qed.

Lemma TokPrecedence_range tok : TokPrecedence tok = -1 \/ 0 < TokPrecedence tok.
Proof.
  unfold TokPrecedence. destruct (negb (isascii tok)); [auto|].
  destruct (_ <=? 0) eqn:E; [auto|]. right. apply Z.leb_gt in E. exact E.
Qed.

Lemma tok_is_not_eof c tok : tok_is c tok = true -> tok <> tok_eof.
Proof.
  unfold tok_is. intros H. apply Z.eqb_eq in H. subst tok.
  pose proof (int_of_char_range c). unfold tok_eof. lia.
Qed.

Lemma terminates_step n :
  (forall m, (m < n)%nat -> terminates_at m) -> terminates_at n.
Proof.
  intros IH.
  assert (forall s fuel, Parse_wf s -> (Parse_remaining s < n)%nat ->
            (4 * n - 2 <= fuel)%nat -> runs (ParsePrimary fuel) s) as IHP
    by (intros s fuel Hwf Hlt Hf;
        apply (proj1 (IH _ Hlt)); [exact Hwf|lia|lia]).
  assert (forall s fuel E LHS, Parse_wf s -> (Parse_remaining s < n)%nat ->
            0 <= E -> (4 * n - 3 <= fuel)%nat -> runs (ParseBinOpRHS fuel E LHS) s) as IHB
    by (intros s fuel E LHS Hwf Hlt HE Hf;
        apply (proj1 (proj2 (IH _ Hlt))); [exact Hwf|lia|exact HE|lia]).
  assert (forall s fuel, Parse_wf s -> (Parse_remaining s < n)%nat ->
            (4 * n - 1 <= fuel)%nat -> runs (ParseExpression fuel) s) as IHE
    by (intros s fuel Hwf Hlt Hf;
        apply (proj1 (proj2 (proj2 (IH _ Hlt)))); [exact Hwf|lia|lia]).
  assert (forall s fuel Id Args, Parse_wf s -> (Parse_remaining s < n)%nat ->
            (4 * n <= fuel)%nat -> runs (ParseArgs fuel Id Args) s) as IHA
    by (intros s fuel Id Args Hwf Hlt Hf;
        apply (proj2 (proj2 (proj2 (IH _ Hlt)))); [exact Hwf|lia|lia]).
  clear IH.
  (* ParsePrimary *)
  assert (forall s fuel, Parse_wf s -> (Parse_remaining s <= n)%nat ->
            (4 * n + 2 <= fuel)%nat -> runs (ParsePrimary fuel) s) as HP.
  { intros s fuel Hwf Hn Hf.
    destruct fuel as [|[|fuel]]; [lia|lia|]. simpl.
    eapply runs_bind_pure; [reflexivity|].
    destruct (CurTok s =? tok_number); [apply runs_ParseNumberExpr; exact Hwf|].
    destruct (CurTok s =? tok_identifier) eqn:Ei.
    - (* ParseIdentifierExpr *)
      apply Z.eqb_eq in Ei.
      eapply runs_bind_pure; [reflexivity|].
      apply (runs_getNextTok _ s n Hwf Hn). intros s1 Hwf1 _ Hlt1.
      assert (Parse_remaining s1 < n)%nat as Hn1
        by (apply Hlt1; rewrite Ei; discriminate).
      eapply runs_bind_pure; [reflexivity|].
      destruct (negb (tok_is "(" (CurTok s1))) eqn:Ep; [apply runs_ret; exact Hwf1|].
      apply negb_false_iff in Ep. apply tok_is_not_eof in Ep.
      apply (runs_getNextTok _ s1 n Hwf1 (Nat.lt_le_incl _ _ Hn1)).
      intros s2 Hwf2 Hle2 _.
      eapply runs_bind_pure; [reflexivity|].
      destruct (negb (tok_is ")" (CurTok s2))).
      + apply IHA; [exact Hwf2|lia|lia].
      + apply (runs_getNextTok _ s2 n Hwf2); [lia|].
        intros s3 Hwf3 _ _. apply runs_ret. exact Hwf3.
    - destruct (tok_is "(" (CurTok s)) eqn:Ep.
      + (* ParseParenExpr *)
        apply tok_is_not_eof in Ep.
        apply (runs_getNextTok _ s n Hwf Hn). intros s1 Hwf1 _ Hlt1.
        specialize (Hlt1 Ep).
        apply runs_bind.
        destruct (IHE s1 fuel Hwf1 Hlt1 ltac:(lia)) as [V [s2 [HV [Hwf2 Hle2]]]].
        exists V, s2. split; [exact HV|]. split; [exact Hle2|].
        destruct V as [V|]; [|apply runs_ret; exact Hwf2].
        eapply runs_bind_pure; [reflexivity|].
        destruct (negb (tok_is ")" (CurTok s2))); [apply runs_LogError; exact Hwf2|].
        apply (runs_getNextTok _ s2 n Hwf2); [lia|].
        intros s3 Hwf3 _ _. apply runs_ret. exact Hwf3.
      + (* default *)
        apply runs_bind. eexists. eexists. split; [reflexivity|].
        split; [reflexivity|]. apply runs_ParseNumberExpr. exact Hwf. }
  (* ParseBinOpRHS *)
  assert (forall s fuel ExprPrec LHS, Parse_wf s -> (Parse_remaining s <= n)%nat ->
            0 <= ExprPrec -> (4 * n + 1 <= fuel)%nat ->
            runs (ParseBinOpRHS fuel ExprPrec LHS) s) as HB.
  { intros s fuel E LHS Hwf Hn HE Hf.
    destruct fuel as [|fuel]; [lia|]. simpl.
    eapply runs_bind_pure; [reflexivity|].
    destruct (TokPrecedence (CurTok s) <? E) eqn:Ec; [apply runs_ret; exact Hwf|].
    apply Z.ltb_ge in Ec.
    assert (CurTok s <> tok_eof) as Hne
      by (apply TokPrecedence_nonneg_not_eof; lia).
    eapply runs_bind_pure; [reflexivity|].
    apply (runs_getNextTok _ s n Hwf Hn). intros s1 Hwf1 _ Hlt1.
    specialize (Hlt1 Hne).
    apply runs_bind.
    destruct (IHP s1 fuel Hwf1 Hlt1 ltac:(lia)) as [RHS [s2 [HR [Hwf2 Hle2]]]].
    exists RHS, s2. split; [exact HR|]. split; [exact Hle2|].
    destruct RHS as [RHS|]; [|apply runs_ret; exact Hwf2].
    eapply runs_bind_pure; [reflexivity|].
    destruct (TokPrecedence (CurTok s) <? TokPrecedence (CurTok s2)).
    - apply runs_bind.
      destruct (IHB s2 fuel (TokPrecedence (CurTok s) + 1) LHS Hwf2
                  ltac:(lia) ltac:(lia) ltac:(lia)) as [R' [s3 [HR' [Hwf3 Hle3]]]].
      exists R', s3. split; [exact HR'|]. split; [exact Hle3|].
      destruct R' as [R'|]; [|apply runs_ret; exact Hwf3].
      apply IHB; [exact Hwf3|lia|exact HE|lia].
    - apply IHB; [exact Hwf2|lia|exact HE|lia]. }
  (* ParseExpression *)
  assert (forall s fuel, Parse_wf s -> (Parse_remaining s <= n)%nat ->
            (4 * n + 3 <= fuel)%nat -> runs (ParseExpression fuel) s) as HE.
  { intros s fuel Hwf Hn Hf.
    destruct fuel as [|fuel]; [lia|]. simpl.
    apply runs_bind.
    destruct (HP s fuel Hwf Hn ltac:(lia)) as [LHS [s1 [HL [Hwf1 Hle1]]]].
    exists LHS, s1. split; [exact HL|]. split; [exact Hle1|].
    destruct LHS as [LHS|]; [|apply runs_ret; exact Hwf1].
    apply HB; [exact Hwf1|lia|lia|lia]. }
  repeat split; try assumption.
  (* ParseArgs *)
  intros s fuel IdName Args Hwf Hn Hf.
  destruct fuel as [|fuel]; [lia|]. simpl.
  apply runs_bind.
  destruct (HE s fuel Hwf Hn ltac:(lia)) as [Arg [s1 [HA [Hwf1 Hle1]]]].
  exists Arg, s1. split; [exact HA|]. split; [exact Hle1|].
  destruct Arg as [Arg|]; [|apply runs_ret; exact Hwf1].
  eapply runs_bind_pure; [reflexivity|].
  destruct (tok_is ")" (CurTok s1)).
  - apply (runs_getNextTok _ s1 n Hwf1); [lia|].
    intros s2 Hwf2 _ _. apply runs_ret. exact Hwf2.
  - destruct (negb (tok_is "," (CurTok s1))) eqn:Ec; [apply runs_LogError; exact Hwf1|].
    apply negb_false_iff in Ec. apply tok_is_not_eof in Ec.
    apply (runs_getNextTok _ s1 n Hwf1); [lia|].
    intros s2 Hwf2 _ Hlt2. specialize (Hlt2 Ec).
    apply IHA; [exact Hwf2|exact Hlt2|lia].
Qed.

Lemma terminates_all n : terminates_at n.
Proof.
  induction n as [n IH] using (well_founded_induction lt_wf).
  apply terminates_step. exact IH.
Qed.

Lemma ParseExpression_runs s fuel :
  Parse_wf s -> (4 * Parse_remaining s + 3 <= fuel)%nat ->
  runs (ParseExpression fuel) s.
Proof.
  intros Hwf Hf.
  apply (proj1 (proj2 (proj2 (terminates_all (Parse_remaining s))))); auto.
Qed.

Lemma ParsePrototypeArgs_runs n : forall s fuel Fname ArgNames,
  Parse_wf s -> CurTok s <> tok_eof -> (Parse_remaining s <= n)%nat ->
  (n + 1 <= fuel)%nat ->
  runs (ParsePrototypeArgs fuel Fname ArgNames) s.
Proof.
  induction n as [|n IH]; intros s fuel Fname ArgNames Hwf Hne Hn Hf.
  - unfold Parse_remaining in Hn. apply Z.eqb_neq in Hne. rewrite Hne in Hn. lia.
  - destruct fuel as [|fuel]; [lia|]. simpl.
    apply (runs_getNextTok _ s (S n) Hwf Hn). intros s1 Hwf1 _ Hlt1.
    specialize (Hlt1 Hne).
    destruct (CurTok s1 =? tok_identifier) eqn:Ei.
    + apply Z.eqb_eq in Ei.
      eapply runs_bind_pure; [reflexivity|].
      apply IH; [exact Hwf1|rewrite Ei; discriminate|lia|lia].
    + destruct (negb (tok_is ")" (CurTok s1))).
      * apply runs_LogError. exact Hwf1.
      * apply (runs_getNextTok _ s1 (S n) Hwf1); [lia|].
        intros s2 Hwf2 _ _. apply runs_ret. exact Hwf2.
Qed.

Lemma ParsePrototype_runs s fuel :
  Parse_wf s -> (Parse_remaining s + 1 <= fuel)%nat ->
  runs (ParsePrototype fuel) s.
Proof.
  intros Hwf Hf. unfold ParsePrototype.
  eapply runs_bind_pure; [reflexivity|].
  destruct (negb (CurTok s =? tok_identifier)); [apply runs_LogError; exact Hwf|].
  eapply runs_bind_pure; [reflexivity|].
  apply (runs_getNextTok _ s _ Hwf (Nat.le_refl _)). intros s1 Hwf1 Hle1 _.
  eapply runs_bind_pure; [reflexivity|].
  destruct (negb (tok_is "(" (CurTok s1))) eqn:Ep; [apply runs_LogError; exact Hwf1|].
  apply negb_false_iff in Ep. apply tok_is_not_eof in Ep.
  apply (ParsePrototypeArgs_runs (Parse_remaining s1)); auto. lia.
Qed.

(** The parser terminates on every input: with fuel proportional to the
    number of characters still to read, each entry point returns. *)
Theorem parser_terminates (s : @state stdin_lexer) (fuel : nat) :
  Parse_wf s -> (4 * Parse_remaining s + 3 <= fuel)%nat ->
  runs (ParseTopLevelExpr fuel) s /\
  runs (ParseDefinition fuel) s /\
  runs (ParseExtern fuel) s.
Proof.
  intros Hwf Hf. split; [|split].
  - unfold ParseTopLevelExpr. apply runs_bind.
    destruct (ParseExpression_runs s fuel Hwf Hf) as [E [s1 [HE [Hwf1 Hle1]]]].
    exists E, s1. split; [exact HE|]. split; [exact Hle1|].
    destruct E; apply runs_ret; exact Hwf1.
  - unfold ParseDefinition.
    apply (runs_getNextTok _ s _ Hwf (Nat.le_refl _)). intros s1 Hwf1 Hle1 _.
    apply runs_bind.
    destruct (ParsePrototype_runs s1 fuel Hwf1 ltac:(lia)) as [P [s2 [HP [Hwf2 Hle2]]]].
    exists P, s2. split; [exact HP|]. split; [exact Hle2|].
    destruct P as [P|]; [|apply runs_ret; exact Hwf2].
    apply runs_bind.
    destruct (ParseExpression_runs s2 fuel Hwf2 ltac:(lia)) as [E [s3 [HE [Hwf3 Hle3]]]].
    exists E, s3. split; [exact HE|]. split; [exact Hle3|].
    destruct E; apply runs_ret; exact Hwf3.
  - unfold ParseExtern.
    apply (runs_getNextTok _ s _ Hwf (Nat.le_refl _)). intros s1 Hwf1 Hle1 _.
    apply ParsePrototype_runs; [exact Hwf1|lia].
Qed.

Lemma parse_text_wf (input : string) :
  Parse_wf (parse_text input) /\
  (Parse_remaining (parse_text input) <= String.length input + 2)%nat.
Proof.
  unfold parse_text, start. simpl.
  pose proof (gettok_unfold (Lex.init input)) as Hu.
  pose proof (gettok_progress (Lex.init input)) as Hp.
  destruct (Lex.gettok (Lex.init input)) as [t l]; simpl in *.
  split.
  - intros Ht. simpl in Ht. subst t. eapply gettok_rec_eof; eauto.
  - unfold Parse_remaining. simpl.
    destruct (t =? tok_eof) eqn:E; [lia|].
    apply Z.eqb_neq in E. specialize (Hp E).
    unfold Lex_remaining at 2 in Hp. unfold Lex_remaining_of in Hp. simpl in Hp. lia.
Qed.

Corollary parse_text_terminates (input : string) (fuel : nat) :
  (4 * String.length input + 11 <= fuel)%nat ->
  (exists r s', ParseTopLevelExpr fuel (parse_text input) = Some (r, s')) /\
  (exists r s', ParseDefinition fuel (parse_text input) = Some (r, s')) /\
  (exists r s', ParseExtern fuel (parse_text input) = Some (r, s')).
Proof.
  intros Hf. destruct (parse_text_wf input) as [Hwf Hn].
  destruct (parser_terminates (parse_text input) fuel Hwf ltac:(lia))
    as [[r1 [s1 [H1 _]]] [[r2 [s2 [H2 _]]] [r3 [s3 [H3 _]]]]].
  repeat split; eauto.
Qed.

End ParserTermination.

(** ** The fuel does not matter *)

Section FuelIrrelevance.
Import Parse.
Context {L : Lexer}.

Lemma pref_refl {A} (m : @M L A) : pref m m.
Proof. intros s r H; exact H. Qed.

Lemma pref_bind {A B} (m1 m2 : @M L A) (k1 k2 : A -> @M L B) :
  pref m1 m2 -> (forall a, pref (k1 a) (k2 a)) -> pref (bind m1 k1) (bind m2 k2).
Proof.
  intros Hm Hk s r. unfold bind.
  destruct (m1 s) as [[a s1]|] eqn:E; [|discriminate].
  rewrite (Hm _ _ E). apply Hk.
Qed.

Lemma pref_out_of_fuel {A} (m : @M L A) : pref out_of_fuel m.
Proof. intros s r H; discriminate H. Qed.

Ltac pref_step :=
  first
    [ apply pref_refl
    | assumption
    | match goal with H : forall _ _, pref _ _ |- _ => apply H end
    | apply pref_bind; [|intros ?]
    | match goal with
      | |- pref (if ?c then _ else _) (if ?c then _ else _) => destruct c
      | |- pref (match ?x with _ => _ end) (match ?x with _ => _ end) => destruct x
      end ].

Lemma fuel_mono_le n : forall m, (n <= m)%nat -> fuel_mono L n m.
Proof.
  induction n as [|n IH]; intros m Hm.
  - repeat split; intros; apply pref_out_of_fuel.
  - destruct m as [|m]; [lia|].
    destruct (IH m ltac:(lia)) as [HE [HP [HPa [HI [HA HB]]]]].
    repeat split; intros; simpl; repeat pref_step.
Qed.

Lemma ParsePrototypeArgs_fuel n : forall m, (n <= m)%nat ->
  forall Fname ArgNames,
    pref (@ParsePrototypeArgs L n Fname ArgNames) (ParsePrototypeArgs m Fname ArgNames).
Proof.
  induction n as [|n IH]; intros m Hm Fname ArgNames.
  - apply pref_out_of_fuel.
  - destruct m as [|m]; [lia|].
    specialize (IH m ltac:(lia)). simpl. repeat pref_step.
Qed.

(** More fuel never changes a result: what the parser returns with some
    fuel it returns with any larger fuel. *)
Theorem parser_fuel_irrelevant (n m : nat) :
  (n <= m)%nat ->
  pref (@ParseExpression L n) (ParseExpression m) /\
  pref (@ParseTopLevelExpr L n) (ParseTopLevelExpr m) /\
  pref (@ParseDefinition L n) (ParseDefinition m) /\
  pref (@ParseExtern L n) (ParseExtern m).
Proof.
  intros Hnm.
  destruct (fuel_mono_le n m Hnm) as [HE _].
  pose proof (ParsePrototypeArgs_fuel n m Hnm) as HPA.
  assert (pref (@ParsePrototype L n) (ParsePrototype m)) as HP
    by (unfold ParsePrototype; repeat pref_step).
  repeat split.
  - exact HE.
  - unfold ParseTopLevelExpr. repeat pref_step.
  - unfold ParseDefinition. repeat pref_step.
  - unfold ParseExtern. repeat pref_step.
Qed.

End FuelIrrelevance.

(** ** Lowering *)

Section LoweringFacts.

Import CG.

(** Induction on expressions, with the hypothesis on every child. *)
Lemma ExprAST_induction (P : ExprAST -> Prop) :
  (forall Val, P (NumberExprAST Val)) ->
  (forall Name, P (VariableExprAST Name)) ->
  (forall Op LHS RHS,
      (forall l, LHS = Some l -> P l) ->
      (forall r, RHS = Some r -> P r) ->
      P (BinaryExprAST Op LHS RHS)) ->
  (forall Callee Args,
      (forall a, In (Some a) Args -> P a) ->
      P (CallExprAST Callee Args)) ->
  forall e, P e.
Proof.
  intros HN HV HB HC.
  fix IH 1. intros [Val | Name | Op LHS RHS | Callee Args].
  - apply HN.
  - apply HV.
  - apply HB.
    + destruct LHS as [l0|]; intros l Heq; [|discriminate Heq].
      pose proof (IH l0) as Hl. injection Heq as <-. exact Hl.
    + destruct RHS as [r0|]; intros r Heq; [|discriminate Heq].
      pose proof (IH r0) as Hr. injection Heq as <-. exact Hr.
  - apply HC. induction Args as [|[a|] Args IHArgs]; intros b Hin.
    + destruct Hin.
    + pose proof (IH a) as Ha.
      destruct Hin as [Heq | Hin]; [injection Heq as <-; exact Ha | apply IHArgs; exact Hin].
    + destruct Hin as [Heq | Hin]; [discriminate Heq | apply IHArgs; exact Hin].
Qed.

Lemma same_module_refl s : same_module s s.
Proof. repeat split. Qed.

Lemma same_module_trans s1 s2 s3 :
  same_module s1 s2 -> same_module s2 s3 -> same_module s1 s3.
Proof. unfold same_module. intuition congruence. Qed.

Lemma Create_same_module V r s s' :
  Create V s = Some (r, s') -> same_module s s'.
Proof. unfold Create. intros H; inversion H; subst. repeat split. Qed.

Lemma LogErrorV_same_module Str r s s' :
  LogErrorV Str s = Some (r, s') -> same_module s s'.
Proof. unfold LogErrorV. intros H; inversion H; subst. repeat split. Qed.

Lemma codegen_binop_same_module Op L R r s s' :
  codegen_binop Op L R s = Some (r, s') -> same_module s s'.
Proof.
  unfold codegen_binop.
  repeat match goal with
         | |- context [Ascii.eqb Op ?c] => destruct (Ascii.eqb Op c)
         end;
    try apply LogErrorV_same_module;
    unfold bind, Create, ret; intros H; inversion H; subst; repeat split.
Qed.

Lemma codegen_args_same_module (cg : ExprAST -> M (option Value)) CalleeF Args :
  (forall a, In (Some a) Args -> forall r s s', cg a s = Some (r, s') -> same_module s s') ->
  forall ArgsV r s s',
    codegen_args cg CalleeF Args ArgsV s = Some (r, s') -> same_module s s'.
Proof.
  induction Args as [|[a|] Args IH]; intros Hcg ArgsV r s s'; simpl.
  - unfold bind, Create, ret. intros H; inversion H; subst. repeat split.
  - unfold bind. destruct (cg a s) as [[[V|] s1]|] eqn:E; try discriminate.
    + intros H. eapply same_module_trans.
      * eapply Hcg; [left; reflexivity|exact E].
      * eapply IH; [|exact H]. intros b Hb. apply Hcg. right; exact Hb.
    + unfold ret. intros H; inversion H; subst.
      eapply Hcg; [left; reflexivity|exact E].
  - unfold bind, undefined. discriminate.
Qed.

Lemma codegen_same_module e :
  forall r s s', codegen e s = Some (r, s') -> same_module s s'.
Proof.
  induction e as [Val | Name | Op LHS RHS IHL IHR | Callee Args IH]
    using ExprAST_induction; intros r s s'; simpl.
  - unfold ret. intros H; inversion H; subst. apply same_module_refl.
  - unfold bind, NamedValues_at.
    destruct (NamedValues s !! Name) as [[V|]|]; unfold ret, LogErrorV; simpl;
      intros H; inversion H; subst; repeat split.
  - unfold bind. destruct LHS as [l|]; simpl; [|discriminate].
    destruct (codegen l s) as [[L s1]|] eqn:EL; [|discriminate].
    destruct RHS as [r0|]; simpl; [|discriminate].
    destruct (codegen r0 s1) as [[R s2]|] eqn:ER; [|discriminate].
    apply (IHL l eq_refl) in EL. apply (IHR r0 eq_refl) in ER.
    pose proof (same_module_trans _ _ _ EL ER) as H12.
    destruct L as [L|], R as [R|]; unfold ret;
      try (intros H; inversion H; subst; exact H12).
    intros H. apply codegen_binop_same_module in H.
    eapply same_module_trans; eauto.
  - unfold bind, getFunction.
    destruct (lookup_function Callee (TheModule s)) as [F|].
    + destruct (negb _).
      * apply LogErrorV_same_module.
      * apply codegen_args_same_module. exact IH.
    + apply LogErrorV_same_module.
Qed.


Lemma lookup_function_Some Name fs F :
  lookup_function Name fs = Some F ->
  In F fs /\ fname F = Name /\ Name <> "".
Proof.
  unfold lookup_function. destruct (decide (Name = "")) as [->|Hne]; [discriminate|].
  intros H. apply List.find_some in H. destruct H as [Hin Heq].
  apply String.eqb_eq in Heq. auto.
Qed.

Lemma lookup_function_filter_None Name fs (p : Function -> bool) :
  lookup_function Name fs = None -> lookup_function Name (List.filter p fs) = None.
Proof.
  unfold lookup_function. destruct (decide (Name = "")); [reflexivity|].
  induction fs as [|G fs IH]; simpl; [reflexivity|].
  destruct (String.eqb (fname G) Name) eqn:E; [discriminate|].
  intros H. destruct (p G); simpl; [rewrite E|]; apply IH; exact H.
Qed.

Lemma lookup_function_app_l Name fs gs F :
  lookup_function Name fs = Some F -> lookup_function Name (fs ++ gs) = Some F.
Proof.
  unfold lookup_function. destruct (decide (Name = "")); [discriminate|].
  induction fs as [|G fs IH]; simpl; [discriminate|].
  destruct (String.eqb (fname G) Name); [auto|exact IH].
Qed.

Lemma lookup_function_erased Name fs F :
  names_identify fs ->
  lookup_function Name fs = Some F ->
  lookup_function Name (List.filter (keeps_other F) fs) = None.
Proof.
  intros Hid HF. apply lookup_function_Some in HF. destruct HF as [HinF [HnF Hne]].
  unfold lookup_function. destruct (decide (Name = "")); [reflexivity|].
  destruct (List.find _ _) as [G|] eqn:E; [|reflexivity].
  apply List.find_some in E. destruct E as [HinG HnG].
  apply List.filter_In in HinG. destruct HinG as [HinG Hk].
  apply String.eqb_eq in HnG.
  assert (handle F = handle G) as Hh
    by (apply Hid; [exact HinF|exact HinG|congruence|congruence]).
  unfold keeps_other in Hk. rewrite Hh, Nat.eqb_refl in Hk. discriminate Hk.
Qed.

Lemma filter_update_function F F' fs :
  handle F' = handle F ->
  List.filter (keeps_other F) (update_function F' fs) = List.filter (keeps_other F) fs.
Proof.
  intros Hh. unfold update_function.
  induction fs as [|G fs IH]; simpl; [reflexivity|].
  rewrite IH. rewrite Hh.
  destruct (Nat.eqb (handle G) (handle F)) eqn:E.
  - unfold keeps_other. rewrite Hh, Nat.eqb_refl, E. reflexivity.
  - reflexivity.
Qed.

Lemma update_function_fresh F' fs :
  (forall G, In G fs -> handle G <> handle F') -> update_function F' fs = fs.
Proof.
  intros H. unfold update_function. induction fs as [|G fs IH]; simpl; [reflexivity|].
  rewrite IH by (intros; apply H; right; assumption).
  destruct (Nat.eqb (handle G) (handle F')) eqn:E; [|reflexivity].
  apply Nat.eqb_eq in E. exfalso. apply (H G); [left; reflexivity|exact E].
Qed.

Lemma update_function_length F' fs : length (update_function F' fs) = length fs.
Proof. unfold update_function. apply List.length_map. Qed.

Lemma bind_args_notin F names : forall i NV (x : string),
  x ∉ names -> bind_args F i names NV !! x = NV !! x.
Proof.
  induction names as [|a names IH]; intros i NV x Hx; simpl; [reflexivity|].
  apply not_elem_of_cons in Hx. destruct Hx as [Hne Hx].
  rewrite IH by exact Hx. apply lookup_insert_ne. congruence.
Qed.

Lemma bind_args_in F names : forall i NV (x : string),
  x ∈ names ->
  exists j, names !! j = Some x /\
            bind_args F i names NV !! x = Some (Some (Argument F (i + j))).
Proof.
  induction names as [|a names IH]; intros i NV x Hx; simpl.
  - inversion Hx.
  - destruct (decide (x ∈ names)) as [Hin|Hnin].
    + destruct (IH (S i) (<[a := Some (Argument F i)]> NV) x Hin) as [j [Hj Hl]].
      exists (S j). split; [exact Hj|]. rewrite Hl. do 3 f_equal. lia.
    + apply elem_of_cons in Hx. destruct Hx as [->|Hx]; [|contradiction].
      exists 0%nat. split; [reflexivity|].
      rewrite bind_args_notin by exact Hnin.
      rewrite lookup_insert_eq. do 3 f_equal. lia.
Qed.

Lemma FunctionAST_codegen_existing P body s F :
  lookup_function (getName P) (TheModule s) = Some F ->
  FunctionAST_codegen (mkFunctionAST (Some P) (Some body)) s =
    match codegen body (CG_entered s F) with
    | Some (Some RetVal, s2) => Some (Some (handle F), CG_built s2 (Ret RetVal))
    | Some (None, s2) => Some (None, CG_erased s2 F)
    | None => None
    end.
Proof.
  intros HF. unfold FunctionAST_codegen, bind, deref, getFunction; simpl.
  rewrite HF. unfold ret, enter_block, reset_NamedValues; simpl.
  fold (with_block F). fold (CG_entered s F).
  destruct (codegen body (CG_entered s F)) as [[[V|] s2]|]; reflexivity.
Qed.

Lemma PrototypeAST_codegen_creates P s :
  exists s',
    PrototypeAST_codegen P s = Some (Some (CG_created P s), s') /\
    (exists F0, handle F0 = allocated s /\
       TheModule s' = update_function (CG_created P s) (TheModule s ++ [F0])) /\
    allocated s' = S (allocated s) /\
    NamedValues s' = NamedValues s /\ InsertPoint s' = InsertPoint s /\
    built s' = built s /\ out s' = out s.
Proof.
  unfold PrototypeAST_codegen, bind, Function_Create, CG_created.
  destruct (createValueName _ _ _ _) as [Name' LU']; simpl.
  eexists. split; [reflexivity|]. simpl.
  split; [|repeat split].
  eexists. split; [|reflexivity]. reflexivity.
Qed.

Lemma FunctionAST_codegen_new P body s :
  lookup_function (getName P) (TheModule s) = None ->
  exists s1,
    PrototypeAST_codegen P s = Some (Some (CG_created P s), s1) /\
    FunctionAST_codegen (mkFunctionAST (Some P) (Some body)) s =
      match codegen body (CG_entered s1 (CG_created P s)) with
      | Some (Some RetVal, s2) =>
          Some (Some (allocated s), CG_built s2 (Ret RetVal))
      | Some (None, s2) => Some (None, CG_erased s2 (CG_created P s))
      | None => None
      end.
Proof.
  intros HF. destruct (PrototypeAST_codegen_creates P s) as [s1 [HP _]].
  exists s1. split; [exact HP|].
  unfold FunctionAST_codegen, bind, deref, getFunction; simpl.
  rewrite HF, HP. unfold ret, enter_block, reset_NamedValues; simpl.
  unfold CG_entered, CG_erased, CG_built, with_block, keeps_other; simpl.
  destruct (codegen body _) as [[[V|] s2]|]; reflexivity.
Qed.

(** [after_extern_foo] and [after_extern_foo2] are what lowering the
    prototypes leaves. *)
Example extern_foo_lowered :
  PrototypeAST_codegen (mkPrototypeAST "foo" ["a"]) init =
    Some (Some declared_foo, after_extern_foo) /\
  PrototypeAST_codegen (mkPrototypeAST "foo" ["a"; "b"]) init =
    Some (Some declared_foo2, after_extern_foo2).
Proof. split; reflexivity. Qed.

(** ** C5 — the two sides of a binary expression *)

(** C5 as stated fails: when the left-hand side fails, the state is not the
    one the left-hand side left, because the right-hand side has been
    lowered too.  In [x + y] with no variable in scope both operands print
    their diagnostic. *)
Lemma BinaryExprAST_codegen_no_short_circuit :
  ~ (forall (Op : ascii) (l r : ExprAST) (s s1 : state),
       codegen l s = Some (None, s1) ->
       codegen (BinaryExprAST Op (Some l) (Some r)) s = Some (None, s1)).
Proof.
  intros H.
  specialize (H "+"%char (VariableExprAST "x") (VariableExprAST "y") init
                _ eq_refl).
  apply (f_equal (fun o => match o with
                           | Some (_, s) => out s
                           | None => []
                           end)) in H.
  vm_compute in H. discriminate H.
Qed.

(** C5, amended.  [BinaryExprAST::codegen] lowers the left-hand side, then
    the right-hand side in the state the left-hand side left, whether or not
    the left-hand side failed; only then does it return failure if either
    side failed, and otherwise emit the operation. *)
Theorem BinaryExprAST_codegen_lowers_both_sides
    (Op : ascii) (l r : ExprAST) (s s1 s2 : state) (L R : option Value) :
  codegen l s = Some (L, s1) ->
  codegen r s1 = Some (R, s2) ->
  codegen (BinaryExprAST Op (Some l) (Some r)) s =
    match L, R with
    | Some L, Some R => codegen_binop Op L R s2
    | _, _ => Some (None, s2)
    end.
Proof.
  intros HL HR. simpl. unfold bind. rewrite HL, HR.
  destruct L, R; reflexivity.
Qed.

Lemma BinaryExprAST_codegen_lowers_both_sides_witness :
  exists s1 s2,
    codegen (VariableExprAST "x") init = Some (None, s1) /\
    codegen (VariableExprAST "y") s1 = Some (None, s2) /\
    codegen (BinaryExprAST "+" (Some (VariableExprAST "x"))
                               (Some (VariableExprAST "y"))) init =
      Some (None, s2) /\
    out s1 = ["Log Error: Unkown variable name!"] /\
    out s2 = ["Log Error: Unkown variable name!";
              "Log Error: Unkown variable name!"].
Proof.
  eexists. eexists.
  split; [reflexivity|]. split; [reflexivity|].
  split; [|split; reflexivity].
  exact (BinaryExprAST_codegen_lowers_both_sides "+" (VariableExprAST "x")
           (VariableExprAST "y") init _ _ None None eq_refl eq_refl).
Defined.

(** ** C6 — calls *)

Lemma codegen_args_LowersAll CalleeF Args Vs s s' :
  LowersAll s Args Vs s' ->
  forall ArgsV,
    codegen_args codegen CalleeF Args ArgsV s =
      Some (Some (Call (handle CalleeF) (ArgsV ++ Vs)),
            CG_built s' (Call (handle CalleeF) (ArgsV ++ Vs))).
Proof.
  induction 1 as [s | s a V s1 Args Vs s2 Ha Hrest IH]; intros ArgsV; simpl.
  - rewrite app_nil_r. reflexivity.
  - unfold bind. rewrite Ha. rewrite IH. rewrite <- app_assoc. reflexivity.
Qed.

Lemma codegen_args_first_failure CalleeF pre Vs s s1 :
  LowersAll s pre Vs s1 ->
  forall a post s2 ArgsV,
    codegen a s1 = Some (None, s2) ->
    codegen_args codegen CalleeF (pre ++ Some a :: post) ArgsV s = Some (None, s2).
Proof.
  induction 1 as [s | s b V s1 Args Vs s2 Hb Hrest IH]; intros a post s3 ArgsV Ha;
    simpl; unfold bind.
  - rewrite Ha. reflexivity.
  - rewrite Hb. apply IH. exact Ha.
Qed.

(** C6.  [CallExprAST::codegen] (1) fails with the unknown-function
    diagnostic, and nothing else changed, when the callee is not in the
    module; (2) fails with the argument-count diagnostic, and nothing else
    changed (no argument lowered, no value built), when the function found
    has another number of parameters; otherwise (3) if the arguments lower
    one after the other from left to right, it ends with the call on their
    values in that order, and (4) if the arguments before some argument
    lower and that one fails, it returns failure in the state that argument
    left: no later argument is lowered and no call is built. *)
Theorem CallExprAST_codegen_checks_then_lowers_in_order
    (Callee : string) (Args : list (option ExprAST)) (s : state) :
  (lookup_function Callee (TheModule s) = None ->
   codegen (CallExprAST Callee Args) s =
     Some (None, CG_printed s "Log Error: Unkown function referenced!")) /\
  (forall CalleeF,
     lookup_function Callee (TheModule s) = Some CalleeF ->
     length (fargs CalleeF) <> length Args ->
     codegen (CallExprAST Callee Args) s =
       Some (None, CG_printed s "Log Error: Incorrect argument number!")) /\
  (forall CalleeF Vs s',
     lookup_function Callee (TheModule s) = Some CalleeF ->
     length (fargs CalleeF) = length Args ->
     LowersAll s Args Vs s' ->
     codegen (CallExprAST Callee Args) s =
       Some (Some (Call (handle CalleeF) Vs),
             CG_built s' (Call (handle CalleeF) Vs))) /\
  (forall CalleeF pre a post Vs s1 s2,
     lookup_function Callee (TheModule s) = Some CalleeF ->
     length (fargs CalleeF) = length Args ->
     Args = (pre ++ Some a :: post)%list ->
     LowersAll s pre Vs s1 ->
     codegen a s1 = Some (None, s2) ->
     codegen (CallExprAST Callee Args) s = Some (None, s2)).
Proof.
  repeat split.
  - intros Hf. simpl. unfold bind, getFunction. rewrite Hf. reflexivity.
  - intros F Hf Hlen. simpl. unfold bind, getFunction. rewrite Hf.
    apply Nat.eqb_neq in Hlen. rewrite Hlen. reflexivity.
  - intros F Vs s' Hf Hlen Hall. simpl. unfold bind, getFunction. rewrite Hf.
    apply Nat.eqb_eq in Hlen. rewrite Hlen. simpl.
    apply (codegen_args_LowersAll F Args Vs s s' Hall []).
  - intros F pre a post Vs s1 s2 Hf Hlen -> Hall Ha.
    simpl. unfold bind, getFunction. rewrite Hf.
    apply Nat.eqb_eq in Hlen. rewrite Hlen. simpl.
    eapply codegen_args_first_failure; eauto.
Qed.

Lemma CallExprAST_codegen_checks_then_lowers_in_order_witness :
  lookup_function "foo" (TheModule after_extern_foo2) = Some declared_foo2 /\
  length (fargs declared_foo2) <> length [Some (NumberExprAST (strtod "1"))] /\
  codegen (CallExprAST "foo" [Some (NumberExprAST (strtod "1"))])
          after_extern_foo2 =
    Some (None, CG_printed after_extern_foo2
                           "Log Error: Incorrect argument number!").
Proof.
  assert (lookup_function "foo" (TheModule after_extern_foo2) =
          Some declared_foo2) as Hf by reflexivity.
  assert (length (fargs declared_foo2) <>
          length [Some (NumberExprAST (strtod "1"))])
    as Hlen by (simpl; discriminate).
  split; [exact Hf|]. split; [exact Hlen|].
  exact (proj1 (proj2 (CallExprAST_codegen_checks_then_lowers_in_order
                         "foo" [Some (NumberExprAST (strtod "1"))]
                         after_extern_foo2)) _ Hf Hlen).
Defined.

(** A call whose second argument fails: the first argument is lowered, the
    third is not (its diagnostic is never printed), no call is built. *)
Example call_aborts_on_first_failing_argument :
  (fun r => match r with
            | Some (V, s') => Some (V, built s', out s')
            | None => None
            end)
    (codegen (CallExprAST "foo"
       [Some (BinaryExprAST "+" (Some (NumberExprAST (strtod "1")))
                                (Some (NumberExprAST (strtod "2"))));
        Some (VariableExprAST "y");
        Some (CallExprAST "bar" [])])
       (mk [mkFunction 0 "foo" ["a"; "b"; "c"] 0] 0 1 ∅ None [] []))
  = Some (None,
          [FAdd (ConstantFP (strtod "1")) (ConstantFP (strtod "2"))],
          ["Log Error: Unkown variable name!"]).
Proof. reflexivity. Qed.

(** ** C7 — a failed definition *)

(** [FunctionAST::codegen] returns a null pointer exactly when lowering the
    body does, and then the state is the one the body left, with
    [TheFunction] erased. *)
Lemma FunctionAST_codegen_fails_iff_body_fails P body s s' :
  FunctionAST_codegen (mkFunctionAST (Some P) (Some body)) s = Some (None, s') <->
  exists F s1 s2,
    (lookup_function (getName P) (TheModule s) = Some F /\ s1 = s \/
     lookup_function (getName P) (TheModule s) = None /\
     PrototypeAST_codegen P s = Some (Some F, s1)) /\
    codegen body (CG_entered s1 F) = Some (None, s2) /\
    s' = CG_erased s2 F.
Proof.
  split.
  - intros H.
    destruct (lookup_function (getName P) (TheModule s)) as [F|] eqn:HF.
    + rewrite (FunctionAST_codegen_existing P body s F HF) in H.
      destruct (codegen body (CG_entered s F)) as [[[V|] s2]|] eqn:Hb;
        try discriminate H.
      inversion H; subst. exists F, s, s2. auto.
    + destruct (FunctionAST_codegen_new P body s HF) as [s1 [HP Heq]].
      rewrite Heq in H.
      destruct (codegen body (CG_entered s1 (CG_created P s)))
        as [[[V|] s2]|] eqn:Hb; try discriminate H.
      inversion H; subst. exists (CG_created P s), s1, s2. auto.
  - intros [F [s1 [s2 [[[HF ->]|[HF HP]] [Hb ->]]]]].
    + rewrite (FunctionAST_codegen_existing P body s F HF), Hb. reflexivity.
    + destruct (FunctionAST_codegen_new P body s HF) as [s1' [HP' Heq]].
      rewrite HP in HP'. inversion HP'; subst. rewrite Heq, Hb. reflexivity.
Qed.

(** C7.  When [FunctionAST::codegen] fails (which it does exactly when the
    body fails to lower), no function of the module bears the prototype's
    name afterwards.  If the name was already declared, the module is the
    earlier module without that declaration: the earlier handle is erased,
    not kept. *)
Theorem FunctionAST_codegen_failure_erases_function
    (P : PrototypeAST) (body : ExprAST) (s s' : state) :
  names_identify (TheModule s) ->
  FunctionAST_codegen (mkFunctionAST (Some P) (Some body)) s = Some (None, s') ->
  lookup_function (getName P) (TheModule s') = None /\
  (forall F, lookup_function (getName P) (TheModule s) = Some F ->
     TheModule s' = List.filter (keeps_other F) (TheModule s) /\
     ~ In F (TheModule s')).
Proof.
  intros Hid Hfail.
  destruct (lookup_function (getName P) (TheModule s)) as [F|] eqn:HF.
  - rewrite (FunctionAST_codegen_existing P body s F HF) in Hfail.
    destruct (codegen body (CG_entered s F)) as [[[V|] s2]|] eqn:Hb;
      try discriminate Hfail.
    inversion Hfail; subst s'. clear Hfail.
    apply codegen_same_module in Hb. destruct Hb as [Hm _].
    assert (TheModule (CG_erased s2 F) = List.filter (keeps_other F) (TheModule s))
      as Hmod.
    { simpl. rewrite Hm. simpl. apply filter_update_function. reflexivity. }
    rewrite Hmod. split.
    + apply lookup_function_erased; assumption.
    + intros F' HF'. inversion HF'; subst F'. split; [reflexivity|].
      intros Hin. apply List.filter_In in Hin. destruct Hin as [_ Hk].
      unfold keeps_other in Hk. rewrite Nat.eqb_refl in Hk. discriminate Hk.
  - destruct (FunctionAST_codegen_new P body s HF) as [s1 [HP Heq]].
    rewrite Heq in Hfail. clear Heq.
    destruct (PrototypeAST_codegen_creates P s) as [s1' [HP' [[F0 [HF0 Hm1]] _]]].
    rewrite HP in HP'. inversion HP'; subst s1'. clear HP'.
    destruct (codegen body _) as [[[V|] s2]|] eqn:Hb; try discriminate Hfail.
    inversion Hfail; subst s'. clear Hfail.
    apply codegen_same_module in Hb. destruct Hb as [Hm _].
    split; [|intros F HF'; discriminate HF'].
    simpl. rewrite Hm. simpl.
    change (keeps_other (CG_created P s)) with (keeps_other (with_block (CG_created P s))).
    rewrite filter_update_function by reflexivity.
    change (keeps_other (with_block (CG_created P s))) with (keeps_other (CG_created P s)).
    rewrite Hm1. rewrite filter_update_function by reflexivity.
    rewrite List.filter_app. simpl.
    unfold keeps_other at 2. simpl. rewrite HF0, Nat.eqb_refl. simpl.
    rewrite app_nil_r. apply lookup_function_filter_None. exact HF.
Qed.

Lemma FunctionAST_codegen_failure_erases_function_witness :
  exists s',
    names_identify (TheModule after_extern_foo) /\
    lookup_function "foo" (TheModule after_extern_foo) = Some declared_foo /\
    FunctionAST_codegen
      (mkFunctionAST (Some (mkPrototypeAST "foo" ["b"]))
                     (Some (VariableExprAST "b"))) after_extern_foo =
      Some (None, s') /\
    lookup_function "foo" (TheModule s') = None /\
    TheModule s' = [].
Proof.
  eexists.
  assert (names_identify (TheModule after_extern_foo)) as Hid.
  { intros F G [<-|[]] [<-|[]] _ _. reflexivity. }
  split; [exact Hid|]. split; [reflexivity|].
  assert (FunctionAST_codegen
            (mkFunctionAST (Some (mkPrototypeAST "foo" ["b"]))
                           (Some (VariableExprAST "b"))) after_extern_foo
          = Some (None, CG_erased (CG_printed
                    (mk (update_function (with_block declared_foo)
                           (TheModule after_extern_foo))
                        0 1 (<["b" := None]> (<["a" := Some (Argument 0 0)]> ∅))
                        (Some (0%nat, 0%nat)) [] [])
                    "Log Error: Unkown variable name!")
                    declared_foo)) as Hrun by reflexivity.
  split; [exact Hrun|].
  split; [|reflexivity].
  exact (proj1 (FunctionAST_codegen_failure_erases_function
                  (mkPrototypeAST "foo" ["b"]) (VariableExprAST "b")
                  after_extern_foo _ Hid Hrun)).
Defined.

(** ** C8 — a definition after a declaration *)

(** C8.  When the name of the definition is already in the module, whatever
    the parameter list of the new prototype, [FunctionAST::codegen] lowers
    the body with the existing function as [TheFunction]: it returns that
    handle on success, and [NamedValues] holds exactly the parameter names
    of the existing function, bound to its arguments.  The names (and the
    number) of the new prototype's parameters play no part. *)
Theorem FunctionAST_codegen_reuses_existing_handle
    (name : string) (args : list string) (body : ExprAST) (s : state)
    (F : Function) :
  lookup_function name (TheModule s) = Some F ->
  FunctionAST_codegen
    (mkFunctionAST (Some (mkPrototypeAST name args)) (Some body)) s =
    match codegen body (CG_entered s F) with
    | Some (Some RetVal, s2) => Some (Some (handle F), CG_built s2 (Ret RetVal))
    | Some (None, s2) => Some (None, CG_erased s2 F)
    | None => None
    end /\
  (forall x : string, x ∉ fargs F -> NamedValues (CG_entered s F) !! x = None) /\
  (forall x : string, x ∈ fargs F ->
     exists j, fargs F !! j = Some x /\
       NamedValues (CG_entered s F) !! x = Some (Some (Argument (handle F) j))).
Proof.
  intros HF. split; [|split].
  - apply (FunctionAST_codegen_existing (mkPrototypeAST name args) body s F HF).
  - intros x Hx. simpl. rewrite bind_args_notin by exact Hx. apply lookup_empty.
  - intros x Hx. simpl.
    destruct (bind_args_in (handle F) (fargs F) 0 ∅ x Hx) as [j [Hj Hl]].
    exists j. split; [exact Hj|exact Hl].
Qed.

Lemma FunctionAST_codegen_reuses_existing_handle_witness :
  lookup_function "foo" (TheModule after_extern_foo) = Some declared_foo /\
  (exists s',
     FunctionAST_codegen
       (mkFunctionAST (Some (mkPrototypeAST "foo" ["b"; "c"]))
                      (Some (VariableExprAST "a"))) after_extern_foo =
       Some (Some 0%nat, s')) /\
  NamedValues (CG_entered after_extern_foo declared_foo) !! "b" = None.
Proof.
  assert (lookup_function "foo" (TheModule after_extern_foo) = Some declared_foo)
    as Hf by reflexivity.
  pose proof (FunctionAST_codegen_reuses_existing_handle "foo" ["b"; "c"]
                (VariableExprAST "a") after_extern_foo _ Hf) as [Hrun [Hout _]].
  split; [exact Hf|]. split.
  - eexists. rewrite Hrun. reflexivity.
  - apply Hout. simpl. intros Hin. apply list_elem_of_singleton in Hin.
    discriminate Hin.
Defined.

(** The definition [def foo(b) b] after [extern foo(a)]: the parameter [b]
    is unknown in the body, and the declaration is erased. *)
Example def_after_extern_uses_declared_names :
  (fun r => match r with
            | Some (h, s') => Some (h, TheModule s', out s')
            | None => None
            end)
    (FunctionAST_codegen
       (mkFunctionAST (Some (mkPrototypeAST "foo" ["b"]))
                      (Some (VariableExprAST "b"))) after_extern_foo)
  = Some (None, [], ["Log Error: Unkown variable name!"]).
Proof. reflexivity. Qed.

(** ** C4 — lowering a prototype whose name is taken *)

(** C4 as stated fails: lowering the prototype [foo(a)] in a module that
    already declares [foo] returns a new handle and leaves two functions
    in the module. *)
Lemma PrototypeAST_codegen_not_idempotent :
  ~ (forall (P : PrototypeAST) (s : state) (F : Function),
       lookup_function (getName P) (TheModule s) = Some F ->
       exists F' s',
         PrototypeAST_codegen P s = Some (Some F', s') /\
         handle F' = handle F /\
         length (TheModule s') = length (TheModule s)).
Proof.
  intros H.
  specialize (H (mkPrototypeAST "foo" ["a"]) after_extern_foo declared_foo
                eq_refl).
  destruct H as [F' [s' [HP [Hh Hlen]]]].
  vm_compute in HP. inversion HP; subst. simpl in Hh. discriminate Hh.
Qed.

(** C4, amended.  [PrototypeAST::codegen] never looks the name up: it
    always creates a function with a fresh handle at the end of the module,
    and a name that was taken stays bound to the earlier function.  The
    existing handle is reused by [FunctionAST::codegen] only: when the name
    of a definition is in the module, no function is created and the handle
    returned on success is the existing one. *)
Theorem PrototypeAST_codegen_always_creates :
  (forall (P : PrototypeAST) (s : state),
     handles_below s ->
     exists F' s',
       PrototypeAST_codegen P s = Some (Some F', s') /\
       handle F' = allocated s /\
       (forall G, In G (TheModule s) -> handle G <> handle F') /\
       TheModule s' = (TheModule s ++ [F'])%list /\
       (forall F, lookup_function (getName P) (TheModule s) = Some F ->
                  lookup_function (getName P) (TheModule s') = Some F)) /\
  (forall (P : PrototypeAST) (body : ExprAST) (s s' : state) (F : Function)
          (r : option nat),
     lookup_function (getName P) (TheModule s) = Some F ->
     FunctionAST_codegen (mkFunctionAST (Some P) (Some body)) s = Some (r, s') ->
     allocated s' = allocated s /\
     (forall h, r = Some h ->
        h = handle F /\
        TheModule s' = update_function (with_block F) (TheModule s))).
Proof.
  split.
  - intros P s Hb.
    destruct (PrototypeAST_codegen_creates P s) as [s' [HP [[F0 [HF0 Hm]] _]]].
    assert (forall G, In G (TheModule s) -> handle G <> handle (CG_created P s))
      as Hfresh by (intros G HG; apply Hb in HG; simpl; lia).
    assert (TheModule s' = (TheModule s ++ [CG_created P s])%list) as Hm'.
    { rewrite Hm. unfold update_function. rewrite List.map_app.
      fold (update_function (CG_created P s) (TheModule s)).
      rewrite update_function_fresh by exact Hfresh.
      simpl. rewrite HF0, Nat.eqb_refl. reflexivity. }
    exists (CG_created P s), s'. repeat split; auto.
    intros F HF. rewrite Hm'. apply lookup_function_app_l. exact HF.
  - intros P body s s' F r HF Hrun.
    rewrite (FunctionAST_codegen_existing P body s F HF) in Hrun.
    destruct (codegen body (CG_entered s F)) as [[[V|] s2]|] eqn:Hb;
      try discriminate Hrun; inversion Hrun; subst; clear Hrun;
      apply codegen_same_module in Hb; destruct Hb as [Hm [_ [Ha _]]]; simpl.
    + split; [exact Ha|]. intros h Hh. inversion Hh; subst. split; [reflexivity|].
      exact Hm.
    + split; [exact Ha|]. intros h Hh. discriminate Hh.
Qed.

Lemma PrototypeAST_codegen_always_creates_witness :
  handles_below after_extern_foo /\
  exists F' s',
    PrototypeAST_codegen (mkPrototypeAST "foo" ["a"]) after_extern_foo =
      Some (Some F', s') /\
    handle F' = 1%nat /\
    TheModule s' = [declared_foo; F'] /\
    lookup_function "foo" (TheModule s') = Some declared_foo.
Proof.
  assert (handles_below after_extern_foo) as Hb.
  { intros F [<-|[]]. simpl. lia. }
  split; [exact Hb|].
  destruct (proj1 PrototypeAST_codegen_always_creates
              (mkPrototypeAST "foo" ["a"]) after_extern_foo Hb)
    as [F' [s' [HP [Hh [_ [Hm Hl]]]]]].
  exists F', s'. split; [exact HP|]. split; [exact Hh|]. split; [exact Hm|].
  apply Hl. reflexivity.
Defined.

(** The second function gets the name LLVM makes up for it. *)
Example extern_foo_twice :
  PrototypeAST_codegen (mkPrototypeAST "foo" ["a"]) after_extern_foo =
    Some (Some (mkFunction 1 "foo.1" ["a"] 0),
          mk [declared_foo; mkFunction 1 "foo.1" ["a"] 0] 1 2 ∅ None [] []).
Proof. vm_compute; reflexivity. Qed.

End LoweringFacts.

(** ** The module stays well formed

    The hypotheses [handles_below] and [names_identify] of the statements
    above hold in every state the lowering can reach from [CG.init]. *)

Section ModuleInvariant.
Import CG.

Lemma makeUniqueName_spec taken Name sep fuel : forall LU,
  fst (makeUniqueName fuel taken Name sep LU) ∉ taken \/
  (forall k, (LU < k <= LU + S fuel)%nat -> Name +:+ sep +:+ pretty k ∈ taken).
Proof.
  induction fuel as [|fuel IH]; intros LU; simpl.
  - destruct (decide (Name +:+ sep +:+ pretty (S LU) ∈ taken)) as [Hin|Hnin];
      [right|left; exact Hnin].
    intros k Hk. assert (k = S LU) as -> by lia. exact Hin.
  - destruct (bool_decide (Name +:+ sep +:+ pretty (S LU) ∈ taken)) eqn:E.
    + apply bool_decide_eq_true in E.
      destruct (IH (S LU)) as [Hfresh|Hall]; [left; exact Hfresh|right].
      intros k Hk. destruct (decide (k = S LU)) as [->|Hne]; [exact E|].
      apply Hall. lia.
    + apply bool_decide_eq_false in E. left. exact E.
Qed.

Lemma makeUniqueName_fresh taken Name sep LU :
  fst (makeUniqueName (length taken) taken Name sep LU) ∉ taken.
Proof.
  destruct (makeUniqueName_spec taken Name sep (length taken) LU) as [H|Hall];
    [exact H|exfalso].
  set (f := fun k : nat => Name +:+ sep +:+ pretty k).
  assert (Inj (=) (=) f) as Hinj.
  { intros k1 k2 Heq. unfold f in Heq.
    apply String.app_inj in Heq. apply String.app_inj in Heq.
    apply (inj pretty) in Heq. exact Heq. }
  assert (f <$> seq (S LU) (S (length taken)) ⊆+ taken) as Hsub.
  { apply NoDup_submseteq; [apply NoDup_fmap_2; [exact Hinj|apply NoDup_seq]|].
    intros x Hx. apply list_elem_of_fmap in Hx. destruct Hx as [k [-> Hk]].
    apply elem_of_seq in Hk. apply Hall. lia. }
  apply submseteq_length in Hsub.
  rewrite length_fmap, length_seq in Hsub. lia.
Qed.

Lemma createValueName_fresh taken Name sep LU :
  fst (createValueName taken Name sep LU) = "" \/
  fst (createValueName taken Name sep LU) ∉ taken.
Proof.
  unfold createValueName.
  destruct (decide (Name = "")) as [->|Hne]; [left; reflexivity|].
  destruct (bool_decide (Name ∈ taken)) eqn:E.
  - right. apply makeUniqueName_fresh.
  - right. apply bool_decide_eq_false in E. exact E.
Qed.

Lemma names_identify_update F' fs :
  names_identify fs ->
  (exists F, In F fs /\ handle F = handle F' /\ fname F = fname F') ->
  names_identify (update_function F' fs).
Proof.
  intros Hid [F [HinF [HhF HnF]]] G1 G2 H1 H2 Hn Hne.
  unfold update_function in H1, H2.
  apply List.in_map_iff in H1, H2.
  destruct H1 as [O1 [E1 HO1]], H2 as [O2 [E2 HO2]].
  destruct (Nat.eqb (handle O1) (handle F')) eqn:T1;
    destruct (Nat.eqb (handle O2) (handle F')) eqn:T2; subst G1 G2.
  - reflexivity.
  - rewrite <- HhF. apply Hid; auto; congruence.
  - rewrite <- HhF. apply Hid; auto; congruence.
  - apply Hid; auto.
Qed.

Lemma names_identify_filter (p : Function -> bool) fs :
  names_identify fs -> names_identify (List.filter p fs).
Proof.
  intros Hid G1 G2 H1 H2. apply List.filter_In in H1, H2.
  apply Hid; tauto.
Qed.

Lemma names_identify_snoc fs F :
  names_identify fs ->
  fname F = "" \/ fname F ∉ List.map fname fs ->
  names_identify (fs ++ [F]).
Proof.
  intros Hid HF G1 G2 H1 H2 Hn Hne.
  apply List.in_app_iff in H1, H2.
  assert (forall G, In G fs -> fname G = fname F -> fname G <> "" -> False) as Hno.
  { intros G HG HnG HneG. destruct HF as [HF|HF]; [congruence|].
    apply HF. apply list_elem_of_In. apply List.in_map_iff. exists G. auto. }
  destruct H1 as [H1|[<-|[]]], H2 as [H2|[<-|[]]].
  - apply Hid; auto.
  - exfalso. eapply Hno; eauto.
  - exfalso. apply (Hno G2 H2); congruence.
  - reflexivity.
Qed.

Lemma handles_below_update F' (s s' : state) :
  handles_below s -> (handle F' < allocated s')%nat ->
  (allocated s <= allocated s')%nat ->
  TheModule s' = update_function F' (TheModule s) ->
  handles_below s'.
Proof.
  intros Hb HF Hle Hm G HG. rewrite Hm in HG.
  unfold update_function in HG. apply List.in_map_iff in HG.
  destruct HG as [O [E HO]].
  destruct (Nat.eqb (handle O) (handle F')); subst G; [exact HF|].
  apply Hb in HO. lia.
Qed.

Lemma PrototypeAST_codegen_appends P s :
  handles_below s ->
  exists s',
    PrototypeAST_codegen P s = Some (Some (CG_created P s), s') /\
    TheModule s' = (TheModule s ++ [CG_created P s])%list /\
    allocated s' = S (allocated s).
Proof.
  intros Hb.
  destruct (PrototypeAST_codegen_creates P s) as [s' [HP [[F0 [HF0 Hm]] [Ha _]]]].
  exists s'. split; [exact HP|]. split; [|exact Ha].
  rewrite Hm. unfold update_function. rewrite List.map_app.
  fold (update_function (CG_created P s) (TheModule s)).
  rewrite update_function_fresh
    by (intros G HG; apply Hb in HG; simpl; lia).
  simpl. rewrite HF0, Nat.eqb_refl. reflexivity.
Qed.

(** Lowering a prototype keeps the module well formed. *)
Lemma PrototypeAST_codegen_wf P s r s' :
  CG_wf s -> PrototypeAST_codegen P s = Some (r, s') -> CG_wf s'.
Proof.
  intros [Hb Hid] H.
  destruct (PrototypeAST_codegen_appends P s Hb) as [s1 [HP [Hm Ha]]].
  rewrite HP in H. inversion H; subst r s1. clear H. split.
  - intros G HG. rewrite Hm in HG. apply List.in_app_iff in HG.
    destruct HG as [HG|[<-|[]]]; [apply Hb in HG|simpl]; lia.
  - rewrite Hm. apply names_identify_snoc; [exact Hid|].
    apply createValueName_fresh.
Qed.

Lemma CG_entered_wf s F : CG_wf s -> In F (TheModule s) -> CG_wf (CG_entered s F).
Proof.
  intros [Hb Hid] HF. split.
  - apply (handles_below_update (with_block F) s); auto.
    simpl. apply Hb. exact HF.
  - simpl. apply names_identify_update; [exact Hid|].
    exists F. auto.
Qed.

Lemma same_module_wf s s' : same_module s s' -> CG_wf s -> CG_wf s'.
Proof.
  intros [Hm [_ [Ha _]]] [Hb Hid]. split.
  - intros G HG. rewrite Hm in HG. rewrite Ha. apply Hb. exact HG.
  - rewrite Hm. exact Hid.
Qed.

Lemma CG_erased_wf s F : CG_wf s -> CG_wf (CG_erased s F).
Proof.
  intros [Hb Hid]. split.
  - intros G HG. simpl in HG. apply List.filter_In in HG. simpl. apply Hb. tauto.
  - simpl. apply names_identify_filter. exact Hid.
Qed.

Lemma lower_body_wf body s F r s' :
  CG_wf s -> In F (TheModule s) ->
  match codegen body (CG_entered s F) with
  | Some (Some RetVal, s2) => Some (Some (handle F), CG_built s2 (Ret RetVal))
  | Some (None, s2) => Some (None, CG_erased s2 F)
  | None => None
  end = Some (r, s') ->
  CG_wf s'.
Proof.
  intros Hwf HF H.
  pose proof (CG_entered_wf s F Hwf HF) as Hwf1.
  destruct (codegen body (CG_entered s F)) as [[[V|] s2]|] eqn:Hb;
    try discriminate H; inversion H; subst; clear H;
    apply codegen_same_module in Hb;
    pose proof (same_module_wf _ _ Hb Hwf1) as Hwf2.
  - destruct Hwf2 as [Hb2 Hid2]. split; [exact Hb2|exact Hid2].
  - apply CG_erased_wf. exact Hwf2.
Qed.

(** Lowering a function definition keeps the module well formed. *)
Lemma FunctionAST_codegen_wf P body s r s' :
  CG_wf s ->
  FunctionAST_codegen (mkFunctionAST (Some P) (Some body)) s = Some (r, s') ->
  CG_wf s'.
Proof.
  intros Hwf H.
  destruct (lookup_function (getName P) (TheModule s)) as [F|] eqn:HF.
  - rewrite (FunctionAST_codegen_existing P body s F HF) in H.
    apply lookup_function_Some in HF. destruct HF as [HF _].
    eapply lower_body_wf; eauto.
  - destruct (FunctionAST_codegen_new P body s HF) as [s1 [HP Heq]].
    rewrite Heq in H. clear Heq.
    pose proof (PrototypeAST_codegen_wf P s _ _ Hwf HP) as Hwf1.
    destruct (PrototypeAST_codegen_appends P s (proj1 Hwf)) as [s1' [HP' [Hm _]]].
    rewrite HP in HP'. inversion HP'; subst s1'. clear HP'.
    assert (In (CG_created P s) (TheModule s1)) as Hin
      by (rewrite Hm; apply List.in_app_iff; right; left; reflexivity).
    eapply lower_body_wf; [exact Hwf1|exact Hin|].
    simpl. exact H.
Qed.

Lemma CG_init_wf : CG_wf init.
Proof. split; [intros F []|intros F G []]. Qed.

End ModuleInvariant.

(** * Further properties

    ** The lexer on source text *)

Section LexerText.

Lemma gettok_rec_mono n : forall m st r,
  (n <= m)%nat -> Lex.gettok_rec n st = Some r -> Lex.gettok_rec m st = Some r.
Proof.
  induction n as [|n IH]; intros m [lc inp id nv] r Hm;
    (destruct m as [|m]; [try lia|]); simpl;
    destruct (Lex.skip_space lc inp) as [lc1 inp1];
    try (destruct (isalpha lc1); [auto|]);
    try (destruct (Lex.number_cond lc1); [auto|]);
    try (destruct (lc1 =? int_of_char "#"); [|auto]);
    try (destruct (Lex.skip_comment inp1) as [lc2 inp2];
         destruct (lc2 =? EOF); simpl; auto; try discriminate).
  apply IH. lia.
Qed.

Lemma gettok_rec_enough fuel st :
  (String.length (Lex.stdin st) <= fuel)%nat ->
  Lex.gettok_rec fuel st = Some (Lex.gettok st).
Proof.
  intros H. eapply gettok_rec_mono; [exact H|apply gettok_unfold].
Qed.

Lemma gettok_eq_of_rec st st' :
  (forall fuel, Lex.gettok_rec (S fuel) st = Lex.gettok_rec (S fuel) st') ->
  Lex.gettok st = Lex.gettok st'.
Proof.
  intros H.
  set (n := S (max (String.length (Lex.stdin st)) (String.length (Lex.stdin st')))).
  assert (Lex.gettok_rec n st = Some (Lex.gettok st)) as H1
    by (apply gettok_rec_enough; unfold n; lia).
  assert (Lex.gettok_rec n st' = Some (Lex.gettok st')) as H2
    by (apply gettok_rec_enough; unfold n; lia).
  unfold n in H1, H2. rewrite H in H1. congruence.
Qed.

Lemma skip_space_spaces ws : forall lc input,
  isspace lc = true -> all_space ws = true ->
  Lex.skip_space lc (ws +:+ input) = Lex.skip_space (int_of_char " ") input.
Proof.
  induction ws as [|c ws IH]; intros lc input Hlc Hws.
  - change ("" +:+ input) with input.
    destruct input; simpl; rewrite Hlc; reflexivity.
  - simpl in Hws. apply andb_true_iff in Hws. destruct Hws as [Hc Hws].
    change (String c ws +:+ input) with (String c (ws +:+ input)).
    simpl. rewrite Hlc. apply IH; assumption.
Qed.


Lemma append_String_assoc (Id : string) (c : ascii) (w : string) :
  (Id +:+ String c "") +:+ w = Id +:+ String c w.
Proof.
  induction Id as [|a Id IH]; [reflexivity|].
  change ((String a (Id +:+ String c "")) +:+ w = String a (Id +:+ String c w)).
  change (String a ((Id +:+ String c "") +:+ w) = String a (Id +:+ String c w)).
  f_equal. exact IH.
Qed.

Lemma append_empty_r (Id : string) : Id +:+ "" = Id.
Proof.
  induction Id as [|a Id IH]; [reflexivity|].
  change (String a (Id +:+ "") = String a Id). f_equal. exact IH.
Qed.

Lemma read_alnum_word w : forall Id rest,
  all_alnum w = true -> ends_word rest ->
  Lex.read_alnum Id (w +:+ rest) =
    (Id +:+ w, fst (getchar rest), snd (getchar rest)).
Proof.
  induction w as [|c w IH]; intros Id rest Hw Hr.
  - change ("" +:+ rest) with rest.
    rewrite append_empty_r.
    destruct rest as [|c rest]; simpl; [reflexivity|].
    simpl in Hr. rewrite Hr. reflexivity.
  - simpl in Hw. apply andb_true_iff in Hw. destruct Hw as [Hc Hw].
    change (String c w +:+ rest) with (String c (w +:+ rest)).
    simpl. rewrite Hc. rewrite (IH _ rest Hw Hr).
    unfold Lex.push_back. rewrite char_of_int_of_char.
    rewrite append_String_assoc. reflexivity.
Qed.

Lemma isalpha_not_space c : isalpha c = true -> isspace c = false.
Proof. unfold isalpha, isupper, islower, isspace. lia. Qed.

(** X1.  [gettok] skips white space: when [LastChar] is a white-space
    character, any run of white-space characters at the head of the input
    is read and dropped, and the call gives the token and the state it
    gives on the rest of the input after one blank. *)
Theorem gettok_skips_leading_space (lc : Z) (ws input id : string) (nv : double) :
  isspace lc = true -> all_space ws = true ->
  Lex.gettok (Lex.mk lc (ws +:+ input) id nv) =
  Lex.gettok (Lex.mk (int_of_char " ") input id nv).
Proof.
  intros Hlc Hws. apply gettok_eq_of_rec. intros fuel. simpl.
  rewrite (skip_space_spaces ws lc input Hlc Hws). reflexivity.
Qed.

Lemma gettok_skips_leading_space_witness :
  isspace 10 = true /\ all_space "  " = true /\
  Lex.gettok (Lex.mk 10 ("  " +:+ "def") "" double_zero) =
  Lex.gettok (Lex.mk (int_of_char " ") "def" "" double_zero).
Proof.
  split; [reflexivity|]. split; [reflexivity|].
  apply (gettok_skips_leading_space 10 "  " "def" "" double_zero); reflexivity.
Defined.

(** X2.  [gettok] on a word: with a letter in [LastChar] and letters and
    digits following it up to a character that is neither (or the end of
    input), the token is [tok_def] for def, [tok_extern] for extern and
    [tok_identifier] for every other word; [IdentifierStr] is the whole
    word, [LastChar] the character after it ([EOF] at the end of input),
    and [NumVal] is untouched. *)
Theorem gettok_reads_word (c0 : ascii) (w rest id : string) (nv : double) :
  isalpha (int_of_char c0) = true -> all_alnum w = true -> ends_word rest ->
  Lex.gettok (Lex.mk (int_of_char c0) (w +:+ rest) id nv) =
    (word_token (String c0 w),
     Lex.mk (fst (getchar rest)) (snd (getchar rest)) (String c0 w) nv).
Proof.
  intros Hc Hw Hr.
  pose proof (gettok_unfold (Lex.mk (int_of_char c0) (w +:+ rest) id nv)) as H.
  assert (forall fuel,
    Lex.gettok_rec fuel (Lex.mk (int_of_char c0) (w +:+ rest) id nv) =
    Some (word_token (String c0 w),
          Lex.mk (fst (getchar rest)) (snd (getchar rest)) (String c0 w) nv)) as Hrec.
  { intros fuel.
    assert (Lex.skip_space (int_of_char c0) (w +:+ rest) =
            (int_of_char c0, w +:+ rest)) as Hs
      by (destruct (w +:+ rest); simpl; rewrite (isalpha_not_space _ Hc); reflexivity).
    destruct fuel; simpl; rewrite Hs, Hc, char_of_int_of_char;
      rewrite (read_alnum_word w _ rest Hw Hr);
      change (String c0 "" +:+ w) with (String c0 w);
      unfold word_token; repeat (destruct (String.eqb _ _)); reflexivity. }
  rewrite Hrec in H. congruence.
Qed.

Lemma gettok_reads_word_witness :
  isalpha (int_of_char "d") = true /\ all_alnum "ef" = true /\
  ends_word " f(x)" /\
  Lex.gettok (Lex.mk (int_of_char "d") ("ef" +:+ " f(x)") "" double_zero) =
    (tok_def, Lex.mk (int_of_char " ") "f(x)" "def" double_zero).
Proof.
  split; [reflexivity|]. split; [reflexivity|]. split; [reflexivity|].
  exact (gettok_reads_word "d" "ef" " f(x)" "" double_zero
           eq_refl eq_refl eq_refl).
Defined.


Lemma skip_comment_line text : forall (nl : ascii) rest,
  no_eol text = true ->
  (int_of_char nl = 10 \/ int_of_char nl = 13) ->
  Lex.skip_comment (text +:+ String nl rest) = (int_of_char nl, rest).
Proof.
  induction text as [|c text IH]; intros nl rest Ht Hnl.
  - change ("" +:+ String nl rest) with (String nl rest). simpl.
    destruct Hnl as [-> | ->]; reflexivity.
  - simpl in Ht. apply andb_true_iff in Ht. destruct Ht as [Hc Ht].
    apply negb_true_iff in Hc.
    change (String c text +:+ String nl rest) with (String c (text +:+ String nl rest)).
    simpl. rewrite Hc. apply IH; assumption.
Qed.

Lemma skip_comment_to_end text :
  no_eol text = true -> Lex.skip_comment text = (EOF, "").
Proof.
  induction text as [|c text IH]; intros Ht; [reflexivity|].
  simpl in Ht. apply andb_true_iff in Ht. destruct Ht as [Hc Ht].
  apply negb_true_iff in Hc. simpl. rewrite Hc. apply IH; assumption.
Qed.

(** X3.  [gettok] on a comment: from # to the first line feed or carriage
    return everything is dropped and lexing goes on after it, as after a
    blank; a comment that runs to the end of input gives [tok_eof]. *)
Theorem gettok_skips_comment (text rest id : string) (nl : ascii) (nv : double) :
  no_eol text = true ->
  (int_of_char nl = 10 \/ int_of_char nl = 13) ->
  Lex.gettok (Lex.mk (int_of_char "#") (text +:+ String nl rest) id nv) =
    Lex.gettok (Lex.mk (int_of_char " ") rest id nv) /\
  Lex.gettok (Lex.mk (int_of_char "#") text id nv) =
    (tok_eof, Lex.mk EOF "" id nv).
Proof.
  intros Ht Hnl. split.
  - set (st1 := Lex.mk (int_of_char "#") (text +:+ String nl rest) id nv).
    set (n := (String.length (Lex.stdin st1) + String.length rest)%nat).
    assert (Lex.gettok_rec (S n) st1 = Some (Lex.gettok st1)) as H1
      by (apply gettok_rec_enough; unfold n; lia).
    assert (Lex.gettok_rec n (Lex.mk (int_of_char nl) rest id nv) =
            Some (Lex.gettok (Lex.mk (int_of_char " ") rest id nv))) as H2.
    { assert (Lex.gettok_rec n (Lex.mk (int_of_char " ") rest id nv) =
              Some (Lex.gettok (Lex.mk (int_of_char " ") rest id nv))) as H3
        by (apply gettok_rec_enough; unfold n; simpl; lia).
      rewrite <- H3.
      assert (isspace (int_of_char nl) = true) as Hsp
        by (destruct Hnl as [-> | ->]; reflexivity).
      pose proof (skip_space_spaces "" (int_of_char nl) rest Hsp eq_refl) as Hs.
      change ("" +:+ rest) with rest in Hs.
      destruct n; simpl; rewrite Hs; reflexivity. }
    assert (Lex.gettok_rec (S n) st1 =
            Lex.gettok_rec n (Lex.mk (int_of_char nl) rest id nv)) as H12.
    { unfold st1. simpl.
      assert (Lex.skip_space (int_of_char "#") (text +:+ String nl rest) =
              (int_of_char "#", text +:+ String nl rest)) as ->
        by (destruct (text +:+ String nl rest); reflexivity).
      change (isalpha (int_of_char "#")) with false. cbv iota.
      rewrite number_cond_false. rewrite Z.eqb_refl.
      rewrite (skip_comment_line text nl rest Ht Hnl).
      assert ((int_of_char nl =? EOF) = false) as ->
        by (destruct Hnl as [-> | ->]; reflexivity).
      reflexivity. }
    congruence.
  - pose proof (gettok_unfold (Lex.mk (int_of_char "#") text id nv)) as H.
    assert (forall fuel, Lex.gettok_rec fuel (Lex.mk (int_of_char "#") text id nv) =
              Some (tok_eof, Lex.mk EOF "" id nv)) as Hrec.
    { intros fuel.
      assert (Lex.skip_space (int_of_char "#") text = (int_of_char "#", text)) as Hs
        by (destruct text; reflexivity).
      destruct fuel; simpl; rewrite Hs;
        change (isalpha (int_of_char "#")) with false; cbv iota;
        rewrite number_cond_false, Z.eqb_refl, (skip_comment_to_end text Ht);
        reflexivity. }
    rewrite Hrec in H. congruence.
Qed.

Lemma gettok_skips_comment_witness :
  no_eol " a note" = true /\
  (int_of_char "010" = 10 \/ int_of_char "010" = 13) /\
  Lex.gettok (Lex.mk (int_of_char "#") (" a note" +:+ String "010" "x") ""
                     double_zero) =
    Lex.gettok (Lex.mk (int_of_char " ") "x" "" double_zero) /\
  Lex.gettok (Lex.mk (int_of_char "#") " a note" "" double_zero) =
    (tok_eof, Lex.mk EOF "" "" double_zero).
Proof.
  split; [reflexivity|]. split; [left; reflexivity|].
  exact (gettok_skips_comment " a note" "x" "" "010" double_zero
           eq_refl (or_introl eq_refl)).
Defined.

Lemma skip_space_not_space lc inp : isspace (fst (Lex.skip_space lc inp)) = false.
Proof.
  revert lc; induction inp as [|c rest IH]; intros lc; simpl.
  - destruct (isspace lc) eqn:E; simpl; [reflexivity|exact E].
  - destruct (isspace lc) eqn:E; simpl; [apply IH|exact E].
Qed.

Lemma gettok_rec_char_token fuel : forall st t st',
  Lex.gettok_rec fuel st = Some (t, st') ->
  0 <= t ->
  isspace t = false /\ isalpha t = false /\ t <> int_of_char "#".
Proof.
  induction fuel as [|fuel IH]; intros [lc inp id nv] t st'; simpl;
    pose proof (skip_space_not_space lc inp) as Hsp;
    destruct (Lex.skip_space lc inp) as [lc1 inp1]; simpl in Hsp;
    (destruct (isalpha lc1) eqn:Ea;
     [ destruct (Lex.read_alnum _ inp1) as [[Id lc2] inp2];
       repeat (destruct (String.eqb _ _)); intros H Ht; inversion H; subst;
       unfold tok_def, tok_extern, tok_identifier in Ht; lia | ]);
    rewrite number_cond_false;
    assert (forall l i, Some (Lex.gettok_tail l i id nv) = Some (t, st') -> 0 <= t ->
              t = l) as Htail
      by (intros l i; unfold Lex.gettok_tail; destruct (l =? EOF);
          [ intros H Ht; inversion H; subst; unfold tok_eof in Ht; lia
          | destruct i; intros H _; inversion H; reflexivity ]);
    (destruct (lc1 =? int_of_char "#") eqn:Eh;
     [| intros H Ht; apply Htail in H; [|exact Ht]; subst t;
        apply Z.eqb_neq in Eh; auto ]);
    destruct (Lex.skip_comment inp1) as [lc2 inp2];
    (destruct (lc2 =? EOF) eqn:E; simpl;
     [ intros H Ht; apply Htail in H; [|exact Ht]; subst t;
       apply Z.eqb_eq in E; subst lc2; unfold EOF in Ht; lia | ]).
  - discriminate.
  - apply IH.
Qed.


(** X4.  The tokens of [gettok].  From a state in which [LastChar] is
    [EOF] or a character, the call leaves such a state, never changes
    [NumVal], and returns one of: [tok_eof], with [LastChar] at [EOF];
    [tok_def], [tok_extern] or [tok_identifier], with letters and digits
    only in [IdentifierStr]; or the code of one character that is not white
    space, not a letter and not #.  [IdentifierStr] changes for words
    only. *)
Theorem gettok_token_kinds (st : Lex.state) :
  Lex_wf st ->
  Lex_wf (snd (Lex.gettok st)) /\
  Lex.NumVal (snd (Lex.gettok st)) = Lex.NumVal st /\
  (fst (Lex.gettok st) = tok_eof /\
   Lex.LastChar (snd (Lex.gettok st)) = EOF /\
   Lex.IdentifierStr (snd (Lex.gettok st)) = Lex.IdentifierStr st
   \/
   (fst (Lex.gettok st) = tok_def \/ fst (Lex.gettok st) = tok_extern \/
    fst (Lex.gettok st) = tok_identifier) /\
   all_alnum (Lex.IdentifierStr (snd (Lex.gettok st))) = true
   \/
   0 <= fst (Lex.gettok st) <= 255 /\
   isspace (fst (Lex.gettok st)) = false /\
   isalpha (fst (Lex.gettok st)) = false /\
   fst (Lex.gettok st) <> int_of_char "#" /\
   Lex.IdentifierStr (snd (Lex.gettok st)) = Lex.IdentifierStr st).
Proof.
  intros Hwf.
  destruct (gettok_result_spec st Hwf) as [Hwf' Hres].
  pose proof (gettok_unfold st) as Hu.
  destruct (Lex.gettok st) as [t st'] eqn:Eg. simpl in *.
  split; [exact Hwf'|].
  inversion Hres as [st1 HE Hid Hnv | t1 st1 Hw Hal Hnv | t1 st1 Hr Hid Hnv];
    subst; (split; [exact Hnv|]).
  - left. auto.
  - right. left. auto.
  - right. right.
    destruct (gettok_rec_char_token _ _ _ _ Hu ltac:(lia)) as [H1 [H2 H3]].
    auto.
Qed.

Lemma gettok_token_kinds_witness :
  Lex_wf (Lex.init "x+1") /\
  Lex_wf (snd (Lex.gettok (Lex.init "x+1"))) /\
  Lex.NumVal (snd (Lex.gettok (Lex.init "x+1"))) = Lex.NumVal (Lex.init "x+1").
Proof.
  assert (Lex_wf (Lex.init "x+1")) as Hwf by (unfold Lex_wf; change (Lex.LastChar (Lex.init "x+1")) with 32; lia).
  split; [exact Hwf|].
  destruct (gettok_token_kinds (Lex.init "x+1") Hwf) as [H1 [H2 _]].
  split; [exact H1|exact H2].
Defined.

(** X5.  The token stream of a text ends: after as many calls of [gettok]
    as the text has characters, and one more, every call returns
    [tok_eof]. *)
Theorem token_stream_reaches_eof (input : string) (n : nat) :
  (S (String.length input) <= n)%nat ->
  fst (Lex.gettok (Lex_after n (Lex.init input))) = tok_eof.
Proof.
  intros Hn. apply gettok_reaches_eof.
  unfold Lex_remaining, Lex_remaining_of. simpl. exact Hn.
Qed.

Lemma token_stream_reaches_eof_witness :
  (S (String.length "a b") <= 4)%nat /\
  fst (Lex.gettok (Lex_after 4 (Lex.init "a b"))) = tok_eof.
Proof.
  assert (S (String.length "a b") <= 4)%nat as H by (simpl; lia).
  split; [exact H|exact (token_stream_reaches_eof "a b" 4 H)].
Defined.

End LexerText.

(** ** The parser on token streams *)

Section TokenParsing.
Import Parse.

Lemma at_tokens_next (s : @state token_lexer) t ts :
  at_tokens s (t :: ts) ->
  exists s', getNextTok s = Some (CurTok s', s') /\ at_tokens s' ts /\
             out s' = out s.
Proof.
  intros [Hc [Hr Hv]]. unfold getNextTok. simpl.
  unfold TokLex.gettok. rewrite Hr.
  destruct ts as [|t' ts'].
  - exists (@mk token_lexer tok_eof (lexer s) (out s)).
    split; [reflexivity|]. simpl. rewrite Hr. auto.
  - destruct t' as [c|x|v| |];
      [ exists (@mk token_lexer (int_of_char c)
                  (TokLex.mk ts' (TokLex.IdentifierStr (lexer s))
                             (TokLex.NumVal (lexer s))) (out s))
      | exists (@mk token_lexer tok_identifier
                  (TokLex.mk ts' x (TokLex.NumVal (lexer s))) (out s))
      | exists (@mk token_lexer tok_number
                  (TokLex.mk ts' (TokLex.IdentifierStr (lexer s)) v) (out s))
      | exists (@mk token_lexer tok_def
                  (TokLex.mk ts' "def" (TokLex.NumVal (lexer s))) (out s))
      | exists (@mk token_lexer tok_extern
                  (TokLex.mk ts' "extern" (TokLex.NumVal (lexer s))) (out s)) ];
      (split; [reflexivity|]); simpl; auto.
Qed.

Lemma at_tokens_CurTok (s : @state token_lexer) ts :
  at_tokens s ts ->
  CurTok s = match ts with [] => tok_eof | t :: _ => token_code t end.
Proof. destruct ts; intros H; apply H. Qed.

Lemma ends_expression_head_prec (s : @state token_lexer) rest :
  at_tokens s rest -> ends_expression rest ->
  TokPrecedence (CurTok s) = -1 /\ CurTok s <> int_of_char "(".
Proof.
  intros Hat He. rewrite (at_tokens_CurTok s rest Hat).
  destruct rest as [|t rest]; [split; [reflexivity|discriminate]|exact He].
Qed.

(** An atom is parsed by [ParsePrimary] when no parenthesis follows. *)
Lemma ParsePrimary_atom (s : @state token_lexer) a ts fuel :
  at_tokens s (atom_token a :: ts) ->
  match ts with [] => True | t :: _ => token_code t <> int_of_char "(" end ->
  exists s', ParsePrimary (S (S fuel)) s = Some (Some (atom_ast a), s') /\
             at_tokens s' ts /\ out s' = out s.
Proof.
  intros Hat Hnp.
  destruct (at_tokens_next s _ _ Hat) as [s' [Hn [Hat' Ho]]].
  pose proof (at_tokens_CurTok s' ts Hat') as Hc'.
  destruct Hat as [Hc [Hr Hv]].
  exists s'. split; [|auto].
  destruct a as [v|x]; simpl in *; unfold bind, getCurTok; rewrite Hc; simpl.
  - unfold ParseNumberExpr, bind, getNumVal.
    change (lex_NumVal token_lexer (lexer s)) with (TokLex.NumVal (lexer s)).
    rewrite Hv, Hn. reflexivity.
  - unfold getIdentifierStr.
    change (lex_IdentifierStr token_lexer (lexer s))
      with (TokLex.IdentifierStr (lexer s)).
    rewrite Hv, Hn.
    assert (tok_is "(" (CurTok s') = false) as ->; [|reflexivity].
    unfold tok_is. apply Z.eqb_neq. rewrite Hc'.
    destruct ts; [discriminate|exact Hnp].
Qed.


Lemma descending_head_not_paren chain rest :
  descending chain = true -> ends_expression rest ->
  match (chain_tokens chain ++ rest)%list with
  | [] => True
  | t :: _ => token_code t <> int_of_char "("
  end.
Proof.
  destruct chain as [|[op a] chain]; simpl.
  - intros _ He. destruct rest; [exact I|apply He].
  - intros Hd _ Heq. repeat (apply andb_true_iff in Hd; destruct Hd as [Hd ?]).
    apply Z.ltb_lt in Hd. unfold op_prec in Hd. simpl in Hd.
    rewrite Heq in Hd.
    assert (TokPrecedence (int_of_char "(") = -1) as Hp by reflexivity. lia.
Qed.

Lemma ParseBinOpRHS_chain chain : forall lhs (s : @state token_lexer) rest fuel,
  at_tokens s (chain_tokens chain ++ rest) ->
  descending chain = true -> ends_expression rest ->
  (length chain + 2 <= fuel)%nat ->
  exists s', ParseBinOpRHS fuel 0 (Some lhs) s =
               Some (Some (chain_ast lhs chain), s') /\
             at_tokens s' rest /\ out s' = out s.
Proof.
  induction chain as [|[op a] chain IH]; intros lhs s rest fuel Hat Hd He Hf.
  - simpl in Hat. destruct (ends_expression_head_prec s rest Hat He) as [Hp _].
    destruct fuel as [|fuel]; [simpl in Hf; lia|].
    exists s. simpl. unfold bind, GetTokPrecedence. rewrite Hp. simpl. auto.
  - destruct fuel as [|[|[|fuel]]]; try (simpl in Hf; lia).
    simpl in Hd. apply andb_true_iff in Hd. destruct Hd as [Hd Hd3].
    apply andb_true_iff in Hd. destruct Hd as [Hd1 Hd2].
    apply Z.ltb_lt in Hd1. simpl in Hd1.
    change (chain_tokens ((op, a) :: chain) ++ rest)%list
      with (TChar op :: atom_token a :: (chain_tokens chain ++ rest))%list in Hat.
    pose proof (at_tokens_CurTok s _ Hat) as Hc. simpl in Hc.
    destruct (at_tokens_next s _ _ Hat) as [s1 [Hn [Hat1 Ho1]]].
    destruct (ParsePrimary_atom s1 a _ fuel Hat1
                (descending_head_not_paren chain rest Hd3 He))
      as [s2 [HP [Hat2 Ho2]]].
    assert (TokPrecedence (CurTok s2) <= op_prec op) as Hnext.
    { rewrite (at_tokens_CurTok s2 _ Hat2).
      destruct chain as [|[op' a'] chain'].
      - simpl. destruct rest as [|t rest'];
          [change (TokPrecedence tok_eof) with (-1); lia|].
        destruct He as [-> _]. lia.
      - simpl. simpl in Hd2. apply Z.leb_le in Hd2. exact Hd2. }
    destruct (IH (BinaryExprAST op (Some lhs) (Some (atom_ast a))) s2 rest
                 (S (S fuel)) Hat2 Hd3 He ltac:(simpl in Hf; lia))
      as [s3 [HB [Hat3 Ho3]]].
    exists s3. split; [|split; [exact Hat3|congruence]].
    cbn [ParseBinOpRHS]. unfold bind at 1. unfold GetTokPrecedence at 1.
    rewrite Hc. fold (op_prec op).
    assert ((op_prec op <? 0) = false) as -> by (apply Z.ltb_ge; lia).
    unfold bind at 1. unfold getCurTok at 1.
    unfold bind at 1. rewrite Hn.
    unfold bind at 1. rewrite HP.
    unfold bind at 1. unfold GetTokPrecedence at 1.
    assert ((op_prec op <? TokPrecedence (CurTok s2)) = false) as ->
      by (apply Z.ltb_ge; exact Hnext).
    rewrite Hc, char_of_int_of_char. exact HB.
Qed.


Lemma ParseExpression_chain
    (a0 : atom) (chain : list (ascii * atom)) (rest : list token) (fuel : nat)
    (s : @state token_lexer) :
  at_tokens s (atom_token a0 :: chain_tokens chain ++ rest) ->
  descending chain = true -> ends_expression rest ->
  (length chain + 3 <= fuel)%nat ->
  exists s', ParseExpression fuel s =
               Some (Some (chain_ast (atom_ast a0) chain), s') /\
             at_tokens s' rest /\ out s' = out s.
Proof.
  intros Hat Hd He Hf.
  destruct fuel as [|[|[|fuel]]]; try lia.
  destruct (ParsePrimary_atom s a0 _ fuel Hat
              (descending_head_not_paren chain rest Hd He))
    as [s1 [HP [Hat1 Ho1]]].
  destruct (ParseBinOpRHS_chain chain (atom_ast a0) s1 rest (S (S fuel))
              Hat1 Hd He ltac:(lia)) as [s2 [HB [Hat2 Ho2]]].
  exists s2. split; [|split; [exact Hat2|congruence]].
  cbn [ParseExpression]. unfold bind at 1. rewrite HP. exact HB.
Qed.

Lemma getNextTok_rest (s : @state token_lexer) t rest :
  TokLex.rest (lexer s) = (t :: rest)%list ->
  exists s1, getNextTok s = Some (token_code t, s1) /\
             at_tokens s1 (t :: rest) /\ out s1 = out s.
Proof.
  intros Hr. unfold getNextTok. simpl. unfold TokLex.gettok. rewrite Hr.
  destruct t; (eexists; split; [reflexivity|]); simpl; auto.
Qed.

Lemma ParsePrototypeArgs_names names : forall Fname ArgNames t rest fuel
    (s : @state token_lexer),
  TokLex.rest (lexer s) = (List.map TIdentifier names ++ t :: rest)%list ->
  token_code t <> tok_identifier ->
  (length names + 1 <= fuel)%nat ->
  exists s1, at_tokens s1 (t :: rest) /\ out s1 = out s /\
    ParsePrototypeArgs fuel Fname ArgNames s =
      if tok_is ")" (token_code t) then
        bind getNextTok
             (fun _ => ret (Some (mkPrototypeAST Fname (ArgNames ++ names)%list))) s1
      else LogErrorP "Expected ')' name in prototype" s1.
Proof.
  induction names as [|x names IH]; intros Fname ArgNames t rest fuel s Hr Ht Hf;
    (destruct fuel as [|fuel]; [simpl in Hf; lia|]).
  - simpl in Hr. destruct (getNextTok_rest s t rest Hr) as [s1 [Hn [Hat Ho]]].
    exists s1. split; [exact Hat|]. split; [exact Ho|].
    cbn [ParsePrototypeArgs]. unfold bind at 1. rewrite Hn.
    apply Z.eqb_neq in Ht. rewrite Ht. rewrite app_nil_r.
    destruct (tok_is ")" (token_code t)); reflexivity.
  - simpl in Hr.
    destruct (getNextTok_rest s _ _ Hr) as [s0 [Hn [Hat0 Ho0]]].
    destruct Hat0 as [Hc0 [Hr0 Hv0]].
    destruct (IH Fname (ArgNames ++ [x])%list t rest fuel s0 Hr0 Ht
                 ltac:(simpl in Hf; lia)) as [s1 [Hat [Ho Heq]]].
    exists s1. split; [exact Hat|]. split; [congruence|].
    cbn [ParsePrototypeArgs]. unfold bind at 1. rewrite Hn.
    simpl. unfold bind at 1. unfold getIdentifierStr at 1.
    change (lex_IdentifierStr token_lexer (lexer s0))
      with (TokLex.IdentifierStr (lexer s0)).
    rewrite Hv0, Heq. rewrite <- app_assoc. reflexivity.
Qed.

(** A prototype: the name, the parameter names between parentheses.  When
    the token after the names is not the closing parenthesis the diagnostic
    is printed and that token stays the current one. *)
Lemma ParsePrototype_tokens
    (Fname : string) (ArgNames : list string) (t : token) (rest : list token)
    (fuel : nat) (s : @state token_lexer) :
  at_tokens s (prototype_tokens Fname ArgNames ++ t :: rest) ->
  token_code t <> tok_identifier ->
  (length ArgNames + 1 <= fuel)%nat ->
  (t = TChar ")" ->
   exists s', ParsePrototype fuel s =
                Some (Some (mkPrototypeAST Fname ArgNames), s') /\
              at_tokens s' rest /\ out s' = out s) /\
  (t <> TChar ")" ->
   exists s', ParsePrototype fuel s = Some (None, s') /\
              at_tokens s' (t :: rest) /\
              out s' = (out s ++ ["Log Error: Expected ')' name in prototype"])%list).
Proof.
  intros Hat Ht Hf.
  unfold prototype_tokens in Hat.
  pose proof (at_tokens_CurTok s _ Hat) as Hc. simpl in Hc.
  assert (TokLex.IdentifierStr (lexer s) = Fname) as Hid by apply Hat.
  destruct (at_tokens_next s _ _ Hat) as [s0 [Hn [Hat0 Ho0]]].
  pose proof (at_tokens_CurTok s0 _ Hat0) as Hc0. simpl in Hc0.
  destruct Hat0 as [_ [Hr0 _]].
  destruct (ParsePrototypeArgs_names ArgNames Fname [] t rest fuel s0 Hr0 Ht Hf)
    as [s1 [Hat1 [Ho1 Heq]]].
  assert (ParsePrototype fuel s =
          if tok_is ")" (token_code t) then
            bind getNextTok (fun _ => ret (Some (mkPrototypeAST Fname ArgNames))) s1
          else LogErrorP "Expected ')' name in prototype" s1) as Hrun.
  { unfold ParsePrototype. unfold bind at 1. unfold getCurTok at 1.
    rewrite Hc. simpl.
    unfold bind at 1. unfold getIdentifierStr at 1.
    change (lex_IdentifierStr token_lexer (lexer s))
      with (TokLex.IdentifierStr (lexer s)).
    rewrite Hid. unfold bind at 1. rewrite Hn.
    unfold bind at 1. unfold getCurTok at 1. rewrite Hc0. simpl.
    exact Heq. }
  split.
  - intros ->. rewrite Hrun. simpl.
    destruct (at_tokens_next s1 _ _ Hat1) as [s2 [Hn2 [Hat2 Ho2]]].
    exists s2. unfold bind. rewrite Hn2. split; [reflexivity|].
    split; [exact Hat2|congruence].
  - intros Hne. rewrite Hrun.
    assert (tok_is ")" (token_code t) = false) as ->.
    { unfold tok_is. apply Z.eqb_neq. intros Heq'. apply Hne.
      destruct t as [c| | | |]; try discriminate Heq'.
      simpl in Heq'. f_equal.
      rewrite <- (char_of_int_of_char c), Heq'. reflexivity. }
    eexists. split; [reflexivity|]. split.
    + destruct Hat1 as [H1 [H2 H3]]. simpl. auto.
    + simpl. rewrite Ho1, Ho0. reflexivity.
Qed.


(** X6.  [ParseExpression] on operands joined by operators none of which
    binds tighter than the one before it: the tree nests to the left,
    ((a0 op1 a1) op2 a2) ..., every operand is kept, nothing is printed and
    the parser stops at the first token that is no operator. *)
Theorem ParseExpression_left_associates
    (a0 : atom) (chain : list (ascii * atom)) (rest : list token) (fuel : nat)
    (s : @state token_lexer) :
  at_tokens s (atom_token a0 :: chain_tokens chain ++ rest) ->
  descending chain = true -> ends_expression rest ->
  (length chain + 3 <= fuel)%nat ->
  exists s', ParseExpression fuel s =
               Some (Some (chain_ast (atom_ast a0) chain), s') /\
             at_tokens s' rest /\ out s' = out s.
Proof. apply ParseExpression_chain. Qed.

Lemma ParseExpression_left_associates_witness :
  exists s',
    ParseExpression 5
      (parse_tokens [TNumber (strtod "1"); TChar "*"; TNumber (strtod "2");
                     TChar "-"; TIdentifier "x"]) =
      Some (Some (BinaryExprAST "-"
                    (Some (BinaryExprAST "*" (Some (NumberExprAST (strtod "1")))
                                             (Some (NumberExprAST (strtod "2")))))
                    (Some (VariableExprAST "x"))), s') /\
    at_tokens s' [].
Proof.
  destruct (ParseExpression_left_associates (ANumber (strtod "1"))
              [("*"%char, ANumber (strtod "2")); ("-"%char, AVariable "x")] [] 5
              (parse_tokens [TNumber (strtod "1"); TChar "*"; TNumber (strtod "2");
                             TChar "-"; TIdentifier "x"]))
    as [s' [H [Hat _]]].
  - repeat split.
  - reflexivity.
  - exact I.
  - simpl. lia.
  - exists s'. split; [exact H|exact Hat].
Defined.

Lemma ParseArgs_atoms args : forall a IdName Args0 rest fuel
    (s : @state token_lexer),
  at_tokens s (args_tokens (a :: args) ++ TChar ")" :: rest) ->
  (length args + 4 <= fuel)%nat ->
  exists s', ParseArgs fuel IdName Args0 s =
               Some (Some (CallExprAST IdName
                       (Args0 ++ List.map (fun b => Some (atom_ast b)) (a :: args))),
                     s') /\
             at_tokens s' rest /\ out s' = out s.
Proof.
  induction args as [|b args IH]; intros a IdName Args0 rest fuel s Hat Hf;
    (destruct fuel as [|fuel]; [simpl in Hf; lia|]).
  - change (args_tokens [a] ++ TChar ")" :: rest)%list
      with (atom_token a :: chain_tokens [] ++ TChar ")" :: rest)%list in Hat.
    destruct (ParseExpression_chain a [] (TChar ")" :: rest) fuel s Hat eq_refl
                ltac:(split; [reflexivity|discriminate]) ltac:(simpl in *; lia))
      as [s1 [HE [Hat1 Ho1]]].
    destruct (at_tokens_next s1 _ _ Hat1) as [s2 [Hn [Hat2 Ho2]]].
    pose proof (at_tokens_CurTok s1 _ Hat1) as Hc1. simpl in Hc1.
    exists s2. split; [|split; [exact Hat2|congruence]].
    cbn [ParseArgs]. unfold bind at 1. rewrite HE. simpl.
    unfold bind at 1. unfold getCurTok at 1. rewrite Hc1. simpl.
    unfold bind. rewrite Hn. reflexivity.
  - change (args_tokens (a :: b :: args) ++ TChar ")" :: rest)%list
      with (atom_token a :: chain_tokens [] ++
            TChar "," :: (args_tokens (b :: args) ++ TChar ")" :: rest))%list in Hat.
    destruct (ParseExpression_chain a [] _ fuel s Hat eq_refl
                ltac:(split; [reflexivity|discriminate]) ltac:(simpl in *; lia))
      as [s1 [HE [Hat1 Ho1]]].
    destruct (at_tokens_next s1 _ _ Hat1) as [s2 [Hn [Hat2 Ho2]]].
    pose proof (at_tokens_CurTok s1 _ Hat1) as Hc1. simpl in Hc1.
    destruct (IH b IdName (Args0 ++ [Some (atom_ast a)])%list rest fuel s2 Hat2
                 ltac:(simpl in *; lia)) as [s3 [HA [Hat3 Ho3]]].
    exists s3. split; [|split; [exact Hat3|congruence]].
    cbn [ParseArgs]. unfold bind at 1. rewrite HE. simpl.
    unfold bind at 1. unfold getCurTok at 1. rewrite Hc1. simpl.
    unfold bind at 1. rewrite Hn. rewrite HA.
    rewrite <- app_assoc. reflexivity.
Qed.

(** X7.  [ParsePrimary] on a call: an identifier, an opening parenthesis,
    operands separated by commas and a closing parenthesis give the
    [CallExprAST] of the callee with the operands in order, none null; the
    empty argument list gives a call without arguments. *)
Theorem ParsePrimary_reads_call
    (Callee : string) (args : list atom) (rest : list token) (fuel : nat)
    (s : @state token_lexer) :
  at_tokens s (TIdentifier Callee :: TChar "(" ::
               args_tokens args ++ TChar ")" :: rest) ->
  (length args + 5 <= fuel)%nat ->
  exists s', ParsePrimary fuel s =
               Some (Some (CallExprAST Callee
                             (List.map (fun a => Some (atom_ast a)) args)), s') /\
             at_tokens s' rest /\ out s' = out s.
Proof.
  intros Hat Hf.
  destruct fuel as [|[|fuel]]; try lia.
  pose proof (at_tokens_CurTok s _ Hat) as Hc. simpl in Hc.
  assert (TokLex.IdentifierStr (lexer s) = Callee) as Hid by apply Hat.
  destruct (at_tokens_next s _ _ Hat) as [s1 [Hn1 [Hat1 Ho1]]].
  pose proof (at_tokens_CurTok s1 _ Hat1) as Hc1. simpl in Hc1.
  destruct (at_tokens_next s1 _ _ Hat1) as [s2 [Hn2 [Hat2 Ho2]]].
  assert (ParsePrimary (S (S fuel)) s =
          (bind getCurTok (fun tok =>
             if negb (tok_is ")" tok) then ParseArgs fuel Callee []
             else bind getNextTok (fun _ => ret (Some (CallExprAST Callee []))))) s2)
    as Hrun.
  { cbn [ParsePrimary]. unfold bind at 1. unfold getCurTok at 1. rewrite Hc. simpl.
    unfold bind at 1. unfold getIdentifierStr at 1.
    change (lex_IdentifierStr token_lexer (lexer s))
      with (TokLex.IdentifierStr (lexer s)).
    rewrite Hid. unfold bind at 1. rewrite Hn1.
    unfold bind at 1. unfold getCurTok at 1. rewrite Hc1. simpl.
    unfold bind at 1. rewrite Hn2. reflexivity. }
  rewrite Hrun. clear Hrun.
  destruct args as [|a args].
  - change (args_tokens [] ++ TChar ")" :: rest)%list
      with (TChar ")" :: rest) in Hat2.
    pose proof (at_tokens_CurTok s2 _ Hat2) as Hc2. simpl in Hc2.
    destruct (at_tokens_next s2 _ _ Hat2) as [s3 [Hn3 [Hat3 Ho3]]].
    exists s3. split; [|split; [exact Hat3|congruence]].
    unfold bind at 1. unfold getCurTok at 1. rewrite Hc2. simpl.
    unfold bind. rewrite Hn3. reflexivity.
  - pose proof (at_tokens_CurTok s2 _ Hat2) as Hc2.
    destruct (ParseArgs_atoms args a Callee [] rest fuel s2 Hat2
                ltac:(simpl in Hf; lia)) as [s3 [HA [Hat3 Ho3]]].
    exists s3. split; [|split; [exact Hat3|congruence]].
    unfold bind at 1. unfold getCurTok at 1. rewrite Hc2.
    assert (tok_is ")" (token_code (atom_token a)) = false) as Hnp
      by (destruct a; reflexivity).
    simpl. simpl in Hnp. rewrite Hnp. simpl. exact HA.
Qed.

Lemma ParsePrimary_reads_call_witness :
  exists s',
    ParsePrimary 7
      (parse_tokens [TIdentifier "f"; TChar "("; TNumber (strtod "1"); TChar ",";
                     TIdentifier "x"; TChar ")"]) =
      Some (Some (CallExprAST "f" [Some (NumberExprAST (strtod "1"));
                                   Some (VariableExprAST "x")]), s') /\
    at_tokens s' [].
Proof.
  destruct (ParsePrimary_reads_call "f" [ANumber (strtod "1"); AVariable "x"] [] 7
              (parse_tokens [TIdentifier "f"; TChar "("; TNumber (strtod "1");
                             TChar ","; TIdentifier "x"; TChar ")"]))
    as [s' [H [Hat _]]].
  - repeat split.
  - simpl. lia.
  - exists s'. split; [exact H|exact Hat].
Defined.


(** X8.  [ParsePrimary] on a parenthesised expression: with the closing
    parenthesis in place the result is the tree of the expression inside,
    without a node for the parentheses; with any other token in its place
    the result is null, the diagnostic is printed and that token is not
    consumed. *)
Theorem ParsePrimary_reads_parenthesis
    (a0 : atom) (chain : list (ascii * atom)) (tl : list token) (fuel : nat)
    (s : @state token_lexer) :
  at_tokens s (TChar "(" :: atom_token a0 :: chain_tokens chain ++ tl) ->
  descending chain = true -> ends_expression tl ->
  (length chain + 5 <= fuel)%nat ->
  (forall rest, tl = TChar ")" :: rest ->
     exists s', ParsePrimary fuel s =
                  Some (Some (chain_ast (atom_ast a0) chain), s') /\
                at_tokens s' rest /\ out s' = out s) /\
  ((forall rest, tl <> TChar ")" :: rest) ->
     exists s', ParsePrimary fuel s = Some (None, s') /\
                at_tokens s' tl /\
                out s' = (out s ++ ["Log Error: Expected ')'"])%list).
Proof.
  intros Hat Hd He Hf.
  destruct fuel as [|[|fuel]]; try lia.
  pose proof (at_tokens_CurTok s _ Hat) as Hc. simpl in Hc.
  destruct (at_tokens_next s _ _ Hat) as [s0 [Hn [Hat0 Ho0]]].
  destruct (ParseExpression_chain a0 chain tl fuel s0 Hat0 Hd He ltac:(lia))
    as [s1 [HE [Hat1 Ho1]]].
  assert (ParsePrimary (S (S fuel)) s =
          if negb (tok_is ")" (CurTok s1)) then
            @LogError token_lexer ExprAST "Expected ')'" s1
          else bind getNextTok
                 (fun _ => ret (Some (chain_ast (atom_ast a0) chain))) s1) as Hrun.
  { cbn [ParsePrimary]. unfold bind at 1. unfold getCurTok at 1. rewrite Hc.
    change (int_of_char "(" =? tok_number) with false.
    change (int_of_char "(" =? tok_identifier) with false.
    change (tok_is "(" (int_of_char "(")) with true. cbv iota.
    cbn [ParseParenExpr]. unfold bind at 1. rewrite Hn.
    unfold bind at 1. rewrite HE. unfold bind at 1. unfold getCurTok at 1.
    destruct (negb (tok_is ")" (CurTok s1))); reflexivity. }
  rewrite Hrun. clear Hrun.
  pose proof (at_tokens_CurTok s1 _ Hat1) as Hc1.
  split.
  - intros rest ->. simpl in Hc1. rewrite Hc1.
    change (negb (tok_is ")" (int_of_char ")"))) with false. cbv iota.
    destruct (at_tokens_next s1 _ _ Hat1) as [s2 [Hn2 [Hat2 Ho2]]].
    exists s2. unfold bind. rewrite Hn2. unfold ret.
    split; [reflexivity|]. split; [exact Hat2|congruence].
  - intros Hnot.
    assert (tok_is ")" (CurTok s1) = false) as Et.
    { rewrite Hc1. destruct tl as [|t rest]; [reflexivity|].
      unfold tok_is. apply Z.eqb_neq. intros Heq.
      destruct t as [c|x|v| |]; simpl in Heq; try discriminate Heq.
      apply (Hnot rest). f_equal. f_equal.
      rewrite <- (ascii_N_embedding c), <- (ascii_N_embedding ")").
      f_equal. unfold int_of_char in Heq. lia. }
    rewrite Et. simpl negb. cbv iota. unfold LogError.
    eexists. split; [reflexivity|].
    split; [|simpl; rewrite Ho1, Ho0; reflexivity].
    destruct tl as [|t rest]; simpl in *; exact Hat1.
Qed.

Lemma ParsePrimary_reads_parenthesis_witness :
  exists s',
    ParsePrimary 6
      (parse_tokens [TChar "("; TIdentifier "x"; TChar "+"; TIdentifier "y";
                     TChar ")"]) =
      Some (Some (BinaryExprAST "+" (Some (VariableExprAST "x"))
                                    (Some (VariableExprAST "y"))), s') /\
    at_tokens s' [].
Proof.
  destruct (ParsePrimary_reads_parenthesis (AVariable "x")
              [("+"%char, AVariable "y")] [TChar ")"] 6
              (parse_tokens [TChar "("; TIdentifier "x"; TChar "+";
                             TIdentifier "y"; TChar ")"]))
    as [Hok _].
  - repeat split.
  - reflexivity.
  - split; [reflexivity|vm_compute; discriminate].
  - simpl. lia.
  - destruct (Hok [] eq_refl) as [s' [H [Hat _]]].
    exists s'. split; [exact H|exact Hat].
Defined.

(** X9.  [ParseExtern] reads [extern], the name and the parameter names
    between parentheses, the names separated by white space only, and
    gives the prototype with the names in order.  When the token after the
    names is not the closing parenthesis the result is null, the diagnostic
    is printed and that token stays the current one. *)
Theorem ParseExtern_reads_declaration
    (Fname : string) (ArgNames : list string) (t : token) (rest : list token)
    (fuel : nat) (s : @state token_lexer) :
  at_tokens s (TExtern :: prototype_tokens Fname ArgNames ++ t :: rest) ->
  token_code t <> tok_identifier ->
  (length ArgNames + 1 <= fuel)%nat ->
  (t = TChar ")" ->
   exists s', ParseExtern fuel s =
                Some (Some (mkPrototypeAST Fname ArgNames), s') /\
              at_tokens s' rest /\ out s' = out s) /\
  (t <> TChar ")" ->
   exists s', ParseExtern fuel s = Some (None, s') /\
              at_tokens s' (t :: rest) /\
              out s' = (out s ++ ["Log Error: Expected ')' name in prototype"])%list).
Proof.
  intros Hat Ht Hf.
  destruct (at_tokens_next s _ _ Hat) as [s0 [Hn [Hat0 Ho0]]].
  destruct (ParsePrototype_tokens Fname ArgNames t rest fuel s0 Hat0 Ht Hf)
    as [Hok Herr].
  unfold ParseExtern, bind. rewrite Hn. rewrite <- Ho0.
  split; assumption.
Qed.

Lemma ParseExtern_reads_declaration_witness :
  exists s',
    ParseExtern 3
      (parse_tokens [TExtern; TIdentifier "pow"; TChar "("; TIdentifier "x";
                     TIdentifier "y"; TChar ")"]) =
      Some (Some (mkPrototypeAST "pow" ["x"; "y"]), s') /\
    at_tokens s' [].
Proof.
  destruct (ParseExtern_reads_declaration "pow" ["x"; "y"] (TChar ")") [] 3
              (parse_tokens [TExtern; TIdentifier "pow"; TChar "(";
                             TIdentifier "x"; TIdentifier "y"; TChar ")"]))
    as [Hok _].
  - repeat split.
  - vm_compute. discriminate.
  - simpl. lia.
  - destruct (Hok eq_refl) as [s' [H [Hat _]]].
    exists s'. split; [exact H|exact Hat].
Defined.

(** A definition: [def], a prototype and a body. *)
Lemma ParseDefinition_tokens
    (Fname : string) (ArgNames : list string)
    (a0 : atom) (chain : list (ascii * atom)) (rest : list token) (fuel : nat)
    (s : @state token_lexer) :
  at_tokens s (TDef :: prototype_tokens Fname ArgNames ++ TChar ")" ::
               atom_token a0 :: chain_tokens chain ++ rest) ->
  descending chain = true -> ends_expression rest ->
  (length ArgNames + length chain + 3 <= fuel)%nat ->
  exists s',
    ParseDefinition fuel s =
      Some (Some (mkFunctionAST (Some (mkPrototypeAST Fname ArgNames))
                    (Some (chain_ast (atom_ast a0) chain))), s') /\
    at_tokens s' rest /\ out s' = out s.
Proof.
  intros Hat Hd He Hf.
  destruct (at_tokens_next s _ _ Hat) as [s0 [Hn [Hat0 Ho0]]].
  destruct (ParsePrototype_tokens Fname ArgNames (TChar ")") _ fuel s0
              Hat0 ltac:(simpl; discriminate) ltac:(lia)) as [Hok _].
  destruct (Hok eq_refl) as [s1 [HP [Hat1 Ho1]]].
  destruct (ParseExpression_chain a0 chain rest fuel s1 Hat1 Hd He ltac:(lia))
    as [s2 [HE [Hat2 Ho2]]].
  exists s2. unfold ParseDefinition, bind. rewrite Hn, HP, HE. unfold ret.
  split; [reflexivity|]. split; [exact Hat2|congruence].
Qed.

End TokenParsing.

(** ** The parser consumes its input *)

Section ParserProgress.
Import Parse.

Lemma consumes_getNextTok {B} (k : Z -> M B) s :
  Parse_wf s -> CurTok s <> tok_eof ->
  (forall s', Parse_wf s' -> (Parse_remaining s' < Parse_remaining s)%nat ->
              runs (k (CurTok s')) s') ->
  consumes (bind getNextTok k) s.
Proof.
  intros Hwf Hne Hk.
  destruct (getNextTok_spec s Hwf) as [s' [Hg [Hwf' [Hle Hlt]]]].
  specialize (Hlt Hne).
  destruct (Hk s' Hwf' Hlt) as [r [s'' [Hr [Hwf'' Hle'']]]].
  exists r, s''. unfold bind. rewrite Hg. split; [exact Hr|]. split; [exact Hwf''|lia].
Qed.

Lemma consumes_bind_pure {A B} (m : M A) (k : A -> M B) s r :
  m s = Some (r, s) -> consumes (k r) s -> consumes (bind m k) s.
Proof.
  intros Hm [r' [s' [Hk H]]]. exists r', s'. unfold bind. rewrite Hm. auto.
Qed.

Lemma consumes_then {A B} (m : M A) (k : A -> M B) s :
  consumes m s ->
  (forall r s', m s = Some (r, s') -> Parse_wf s' ->
                (Parse_remaining s' < Parse_remaining s)%nat -> runs (k r) s') ->
  consumes (bind m k) s.
Proof.
  intros [r [s' [Hm [Hwf Hlt]]]] Hk.
  destruct (Hk r s' Hm Hwf Hlt) as [r' [s'' [Hr [Hwf' Hle]]]].
  exists r', s''. unfold bind. rewrite Hm. split; [exact Hr|]. split; [exact Hwf'|lia].
Qed.

Lemma consumes_ParseNumberExpr s :
  Parse_wf s -> CurTok s <> tok_eof -> consumes ParseNumberExpr s.
Proof.
  intros Hwf Hne. unfold ParseNumberExpr.
  eapply consumes_bind_pure; [reflexivity|].
  apply consumes_getNextTok; auto.
  intros s' Hwf' _. apply runs_ret. exact Hwf'.
Qed.

Lemma ParseArgs_runs s fuel IdName Args :
  Parse_wf s -> (4 * Parse_remaining s + 4 <= fuel)%nat ->
  runs (ParseArgs fuel IdName Args) s.
Proof.
  intros Hwf Hf.
  apply (proj2 (proj2 (proj2 (terminates_all (Parse_remaining s))))); auto.
Qed.

Lemma ParseBinOpRHS_runs s fuel ExprPrec LHS :
  Parse_wf s -> 0 <= ExprPrec -> (4 * Parse_remaining s + 1 <= fuel)%nat ->
  runs (ParseBinOpRHS fuel ExprPrec LHS) s.
Proof.
  intros Hwf HE Hf.
  apply (proj1 (proj2 (terminates_all (Parse_remaining s)))); auto.
Qed.

Lemma ParsePrimary_consumes s fuel :
  Parse_wf s -> CurTok s <> tok_eof ->
  (4 * Parse_remaining s + 2 <= fuel)%nat ->
  consumes (ParsePrimary fuel) s.
Proof.
  intros Hwf Hne Hf.
  destruct fuel as [|[|fuel]]; [lia|lia|]. simpl.
  eapply consumes_bind_pure; [reflexivity|].
  destruct (CurTok s =? tok_number); [apply consumes_ParseNumberExpr; auto|].
  destruct (CurTok s =? tok_identifier).
  - eapply consumes_bind_pure; [reflexivity|].
    apply consumes_getNextTok; auto. intros s1 Hwf1 Hlt1.
    eapply runs_bind_pure; [reflexivity|].
    destruct (negb (tok_is "(" (CurTok s1))) eqn:Ep; [apply runs_ret; exact Hwf1|].
    apply (runs_getNextTok _ s1 _ Hwf1 (Nat.le_refl _)).
    intros s2 Hwf2 Hle2 _.
    eapply runs_bind_pure; [reflexivity|].
    destruct (negb (tok_is ")" (CurTok s2))).
    + apply ParseArgs_runs; [exact Hwf2|lia].
    + apply (runs_getNextTok _ s2 _ Hwf2 (Nat.le_refl _)).
      intros s3 Hwf3 _ _. apply runs_ret. exact Hwf3.
  - destruct (tok_is "(" (CurTok s)).
    + apply consumes_getNextTok; auto. intros s1 Hwf1 Hlt1.
      apply runs_bind.
      destruct (ParseExpression_runs s1 fuel Hwf1 ltac:(lia))
        as [V [s2 [HV [Hwf2 Hle2]]]].
      exists V, s2. split; [exact HV|]. split; [exact Hle2|].
      destruct V as [V|]; [|apply runs_ret; exact Hwf2].
      eapply runs_bind_pure; [reflexivity|].
      destruct (negb (tok_is ")" (CurTok s2))); [apply runs_LogError; exact Hwf2|].
      apply (runs_getNextTok _ s2 _ Hwf2 (Nat.le_refl _)).
      intros s3 Hwf3 _ _. apply runs_ret. exact Hwf3.
    + assert (@LogError stdin_lexer ExprAST "Unkown token while parsing!" s =
              Some (None, mk (CurTok s) (lexer s)
                      (out s ++ ["Log Error: Unkown token while parsing!"])%list))
        as HL by reflexivity.
      destruct (consumes_ParseNumberExpr
                  (mk (CurTok s) (lexer s)
                      (out s ++ ["Log Error: Unkown token while parsing!"])%list)
                  Hwf Hne) as [r [s' [Hr [Hwf' Hlt]]]].
      exists r, s'. unfold bind. rewrite HL. auto.
Qed.

Lemma ParseExpression_consumes s fuel :
  Parse_wf s -> CurTok s <> tok_eof ->
  (4 * Parse_remaining s + 3 <= fuel)%nat ->
  consumes (ParseExpression fuel) s.
Proof.
  intros Hwf Hne Hf. destruct fuel as [|fuel]; [lia|]. simpl.
  apply consumes_then; [apply ParsePrimary_consumes; auto; lia|].
  intros LHS s1 _ Hwf1 Hlt1.
  destruct LHS; [|apply runs_ret; exact Hwf1].
  apply ParseBinOpRHS_runs; [exact Hwf1|lia|lia].
Qed.

Lemma entry_points_consume s fuel :
  Parse_wf s -> CurTok s <> tok_eof ->
  (4 * Parse_remaining s + 3 <= fuel)%nat ->
  consumes (ParseTopLevelExpr fuel) s /\
  consumes (ParseDefinition fuel) s /\
  consumes (ParseExtern fuel) s.
Proof.
  intros Hwf Hne Hf. split; [|split].
  - unfold ParseTopLevelExpr.
    apply consumes_then; [apply ParseExpression_consumes; auto|].
    intros E s1 _ Hwf1 _. destruct E; apply runs_ret; exact Hwf1.
  - unfold ParseDefinition. apply consumes_getNextTok; auto.
    intros s1 Hwf1 Hlt1. apply runs_bind.
    destruct (ParsePrototype_runs s1 fuel Hwf1 ltac:(lia)) as [P [s2 [HP [Hwf2 Hle2]]]].
    exists P, s2. split; [exact HP|]. split; [exact Hle2|].
    destruct P as [P|]; [|apply runs_ret; exact Hwf2].
    apply runs_bind.
    destruct (ParseExpression_runs s2 fuel Hwf2 ltac:(lia)) as [E [s3 [HE [Hwf3 Hle3]]]].
    exists E, s3. split; [exact HE|]. split; [exact Hle3|].
    destruct E; apply runs_ret; exact Hwf3.
  - unfold ParseExtern. apply consumes_getNextTok; auto.
    intros s1 Hwf1 Hlt1. apply ParsePrototype_runs; [exact Hwf1|lia].
Qed.

(** X10.  The three entry points of the parser return on every source
    text, with a result that does not depend on the fuel once there is
    enough of it, and they consume input: unless the current token is
    [tok_eof] already, less is left to read afterwards.  So every turn of
    [MainLoop] makes progress. *)
Theorem parser_returns_one_result (s : @state stdin_lexer) :
  Parse_wf s ->
  exists rE rD rX,
    (forall fuel, (4 * Parse_remaining s + 3 <= fuel)%nat ->
       ParseTopLevelExpr fuel s = Some rE /\
       ParseDefinition fuel s = Some rD /\
       ParseExtern fuel s = Some rX) /\
    Parse_wf (snd rE) /\ Parse_wf (snd rD) /\ Parse_wf (snd rX) /\
    (Parse_remaining (snd rE) <= Parse_remaining s)%nat /\
    (Parse_remaining (snd rD) <= Parse_remaining s)%nat /\
    (Parse_remaining (snd rX) <= Parse_remaining s)%nat /\
    (CurTok s <> tok_eof ->
     (Parse_remaining (snd rE) < Parse_remaining s)%nat /\
     (Parse_remaining (snd rD) < Parse_remaining s)%nat /\
     (Parse_remaining (snd rX) < Parse_remaining s)%nat).
Proof.
  intros Hwf.
  set (b := (4 * Parse_remaining s + 3)%nat).
  destruct (parser_terminates s b Hwf (Nat.le_refl _))
    as [[rE [sE [HE [HwE HlE]]]] [[rD [sD [HD [HwD HlD]]]] [rX [sX [HX [HwX HlX]]]]]].
  exists (rE, sE), (rD, sD), (rX, sX). simpl.
  split; [|repeat (split; [assumption|])].
  - intros fuel Hf.
    destruct (@parser_fuel_irrelevant stdin_lexer b fuel Hf) as [_ [H1 [H2 H3]]].
    split; [apply H1; exact HE|]. split; [apply H2; exact HD|apply H3; exact HX].
  - intros Hne.
    destruct (entry_points_consume s b Hwf Hne (Nat.le_refl _))
      as [[r1 [s1 [H1 [_ L1]]]] [[r2 [s2 [H2 [_ L2]]]] [r3 [s3 [H3 [_ L3]]]]]].
    rewrite HE in H1. rewrite HD in H2. rewrite HX in H3.
    inversion H1; inversion H2; inversion H3; subst. auto.
Qed.

Lemma parser_returns_one_result_witness :
  Parse_wf (parse_text "f(x)") /\
  exists rE,
    (forall fuel, (4 * Parse_remaining (parse_text "f(x)") + 3 <= fuel)%nat ->
       ParseTopLevelExpr fuel (parse_text "f(x)") = Some rE) /\
    (Parse_remaining (snd rE) < Parse_remaining (parse_text "f(x)"))%nat.
Proof.
  assert (Parse_wf (parse_text "f(x)")) as Hwf
    by (intros H; vm_compute in H; discriminate H).
  split; [exact Hwf|].
  destruct (parser_returns_one_result (parse_text "f(x)") Hwf)
    as [rE [rD [rX [Hrun [_ [_ [_ [_ [_ [_ Hlt]]]]]]]]]].
  exists rE. split.
  - intros fuel Hf. apply (Hrun fuel Hf).
  - apply Hlt. vm_compute. discriminate.
Defined.

End ParserProgress.

(** ** The trees the parser builds *)

Section ParserShape.
Import Parse.
Context {L : Lexer}.

Lemma post_bind {A B} (Q : A -> Prop) (P : B -> Prop) (m : @M L A) (k : A -> M B) :
  post Q m -> (forall a, Q a -> post P (k a)) -> post P (bind m k).
Proof.
  intros Hm Hk s r s'. unfold bind.
  destruct (m s) as [[a s1]|] eqn:E; [|discriminate].
  apply Hk. eapply Hm; eauto.
Qed.

Lemma post_any {A B} (P : B -> Prop) (m : @M L A) (k : A -> M B) :
  (forall a, post P (k a)) -> post P (bind m k).
Proof.
  intros Hk. apply (post_bind (fun _ => True)); [intros ? ? ? _; exact I|].
  intros a _. apply Hk.
Qed.

Lemma post_ret {A} (P : A -> Prop) (a : A) : P a -> post P (@ret L A a).
Proof. intros H s r s' E. inversion E; subst. exact H. Qed.

Lemma post_LogError {A} (P : option A -> Prop) Str :
  P None -> post P (@LogError L A Str).
Proof. intros H s r s' E. inversion E; subst. exact H. Qed.

Lemma post_out_of_fuel {A} (P : A -> Prop) : post P (@out_of_fuel L A).
Proof. intros s r s' E. discriminate E. Qed.

Lemma post_ParseNumberExpr : post shape_opt (@ParseNumberExpr L).
Proof.
  unfold ParseNumberExpr. apply post_any. intros v. apply post_any. intros _.
  apply post_ret. reflexivity.
Qed.

Lemma TokPrecedence_binop (tok : Z) :
  0 <= TokPrecedence tok -> is_binop (char_of_int tok) = true.
Proof.
  intros H.
  assert (0 <= tok <= 127) as Hr.
  { unfold TokPrecedence in H. destruct (isascii tok) eqn:E; simpl in H; [|lia].
    unfold isascii in E. lia. }
  assert (tok = int_of_char (char_of_int tok)) as Heq
    by (symmetry; apply int_of_char_of_int; lia).
  rewrite Heq in H.
  destruct (TokPrecedence_range (int_of_char (char_of_int tok))) as [Hm|Hp]; [lia|].
  apply TokPrecedence_operator in Hp.
  destruct Hp as [-> | [-> | [-> | ->]]]; reflexivity.
Qed.

Lemma shape_args_snoc Args a :
  shape_args Args -> parsed_shape a = true -> shape_args (Args ++ [Some a]).
Proof.
  unfold shape_args. intros HA Ha. rewrite forallb_app, HA. simpl. rewrite Ha.
  reflexivity.
Qed.

Lemma shapes_all n : shapes L n.
Proof.
  induction n as [|n [HE [HP [HPa [HI [HA HB]]]]]].
  - repeat split; intros; apply post_out_of_fuel.
  - assert (post shape_opt (@ParsePrimary L (S n))) as HP'.
    { simpl. apply post_any. intros tok.
      destruct (tok =? tok_number); [apply post_ParseNumberExpr|].
      destruct (tok =? tok_identifier); [exact HI|].
      destruct (tok_is "(" tok); [exact HPa|].
      apply post_any. intros _. apply post_ParseNumberExpr. }
    repeat split.
    + simpl. apply (post_bind shape_opt); [exact HP|].
      intros [l|] Hl; [|apply post_ret; exact I].
      apply HB; [lia|exact Hl].
    + exact HP'.
    + simpl. apply post_any. intros _.
      apply (post_bind shape_opt); [exact HE|].
      intros [V|] HV; [|apply post_ret; exact I].
      apply post_any. intros tok.
      destruct (negb (tok_is ")" tok)); [apply post_LogError; exact I|].
      apply post_any. intros _. apply post_ret. exact HV.
    + simpl. apply post_any. intros Id. apply post_any. intros _.
      apply post_any. intros tok.
      destruct (negb (tok_is "(" tok)); [apply post_ret; reflexivity|].
      apply post_any. intros _. apply post_any. intros tok'.
      destruct (negb (tok_is ")" tok')); [apply HA; reflexivity|].
      apply post_any. intros _. apply post_ret. reflexivity.
    + intros Id Args HArgs. simpl.
      apply (post_bind shape_opt); [exact HE|].
      intros [a|] Ha; [|apply post_ret; exact I].
      pose proof (shape_args_snoc Args a HArgs Ha) as HArgs'.
      apply post_any. intros tok.
      destruct (tok_is ")" tok).
      * apply post_any. intros _. apply post_ret. exact HArgs'.
      * destruct (negb (tok_is "," tok)); [apply post_LogError; exact I|].
        apply post_any. intros _. apply HA. exact HArgs'.
    + intros E LHS HE0 HL s r s'. simpl. unfold bind at 1. unfold GetTokPrecedence at 1.
      destruct (TokPrecedence (CurTok s) <? E) eqn:Ec.
      { intros H. inversion H; subst. exact HL. }
      apply Z.ltb_ge in Ec.
      assert (is_binop (char_of_int (CurTok s)) = true) as Hop
        by (apply TokPrecedence_binop; lia).
      unfold bind at 1. unfold getCurTok at 1.
      match goal with
      | |- ?X s = Some (r, s') -> _ =>
          cut (post shape_opt X); [intros Hp; exact (Hp s r s')|]
      end.
      apply post_any. intros _.
      apply (post_bind shape_opt); [exact HP|].
      intros [R|] HR; [|apply post_ret; exact I].
      apply post_any. intros NextPrec.
      destruct (TokPrecedence (CurTok s) <? NextPrec).
      * apply (post_bind shape_opt); [apply HB; [lia|exact HL]|].
        intros [R'|] HR'; [|apply post_ret; exact I].
        apply HB; [exact HE0|]. simpl. rewrite Hop, HR'. reflexivity.
      * apply HB; [exact HE0|]. simpl. rewrite Hop, HR.
        destruct LHS as [l|]; simpl in *; [rewrite HL|]; reflexivity.
Qed.

(** X11.  The trees [ParseExpression] returns, on any lexer: every binary
    node has one of the operators <, +, -, * and a right operand, and every
    argument of a call is there.  The only null pointer a parsed tree can
    hold is a left operand. *)
Theorem parsed_trees_have_shape (fuel : nat) (s s' : @state L) (e : ExprAST) :
  ParseExpression fuel s = Some (Some e, s') -> parsed_shape e = true.
Proof.
  intros H. exact (proj1 (shapes_all fuel) s (Some e) s' H).
Qed.

End ParserShape.

Section ParserShapeWitness.
Import Parse.

Lemma parsed_trees_have_shape_witness :
  exists e s',
    ParseExpression 6
      (parse_tokens [TNumber (strtod "1"); TChar "+"; TNumber (strtod "2");
                     TChar "*"; TNumber (strtod "3")]) = Some (Some e, s') /\
    parsed_shape e = true.
Proof.
  assert (match ParseExpression 6
                  (parse_tokens [TNumber (strtod "1"); TChar "+";
                                 TNumber (strtod "2"); TChar "*";
                                 TNumber (strtod "3")]) with
          | Some (Some _, _) => true
          | _ => false
          end = true) as Hd by (vm_compute; reflexivity).
  destruct (ParseExpression 6
              (parse_tokens [TNumber (strtod "1"); TChar "+"; TNumber (strtod "2");
                             TChar "*"; TNumber (strtod "3")]))
    as [[[e|] s']|] eqn:E; [|discriminate Hd|discriminate Hd].
  exists e, s'. split; [reflexivity|].
  exact (parsed_trees_have_shape (L:=token_lexer) 6 _ s' e E).
Defined.

End ParserShapeWitness.

(** ** What lowering an expression does to the state *)

Section LoweringSteps.
Import CG.

Lemma step_refl s V : lowering_step s (Some V) s.
Proof.
  split; [apply same_module_refl|]. split; [exists []; rewrite app_nil_r; reflexivity|].
  split; [reflexivity|]. exists []. rewrite app_nil_r. split; [reflexivity|].
  split; [discriminate|intros H; contradiction].
Qed.

Lemma step_seq_ok s V s1 r s2 :
  lowering_step s (Some V) s1 -> lowering_step s1 r s2 -> lowering_step s r s2.
Proof.
  intros [M1 [[V1 B1] [N1 [m1 [O1 I1]]]]] [M2 [[V2 B2] [N2 [m2 [O2 I2]]]]].
  assert (m1 = []) as ->.
  { destruct m1; [reflexivity|]. exfalso.
    assert (Some V = None) as H by (apply I1; discriminate). discriminate H. }
  rewrite app_nil_r in O1.
  split; [eapply same_module_trans; eauto|].
  split; [exists (V1 ++ V2)%list; rewrite B2, B1, app_assoc; reflexivity|].
  split; [intros x; rewrite N2; apply N1|].
  exists m2. rewrite O2, O1. auto.
Qed.

Lemma step_seq_fail s r1 s1 r2 s2 :
  lowering_step s r1 s1 -> lowering_step s1 r2 s2 -> r1 = None \/ r2 = None ->
  lowering_step s None s2.
Proof.
  intros [M1 [[V1 B1] [N1 [m1 [O1 I1]]]]] [M2 [[V2 B2] [N2 [m2 [O2 I2]]]]] Hf.
  split; [eapply same_module_trans; eauto|].
  split; [exists (V1 ++ V2)%list; rewrite B2, B1, app_assoc; reflexivity|].
  split; [intros x; rewrite N2; apply N1|].
  exists (m1 ++ m2)%list. rewrite O2, O1, app_assoc.
  split; [reflexivity|]. split; [|reflexivity].
  intros _ Hnil. apply app_eq_nil in Hnil. destruct Hnil as [-> ->].
  destruct Hf as [Hf|Hf]; [apply I1 in Hf|apply I2 in Hf]; apply Hf; reflexivity.
Qed.

Lemma step_Create V v s s' :
  Create V s = Some (v, s') -> lowering_step s (Some v) s'.
Proof.
  unfold Create. intros H; inversion H; subst.
  split; [repeat split|]. split; [exists [v]; reflexivity|].
  split; [reflexivity|]. exists []. simpl. rewrite app_nil_r.
  split; [reflexivity|]. split; [discriminate|intros E; contradiction].
Qed.

Lemma step_LogErrorV Str r s s' :
  LogErrorV Str s = Some (r, s') -> lowering_step s None s' /\ r = None.
Proof.
  unfold LogErrorV. intros H; inversion H; subst. split; [|reflexivity].
  split; [repeat split|]. split; [exists []; simpl; rewrite app_nil_r; reflexivity|].
  split; [reflexivity|]. eexists. simpl. split; [reflexivity|].
  split; [discriminate|reflexivity].
Qed.

Lemma step_binop Op L R r s s' :
  codegen_binop Op L R s = Some (r, s') -> lowering_step s r s'.
Proof.
  unfold codegen_binop.
  destruct (Ascii.eqb Op "+");
    [|destruct (Ascii.eqb Op "-");
      [|destruct (Ascii.eqb Op "*"); [|destruct (Ascii.eqb Op "<")]]].
  1-3: unfold bind, Create, ret; simpl; intros H; inversion H; subst;
       eapply step_Create; reflexivity.
  - unfold bind, Create, ret; simpl. intros H. inversion H; subst.
    eapply step_seq_ok; eapply step_Create; reflexivity.
  - intros H. apply step_LogErrorV in H. destruct H as [H ->]. exact H.
Qed.

Lemma step_args (cg : ExprAST -> M (option Value)) CalleeF Args :
  (forall a, In (Some a) Args ->
     forall r s s', cg a s = Some (r, s') -> lowering_step s r s') ->
  forall ArgsV r s s',
    codegen_args cg CalleeF Args ArgsV s = Some (r, s') -> lowering_step s r s'.
Proof.
  induction Args as [|[a|] Args IH]; intros Hcg ArgsV r s s'; simpl.
  - unfold bind. intros H.
    destruct (Create _ s) as [[v s1]|] eqn:E; [|discriminate].
    unfold ret in H. inversion H; subst. eapply step_Create; eauto.
  - unfold bind. destruct (cg a s) as [[[V|] s1]|] eqn:E; try discriminate.
    + intros H. eapply step_seq_ok.
      * eapply Hcg; [left; reflexivity|exact E].
      * eapply IH; [|exact H]. intros b Hb. apply Hcg. right; exact Hb.
    + unfold ret. intros H; inversion H; subst.
      eapply Hcg; [left; reflexivity|exact E].
  - unfold bind, undefined. discriminate.
Qed.

Lemma step_codegen e : forall r s s',
  codegen e s = Some (r, s') -> lowering_step s r s'.
Proof.
  induction e as [Val | Name | Op LHS RHS IHL IHR | Callee Args IH]
    using ExprAST_induction; intros r s s'; simpl.
  - unfold ret. intros H; inversion H; subst. apply step_refl.
  - unfold bind, NamedValues_at.
    destruct (NamedValues s !! Name) as [[V|]|] eqn:En; unfold ret, LogErrorV; simpl;
      intros H; inversion H; subst.
    + apply step_refl.
    + split; [repeat split|]. split; [exists []; simpl; rewrite app_nil_r; reflexivity|].
      split; [reflexivity|]. eexists. simpl. split; [reflexivity|].
      split; [discriminate|reflexivity].
    + split; [repeat split|]. split; [exists []; simpl; rewrite app_nil_r; reflexivity|].
      split.
      * intros x. unfold bound. simpl.
        destruct (decide (Name = x)) as [->|Hne].
        -- rewrite lookup_insert_eq, En. reflexivity.
        -- rewrite lookup_insert_ne by exact Hne. reflexivity.
      * eexists. simpl. split; [reflexivity|]. split; [discriminate|reflexivity].
  - unfold bind. destruct LHS as [l|]; simpl; [|discriminate].
    destruct (codegen l s) as [[L s1]|] eqn:EL; [|discriminate].
    destruct RHS as [r0|]; simpl; [|discriminate].
    destruct (codegen r0 s1) as [[R s2]|] eqn:ER; [|discriminate].
    apply (IHL l eq_refl) in EL. apply (IHR r0 eq_refl) in ER.
    destruct L as [L|], R as [R|]; unfold ret;
      try (intros H; inversion H; subst; eapply step_seq_fail; eauto; fail).
    intros H. apply step_binop in H.
    eapply step_seq_ok; [exact EL|]. eapply step_seq_ok; eauto.
  - unfold bind, getFunction.
    destruct (lookup_function Callee (TheModule s)) as [F|].
    + destruct (negb _).
      * intros H. apply step_LogErrorV in H. destruct H as [H ->]. exact H.
      * apply step_args. exact IH.
    + intros H. apply step_LogErrorV in H. destruct H as [H ->]. exact H.
Qed.

(** X12.  Lowering an expression, whatever the result, leaves the module,
    its counters and the insertion point as they are, only adds to the
    instructions built, and leaves every name of [NamedValues] with the
    value it had (a name looked up and not found is added, with a null
    value). *)
Theorem codegen_touches_only_logs (e : ExprAST) (r : option Value) (s s' : state) :
  codegen e s = Some (r, s') ->
  TheModule s' = TheModule s /\ LastUnique s' = LastUnique s /\
  allocated s' = allocated s /\ InsertPoint s' = InsertPoint s /\
  (exists Vs, built s' = (built s ++ Vs)%list) /\
  (forall x, bound s' x = bound s x).
Proof.
  intros H. apply step_codegen in H.
  destruct H as [[M1 [M2 [M3 M4]]] [HB [HN _]]]. auto 10.
Qed.

Lemma codegen_touches_only_logs_witness :
  codegen (VariableExprAST "x") init =
    Some (None, CG_printed (mk [] 0 0 (<["x" := None]> ∅) None [] [])
                           "Log Error: Unkown variable name!") /\
  forall y, bound (CG_printed (mk [] 0 0 (<["x" := None]> ∅) None [] [])
                              "Log Error: Unkown variable name!") y
            = bound init y.
Proof.
  assert (codegen (VariableExprAST "x") init =
          Some (None, CG_printed (mk [] 0 0 (<["x" := None]> ∅) None [] [])
                                 "Log Error: Unkown variable name!")) as H
    by reflexivity.
  split; [exact H|].
  destruct (codegen_touches_only_logs _ _ _ _ H) as [_ [_ [_ [_ [_ Hb]]]]].
  exact Hb.
Defined.

(** X13.  Lowering an expression only adds lines to the output, and it
    returns a null value exactly when it has printed one: no failure is
    silent, and no diagnostic comes with a value. *)
Theorem codegen_fails_iff_reports (e : ExprAST) (r : option Value) (s s' : state) :
  codegen e s = Some (r, s') ->
  exists msgs, out s' = (out s ++ msgs)%list /\ (r = None <-> msgs <> []).
Proof.
  intros H. apply step_codegen in H. apply H.
Qed.

Lemma codegen_fails_iff_reports_witness :
  codegen (CallExprAST "f" []) init =
    Some (None, CG_printed init "Log Error: Unkown function referenced!") /\
  exists msgs,
    out (CG_printed init "Log Error: Unkown function referenced!") =
      (out init ++ msgs)%list /\
    msgs <> [].
Proof.
  assert (codegen (CallExprAST "f" []) init =
          Some (None, CG_printed init "Log Error: Unkown function referenced!"))
    as H by reflexivity.
  split; [exact H|].
  destruct (codegen_fails_iff_reports _ _ _ _ H) as [msgs [Ho Hiff]].
  exists msgs. split; [exact Ho|]. apply Hiff. reflexivity.
Defined.


Lemma codegen_args_defined (cg : ExprAST -> M (option Value)) CalleeF Args :
  (forall a, In (Some a) Args -> forall s, exists r s', cg a s = Some (r, s')) ->
  forallb (fun a => match a with Some _ => true | None => false end) Args = true ->
  forall ArgsV s, exists r s', codegen_args cg CalleeF Args ArgsV s = Some (r, s').
Proof.
  induction Args as [|[a|] Args IH]; intros Hcg Hnn ArgsV s; simpl.
  - eexists. eexists. reflexivity.
  - unfold bind. destruct (Hcg a (or_introl eq_refl) s) as [[V|] [s1 E]]; rewrite E.
    + apply IH; [intros b Hb; apply Hcg; right; exact Hb|exact Hnn].
    + eexists. eexists. reflexivity.
  - discriminate Hnn.
Qed.

Lemma forallb_no_null_some Args :
  forallb (fun a => match a with Some e => no_null e | None => false end) Args = true ->
  forallb (fun a : option ExprAST => match a with Some _ => true | None => false end)
          Args = true /\
  (forall a, In (Some a) Args -> no_null a = true).
Proof.
  induction Args as [|[a|] Args IH]; simpl; intros H.
  - split; [reflexivity|intros a []].
  - apply andb_true_iff in H. destruct H as [Ha H]. destruct (IH H) as [H1 H2].
    split; [exact H1|]. intros b [Hb|Hb]; [inversion Hb; subst; exact Ha|auto].
  - discriminate H.
Qed.

Lemma codegen_defined e :
  no_null e = true -> forall s, exists r s', codegen e s = Some (r, s').
Proof.
  induction e as [Val | Name | Op LHS RHS IHL IHR | Callee Args IH]
    using ExprAST_induction; intros Hn s; simpl.
  - eexists. eexists. reflexivity.
  - unfold bind, NamedValues_at.
    destruct (NamedValues s !! Name) as [[V|]|]; eexists; eexists; reflexivity.
  - simpl in Hn. destruct LHS as [l|]; [|discriminate Hn].
    destruct RHS as [r0|]; [|rewrite andb_false_r in Hn; discriminate Hn].
    apply andb_true_iff in Hn. destruct Hn as [Hl Hr].
    unfold bind. simpl.
    destruct (IHL l eq_refl Hl s) as [L [s1 EL]]. rewrite EL.
    destruct (IHR r0 eq_refl Hr s1) as [R [s2 ER]]. rewrite ER.
    destruct L as [L|], R as [R|]; try (eexists; eexists; reflexivity).
    unfold codegen_binop.
    repeat match goal with
           | |- context [Ascii.eqb Op ?c] => destruct (Ascii.eqb Op c)
           end; eexists; eexists; reflexivity.
  - simpl in Hn. apply forallb_no_null_some in Hn. destruct Hn as [Hsome Hall].
    unfold bind, getFunction.
    destruct (lookup_function Callee (TheModule s)) as [F|];
      [|eexists; eexists; reflexivity].
    destruct (negb _); [eexists; eexists; reflexivity|].
    apply codegen_args_defined; [|exact Hsome].
    intros a Ha. apply IH; [exact Ha|]. apply Hall. exact Ha.
Qed.



Lemma setArgNames_length Args : forall named LU,
  length (setArgNames Args named LU) = (length named + length Args)%nat.
Proof.
  induction Args as [|a Args IH]; intros named LU; simpl; [lia|].
  destruct (createValueName named a "" LU) as [a' LU'].
  rewrite IH, length_app. simpl. lia.
Qed.

Lemma lookup_function_None Name fs :
  Name <> "" -> lookup_function Name fs = None -> ~ In Name (List.map fname fs).
Proof.
  intros Hne. unfold lookup_function.
  destruct (decide (Name = "")); [contradiction|].
  intros H Hin. apply List.in_map_iff in Hin. destruct Hin as [G [HG Hin]].
  apply (List.find_none _ _ H) in Hin. rewrite HG, String.eqb_refl in Hin.
  discriminate Hin.
Qed.

Lemma lookup_function_snoc Name fs F :
  Name <> "" -> lookup_function Name fs = None -> fname F = Name ->
  lookup_function Name (fs ++ [F]) = Some F.
Proof.
  intros Hne. unfold lookup_function.
  destruct (decide (Name = "")); [contradiction|].
  intros H HF. induction fs as [|G fs IH]; simpl in *.
  - rewrite HF, String.eqb_refl. reflexivity.
  - destruct (String.eqb (fname G) Name); [discriminate|auto].
Qed.

Lemma codegen_args_numbers CalleeF (vals : list double) : forall ArgsV s,
  codegen_args codegen CalleeF
    (List.map (fun v => Some (NumberExprAST v)) vals) ArgsV s =
  Some (Some (Call (handle CalleeF) (ArgsV ++ List.map ConstantFP vals)),
        CG_built s (Call (handle CalleeF) (ArgsV ++ List.map ConstantFP vals))).
Proof.
  induction vals as [|v vals IH]; intros ArgsV s; simpl.
  - rewrite app_nil_r. reflexivity.
  - unfold bind, ret. simpl. rewrite IH, <- app_assoc. reflexivity.
Qed.

(** X15.  A declaration makes its name callable.  After
    [PrototypeAST::codegen] for a name that is not in the module, the name
    is bound to the new function, which has as many parameters as the
    prototype has names; a call of it with numbers as arguments builds the
    call instruction when the number of arguments is that number, and
    prints the diagnostic otherwise. *)
Theorem declared_function_is_callable (P : PrototypeAST) (s : state)
    (vals : list double) :
  handles_below s ->
  getName P <> "" ->
  lookup_function (getName P) (TheModule s) = None ->
  exists F s1,
    PrototypeAST_codegen P s = Some (Some F, s1) /\
    fname F = getName P /\
    length (fargs F) = length (protoArgs P) /\
    lookup_function (getName P) (TheModule s1) = Some F /\
    codegen (CallExprAST (getName P)
               (List.map (fun v => Some (NumberExprAST v)) vals)) s1 =
      if Nat.eqb (length (protoArgs P)) (length vals)
      then Some (Some (Call (handle F) (List.map ConstantFP vals)),
                 CG_built s1 (Call (handle F) (List.map ConstantFP vals)))
      else Some (None, CG_printed s1 "Log Error: Incorrect argument number!").
Proof.
  intros Hb Hne Hnew.
  destruct (PrototypeAST_codegen_appends P s Hb) as [s1 [HP [Hm _]]].
  exists (CG_created P s), s1.
  assert (fname (CG_created P s) = getName P) as Hname.
  { simpl. unfold createValueName.
    destruct (decide (getName P = "")); [contradiction|].
    rewrite bool_decide_eq_false_2; [reflexivity|].
    intros Hin. apply list_elem_of_In in Hin.
    exact (lookup_function_None _ _ Hne Hnew Hin). }
  assert (length (fargs (CG_created P s)) = length (protoArgs P)) as Hlen
    by (simpl; rewrite setArgNames_length; reflexivity).
  assert (lookup_function (getName P) (TheModule s1) = Some (CG_created P s))
    as Hlook by (rewrite Hm; apply lookup_function_snoc; assumption).
  split; [exact HP|]. split; [exact Hname|]. split; [exact Hlen|].
  split; [exact Hlook|].
  cbn [codegen]. unfold bind at 1, getFunction.
  rewrite Hlook, Hlen, List.length_map.
  destruct (Nat.eqb (length (protoArgs P)) (length vals)); simpl negb; cbv iota.
  - apply (codegen_args_numbers (CG_created P s) vals [] s1).
  - reflexivity.
Qed.

Lemma declared_function_is_callable_witness :
  exists F s1,
    PrototypeAST_codegen (mkPrototypeAST "foo" ["a"; "b"]) init = Some (Some F, s1) /\
    codegen (CallExprAST "foo" [Some (NumberExprAST double_zero);
                                Some (NumberExprAST double_zero)]) s1 =
      Some (Some (Call (handle F) [ConstantFP double_zero; ConstantFP double_zero]),
            CG_built s1 (Call (handle F)
                           [ConstantFP double_zero; ConstantFP double_zero])).
Proof.
  assert (handles_below init) as Hb by (intros F []).
  assert (getName (mkPrototypeAST "foo" ["a"; "b"]) <> "") as Hne
    by (simpl; discriminate).
  destruct (declared_function_is_callable (mkPrototypeAST "foo" ["a"; "b"]) init
              [double_zero; double_zero] Hb Hne eq_refl)
    as [F [s1 [HP [_ [_ [_ Hcall]]]]]].
  exists F, s1. split; [exact HP|exact Hcall].
Defined.
End LoweringSteps.

(** ** The driver *)

Section DriverFacts.
Import Parse.

Lemma parser_settles (p : @state stdin_lexer) :
  Parse_wf p ->
  settles ParseTopLevelExpr p /\ settles ParseDefinition p /\
  settles ParseExtern p.
Proof.
  intros Hwf.
  set (b := (4 * Parse_remaining p + 3)%nat).
  destruct (parser_terminates p b Hwf (Nat.le_refl _))
    as [[rE [sE [HE [HwE HlE]]]] [[rD [sD [HD [HwD HlD]]]] [rX [sX [HX [HwX HlX]]]]]].
  assert (CurTok p <> tok_eof ->
          (Parse_remaining sE < Parse_remaining p)%nat /\
          (Parse_remaining sD < Parse_remaining p)%nat /\
          (Parse_remaining sX < Parse_remaining p)%nat) as Hlt.
  { intros Hne.
    destruct (entry_points_consume p b Hwf Hne (Nat.le_refl _))
      as [[r1 [s1 [H1 [_ L1]]]] [[r2 [s2 [H2 [_ L2]]]] [r3 [s3 [H3 [_ L3]]]]]].
    rewrite HE in H1. rewrite HD in H2. rewrite HX in H3.
    inversion H1; inversion H2; inversion H3; subst. auto. }
  split; [|split].
  - exists rE, sE. split; [|split; [exact HwE|split; [exact HlE|]]].
    + intros fuel Hf.
      destruct (@parser_fuel_irrelevant stdin_lexer b fuel Hf) as [_ [H1 _]].
      apply H1. exact HE.
    + intros Hne. apply Hlt. exact Hne.
  - exists rD, sD. split; [|split; [exact HwD|split; [exact HlD|]]].
    + intros fuel Hf.
      destruct (@parser_fuel_irrelevant stdin_lexer b fuel Hf) as [_ [_ [H2 _]]].
      apply H2. exact HD.
    + intros Hne. apply Hlt. exact Hne.
  - exists rX, sX. split; [|split; [exact HwX|split; [exact HlX|]]].
    + intros fuel Hf.
      destruct (@parser_fuel_irrelevant stdin_lexer b fuel Hf) as [_ [_ [_ H3]]].
      apply H3. exact HX.
    + intros Hne. apply Hlt. exact Hne.
Qed.

Lemma same_input_wf p p' : same_input p p' -> Parse_wf p -> Parse_wf p'.
Proof. intros [Ht Hl] Hwf. unfold Parse_wf. rewrite Ht, Hl. exact Hwf. Qed.

Lemma same_input_remaining p p' :
  same_input p p' -> Parse_remaining p' = Parse_remaining p.
Proof. intros [Ht Hl]. unfold Parse_remaining. rewrite Ht, Hl. reflexivity. Qed.

Lemma bind_parse {L : Lexer} {A B} (m : @M L A) (k : A -> @Driver.M L B)
    (s : @Driver.state L) r p' :
  m (Driver.parser s) = Some (r, p') ->
  Driver.bind (Driver.parse m) k s =
  k r (Driver.mk p' (Driver.lowering s) (Driver.errs s)).
Proof. intros H. unfold Driver.bind, Driver.parse. rewrite H. reflexivity. Qed.

(** What follows a successful parse in the three handlers: the lowering,
    and the report when it gives a function. *)
Lemma report_ends (m : CG.M (option nat)) (text : string)
    (s : @Driver.state stdin_lexer) :
  let o := Driver.bind (Driver.lower m)
             (fun FnIR => match FnIR with
                          | Some FnIR =>
                              Driver.bind (Driver.print text) (fun _ =>
                              Driver.bind (Driver.print_errs FnIR) (fun _ =>
                              Driver.print ""))
                          | None => Driver.ret tt
                          end) s in
  o = Driver.Undefined \/
  exists s', o = Driver.Done tt s' /\
             same_input (Driver.parser s) (Driver.parser s').
Proof.
  simpl. unfold Driver.bind, Driver.lower.
  destruct (m _) as [[[F|] c]|]; [| |left; reflexivity];
    right; eexists; (split; [reflexivity|split; reflexivity]).
Qed.

Lemma handler_ends_of {T} (parse_fn : nat -> M (option T))
    (lower_fn : T -> CG.M (option nat)) (text : string)
    (h : nat -> @Driver.M stdin_lexer unit) (s : @Driver.state stdin_lexer) :
  (forall fuel s,
     h fuel s =
     Driver.bind (Driver.parse (parse_fn fuel))
       (fun AST => match AST with
                   | Some AST =>
                       Driver.bind (Driver.lower (lower_fn AST))
                         (fun FnIR =>
                            match FnIR with
                            | Some FnIR =>
                                Driver.bind (Driver.print text) (fun _ =>
                                Driver.bind (Driver.print_errs FnIR) (fun _ =>
                                Driver.print ""))
                            | None => Driver.ret tt
                            end)
                   | None =>
                       Driver.bind (Driver.parse getNextTok)
                                   (fun _ => Driver.ret tt)
                   end) s) ->
  settles parse_fn (Driver.parser s) ->
  CurTok (Driver.parser s) <> tok_eof ->
  handler_ends h s.
Proof.
  intros Hh [r [p' [Hrun [Hwf' [_ Hlt]]]]] Hne. specialize (Hlt Hne).
  assert (forall fuel, (4 * Parse_remaining (Driver.parser s) + 3 <= fuel)%nat ->
            h fuel s = h (4 * Parse_remaining (Driver.parser s) + 3)%nat s) as Hsame.
  { intros fuel Hf. rewrite !Hh.
    rewrite (bind_parse _ _ _ _ _ (Hrun fuel Hf)).
    rewrite (bind_parse _ _ _ _ _ (Hrun _ (Nat.le_refl _))). reflexivity. }
  exists (h (4 * Parse_remaining (Driver.parser s) + 3)%nat s).
  split; [exact Hsame|].
  rewrite Hh, (bind_parse _ _ _ _ _ (Hrun _ (Nat.le_refl _))).
  destruct r as [AST|].
  - destruct (report_ends (lower_fn AST) text
                (Driver.mk p' (Driver.lowering s) (Driver.errs s)))
      as [Hu|[s' [Hd Hsame']]].
    + left. exact Hu.
    + right. exists s'. split; [exact Hd|]. simpl in Hsame'.
      split; [eapply same_input_wf; eauto|].
      rewrite (same_input_remaining _ _ Hsame'). exact Hlt.
  - right. destruct (getNextTok_spec p' Hwf') as [p2 [Hn [Hwf2 [Hle2 _]]]].
    rewrite (bind_parse getNextTok _
               (Driver.mk p' (Driver.lowering s) (Driver.errs s)) _ _ Hn).
    eexists. split; [reflexivity|]. simpl. split; [exact Hwf2|lia].
Qed.

Lemma handlers_end (s : @Driver.state stdin_lexer) :
  Parse_wf (Driver.parser s) -> CurTok (Driver.parser s) <> tok_eof ->
  handler_ends Driver.HandleDefinition s /\
  handler_ends Driver.HandleExtern s /\
  handler_ends Driver.HandleTopLevelExpression s.
Proof.
  intros Hwf Hne.
  destruct (parser_settles _ Hwf) as [HE [HD HX]].
  split; [|split].
  - apply (handler_ends_of ParseDefinition CG.FunctionAST_codegen
             "Parsed a function definition."); auto.
  - apply (handler_ends_of ParseExtern
             (fun P => CG.bind (CG.PrototypeAST_codegen P)
                         (fun F => CG.ret (CG.handle <$> F)))
             "Parsed an extern"); auto.
    intros fuel s0. unfold Driver.HandleExtern, Driver.bind, Driver.parse.
    destruct (ParseExtern fuel (Driver.parser s0)) as [[[P|] p]|]; try reflexivity.
    unfold Driver.lower, CG.bind.
    destruct (CG.PrototypeAST_codegen P _) as [[[F|] c]|]; reflexivity.
  - apply (handler_ends_of ParseTopLevelExpr CG.FunctionAST_codegen
             "Parsed a top-level expr"); auto.
Qed.

Lemma MainLoop_ends n : forall s : @Driver.state stdin_lexer,
  Parse_wf (Driver.parser s) ->
  (Parse_remaining (Driver.parser s) <= n)%nat ->
  exists o,
    (forall fuel, (4 * n + 4 <= fuel)%nat -> Driver.MainLoop fuel s = o) /\
    (o = Driver.Undefined \/
     exists s', o = Driver.Done tt s' /\ CurTok (Driver.parser s') = tok_eof).
Proof.
  induction n as [|n IH]; intros s Hwf Hle.
  - assert ((CurTok (Driver.parser s) =? tok_eof) = true) as Ee.
    { unfold Parse_remaining in Hle.
      destruct (CurTok (Driver.parser s) =? tok_eof); [reflexivity|lia]. }
    eexists. split.
    + intros [|fuel] Hf; [lia|]. simpl.
      unfold Driver.bind, Driver.print, Driver.parse, getCurTok. simpl.
      rewrite Ee. reflexivity.
    + right. eexists. split; [reflexivity|]. simpl. apply Z.eqb_eq. exact Ee.
  - destruct (CurTok (Driver.parser s) =? tok_eof) eqn:Ee.
    { eexists. split.
      + intros [|fuel] Hf; [lia|]. simpl.
        unfold Driver.bind, Driver.print, Driver.parse, getCurTok. simpl.
        rewrite Ee. reflexivity.
      + right. eexists. split; [reflexivity|]. simpl. apply Z.eqb_eq. exact Ee. }
    apply Z.eqb_neq in Ee.
    set (s0 := Driver.mk (mk (CurTok (Driver.parser s)) (lexer (Driver.parser s))
                            (Driver.stdout s ++ ["Jlang>"])%list)
                         (Driver.lowering s) (Driver.errs s)).
    assert (same_input (Driver.parser s) (Driver.parser s0)) as Hsame
      by (split; reflexivity).
    assert (Parse_wf (Driver.parser s0)) as Hwf0
      by (eapply same_input_wf; eauto).
    assert (Parse_remaining (Driver.parser s0) = Parse_remaining (Driver.parser s))
      as Hrem0 by (apply same_input_remaining; exact Hsame).
    assert (forall h : nat -> @Driver.M stdin_lexer unit,
              handler_ends h s0 ->
              exists o,
                (forall fuel, (4 * S n + 3 <= fuel)%nat ->
                   Driver.bind (h fuel) (fun _ => Driver.MainLoop fuel) s0 = o) /\
                (o = Driver.Undefined \/
                 exists s', o = Driver.Done tt s' /\
                            CurTok (Driver.parser s') = tok_eof)) as Hstep.
    { intros h [oh [Hh [->|[s1 [-> [Hwf1 Hlt1]]]]]].
      - exists Driver.Undefined. split; [|left; reflexivity].
        intros fuel Hf. unfold Driver.bind. rewrite Hh by lia. reflexivity.
      - destruct (IH s1 Hwf1 ltac:(lia)) as [o [Ho Hres]].
        exists o. split; [|exact Hres].
        intros fuel Hf. unfold Driver.bind. rewrite Hh by lia.
        apply Ho. lia. }
    destruct (handlers_end s0 Hwf0 Ee) as [HD [HX HE]].
    destruct (tok_is ";" (CurTok (Driver.parser s))) eqn:Es;
      [|destruct (CurTok (Driver.parser s) =? tok_def) eqn:Ed;
        [|destruct (CurTok (Driver.parser s) =? tok_extern) eqn:Ex]].
    + destruct (getNextTok_spec (Driver.parser s0) Hwf0)
        as [p1 [Hn [Hwf1 [_ Hlt1]]]].
      specialize (Hlt1 Ee).
      destruct (IH (Driver.mk p1 (Driver.lowering s) (Driver.errs s)) Hwf1
                   ltac:(simpl; lia)) as [o [Ho Hres]].
      exists o. split; [|exact Hres].
      intros [|fuel] Hf; [lia|]. simpl.
      unfold Driver.bind at 1 2, Driver.print, Driver.parse at 1, getCurTok. simpl.
      apply Z.eqb_neq in Ee. rewrite Ee, Es.
      unfold Driver.bind, Driver.parse. fold s0. simpl.
      change (getNextTok (Driver.parser s0) = Some (CurTok p1, p1)) in Hn.
      simpl in Hn. rewrite Hn. apply Ho. lia.
    + destruct (Hstep _ HD) as [o [Ho Hres]]. exists o. split; [|exact Hres].
      intros [|fuel] Hf; [lia|]. simpl.
      unfold Driver.bind at 1 2, Driver.print, Driver.parse at 1, getCurTok. simpl.
      apply Z.eqb_neq in Ee. rewrite Ee, Es, Ed. apply Ho. lia.
    + destruct (Hstep _ HX) as [o [Ho Hres]]. exists o. split; [|exact Hres].
      intros [|fuel] Hf; [lia|]. simpl.
      unfold Driver.bind at 1 2, Driver.print, Driver.parse at 1, getCurTok. simpl.
      apply Z.eqb_neq in Ee. rewrite Ee, Es, Ed, Ex. apply Ho. lia.
    + destruct (Hstep _ HE) as [o [Ho Hres]]. exists o. split; [|exact Hres].
      intros [|fuel] Hf; [lia|]. simpl.
      unfold Driver.bind at 1 2, Driver.print, Driver.parse at 1, getCurTok. simpl.
      apply Z.eqb_neq in Ee. rewrite Ee, Es, Ed, Ex. apply Ho. lia.
Qed.


End DriverFacts.

Section DriverInvariant.
Import Parse.
Context {L : Lexer}.

Lemma with_out_wf c o : CG_wf c -> CG_wf (Driver.with_out c o).
Proof. intros H. exact H. Qed.

Lemma FunctionAST_codegen_keeps_wf Fn s r s' :
  CG_wf s -> CG.FunctionAST_codegen Fn s = Some (r, s') -> CG_wf s'.
Proof.
  intros Hwf H. destruct Fn as [[P|] [body|]].
  - eapply FunctionAST_codegen_wf; eauto.
  - exfalso. revert H. unfold CG.FunctionAST_codegen, CG.bind, CG.deref. simpl.
    unfold CG.getFunction, CG.PrototypeAST_codegen, CG.Function_Create, CG.bind,
      CG.enter_block, CG.reset_NamedValues, CG.ret, CG.undefined.
    destruct (CG.lookup_function _ _); simpl; [discriminate|].
    destruct (CG.createValueName (List.map CG.fname (CG.TheModule s))
                (getName P) "." (CG.LastUnique s)); discriminate.
  - discriminate H.
  - discriminate H.
Qed.

(** The steps of a handler after the parse keep the module well formed. *)
Lemma report_keeps_wf (m : CG.M (option nat)) (text : string)
    (s s' : @Driver.state L) :
  (forall c r c', CG_wf c -> m c = Some (r, c') -> CG_wf c') ->
  CG_wf (Driver.lowering s) ->
  Driver.bind (Driver.lower m)
    (fun FnIR => match FnIR with
                 | Some FnIR =>
                     Driver.bind (Driver.print text) (fun _ =>
                     Driver.bind (Driver.print_errs FnIR) (fun _ =>
                     Driver.print ""))
                 | None => Driver.ret tt
                 end) s = Driver.Done tt s' ->
  CG_wf (Driver.lowering s').
Proof.
  intros Hm Hwf. unfold Driver.bind, Driver.lower.
  destruct (m _) as [[[F|] c]|] eqn:E; try discriminate;
    apply Hm in E; try (apply with_out_wf; exact Hwf);
    simpl; intros H; inversion H; subst; exact E.
Qed.

Lemma handlers_keep_wf fuel (s s' : @Driver.state L) :
  CG_wf (Driver.lowering s) ->
  (Driver.HandleDefinition fuel s = Driver.Done tt s' ->
   CG_wf (Driver.lowering s')) /\
  (Driver.HandleExtern fuel s = Driver.Done tt s' ->
   CG_wf (Driver.lowering s')) /\
  (Driver.HandleTopLevelExpression fuel s = Driver.Done tt s' ->
   CG_wf (Driver.lowering s')).
Proof.
  intros Hwf.
  assert (forall (p : @state L) s2,
            Driver.bind (Driver.parse getNextTok) (fun _ => Driver.ret tt)
              (Driver.mk p (Driver.lowering s) (Driver.errs s)) = Driver.Done tt s2 ->
            CG_wf (Driver.lowering s2)) as Hskip.
  { intros p s2. unfold Driver.bind, Driver.parse, getNextTok. simpl.
    destruct (lex_gettok L (lexer p)). simpl.
    intros H; inversion H; subst. exact Hwf. }
  split; [|split].
  - unfold Driver.HandleDefinition. unfold Driver.bind at 1, Driver.parse at 1.
    destruct (ParseDefinition fuel (Driver.parser s)) as [[[Fn|] p]|];
      [|apply Hskip|discriminate].
    apply report_keeps_wf; [|exact Hwf].
    intros c r c'. apply FunctionAST_codegen_keeps_wf.
  - unfold Driver.HandleExtern. unfold Driver.bind at 1, Driver.parse at 1.
    destruct (ParseExtern fuel (Driver.parser s)) as [[[P|] p]|];
      [|apply Hskip|discriminate].
    unfold Driver.bind, Driver.lower.
    destruct (CG.PrototypeAST_codegen P _) as [[[F|] c]|] eqn:E; try discriminate;
      apply PrototypeAST_codegen_wf in E; try (apply with_out_wf; exact Hwf);
      simpl; intros H; inversion H; subst; exact E.
  - unfold Driver.HandleTopLevelExpression.
    unfold Driver.bind at 1, Driver.parse at 1.
    destruct (ParseTopLevelExpr fuel (Driver.parser s)) as [[[Fn|] p]|];
      [|apply Hskip|discriminate].
    apply report_keeps_wf; [|exact Hwf].
    intros c r c'. apply FunctionAST_codegen_keeps_wf.
Qed.

Lemma MainLoop_keeps_wf fuel : forall s s' : @Driver.state L,
  CG_wf (Driver.lowering s) ->
  Driver.MainLoop fuel s = Driver.Done tt s' ->
  CG_wf (Driver.lowering s') /\ CurTok (Driver.parser s') = tok_eof.
Proof.
  induction fuel as [|fuel IH]; intros s s' Hwf; [discriminate|].
  simpl. unfold Driver.bind at 1 2, Driver.print, Driver.parse at 1, getCurTok.
  simpl.
  set (s0 := Driver.mk _ _ _).
  assert (CG_wf (Driver.lowering s0)) as Hwf0 by exact Hwf.
  assert (forall A (h : @Driver.M L A),
            (forall a s1, h s0 = Driver.Done a s1 -> CG_wf (Driver.lowering s1)) ->
            Driver.bind h (fun _ => Driver.MainLoop fuel) s0 = Driver.Done tt s' ->
            CG_wf (Driver.lowering s') /\ CurTok (Driver.parser s') = tok_eof)
    as Hstep.
  { intros A h Hh. unfold Driver.bind.
    destruct (h s0) as [a s1| |] eqn:E; try discriminate.
    apply IH. apply (Hh a). reflexivity. }
  destruct (CurTok (Driver.parser s) =? tok_eof) eqn:Ee.
  { intros H; inversion H; subst. split; [exact Hwf|].
    simpl. apply Z.eqb_eq. exact Ee. }
  destruct (tok_is ";" (CurTok (Driver.parser s)));
    [|destruct (CurTok (Driver.parser s) =? tok_def);
      [|destruct (CurTok (Driver.parser s) =? tok_extern)]].
  - apply Hstep. intros a s1. unfold Driver.parse, getNextTok. simpl.
    destruct (lex_gettok L (lexer (Driver.parser s))).
    intros H; inversion H; subst. exact Hwf.
  - apply Hstep. intros [] s1. exact (proj1 (handlers_keep_wf fuel s0 s1 Hwf0)).
  - apply Hstep. intros [] s1.
    exact (proj1 (proj2 (handlers_keep_wf fuel s0 s1 Hwf0))).
  - apply Hstep. intros [] s1.
    exact (proj2 (proj2 (handlers_keep_wf fuel s0 s1 Hwf0))).
Qed.

(** X17.  When [main] returns, on any lexer, it returns 0 with [CurTok]
    at [tok_eof]; the module is well formed (every function was allocated,
    and two functions with the same non-empty name are the same function);
    and the last thing written to [errs()] is that module. *)
Theorem main_module_well_formed (fuel : nat) (stdin : lex_state L)
    (r : Z) (s : @Driver.state L) :
  Driver.main fuel stdin = Driver.Done r s ->
  r = 0 /\
  CurTok (Driver.parser s) = tok_eof /\
  (forall F, In F (CG.TheModule (Driver.lowering s)) ->
     (CG.handle F < CG.allocated (Driver.lowering s))%nat) /\
  (forall F G, In F (CG.TheModule (Driver.lowering s)) ->
     In G (CG.TheModule (Driver.lowering s)) ->
     CG.fname F = CG.fname G -> CG.fname F <> "" -> CG.handle F = CG.handle G) /\
  last (Driver.errs s) = Some (Driver.print_module (CG.TheModule (Driver.lowering s))).
Proof.
  unfold Driver.main.
  unfold Driver.bind at 1 2 3, Driver.print, Driver.parse, Driver.InitializeModule,
    Driver.initial, getNextTok.
  simpl. destruct (lex_gettok L stdin) as [t l].
  set (s0 := Driver.mk _ _ _).
  unfold Driver.bind at 1.
  destruct (Driver.MainLoop fuel s0) as [[] s1| |] eqn:E; try discriminate.
  apply MainLoop_keeps_wf in E; [|apply CG_init_wf].
  destruct E as [[Hb Hid] Heof].
  unfold Driver.bind, Driver.print_TheModule, Driver.ret.
  intros H; inversion H; subst. simpl.
  split; [reflexivity|]. split; [exact Heof|]. split; [exact Hb|].
  split; [exact Hid|]. apply last_snoc.
Qed.

End DriverInvariant.

Section DriverInvariantWitness.
Import Parse.

Lemma main_module_well_formed_witness :
  @Driver.main stdin_lexer 20 (Lex.init "def f(x) x;") =
    Driver.Done 0 returned_def_f /\
  CurTok (Driver.parser returned_def_f) = tok_eof /\
  last (Driver.errs returned_def_f) =
    Some (Driver.print_module (CG.TheModule (Driver.lowering returned_def_f))).
Proof.
  assert (@Driver.main stdin_lexer 20 (Lex.init "def f(x) x;") =
          Driver.Done 0 returned_def_f) as E by (vm_compute; reflexivity).
  split; [exact E|].
  destruct (main_module_well_formed (L:=stdin_lexer) 20
              (Lex.init "def f(x) x;") 0 returned_def_f E)
    as [_ [Heof [_ [_ Hlast]]]].
  split; [exact Heof|exact Hlast].
Defined.

End DriverInvariantWitness.

Section DefinitionEndToEnd.
Import CG.

Lemma setArgNames_In Args : forall named LU (x : string),
  In x named \/ In x Args -> In x (setArgNames Args named LU).
Proof.
  induction Args as [|a Args IH]; intros named LU x Hx; simpl.
  - destruct Hx as [Hx|[]]. exact Hx.
  - destruct (createValueName named a "" LU) as [a' LU'] eqn:E.
    apply IH. destruct Hx as [Hx|[<-|Hx]].
    + left. apply List.in_or_app. left. exact Hx.
    + left. apply List.in_or_app. unfold createValueName in E.
      destruct (decide (a = "")) as [Ha|Ha].
      * inversion E; subst. right. left. reflexivity.
      * destruct (bool_decide (a ∈ named)) eqn:Eb.
        -- apply bool_decide_eq_true in Eb. apply list_elem_of_In in Eb.
           left. exact Eb.
        -- inversion E; subst. right. left. reflexivity.
    + right. exact Hx.
Qed.

Lemma bound_Some s x V :
  bound s x = Some V -> NamedValues s !! x = Some (Some V).
Proof.
  unfold bound. destruct (NamedValues s !! x) as [[W|]|]; try discriminate.
  intros H; inversion H; reflexivity.
Qed.

Lemma codegen_atom_known s a :
  (forall x, a = AVariable x -> exists V, bound s x = Some V) ->
  exists V, codegen (atom_ast a) s = Some (Some V, s).
Proof.
  intros H. destruct a as [v|x]; simpl.
  - eexists. reflexivity.
  - destruct (H x eq_refl) as [V HV]. apply bound_Some in HV.
    exists V. unfold bind, NamedValues_at. rewrite HV. reflexivity.
Qed.

Lemma codegen_binop_operator Op L R s :
  0 < op_prec Op -> exists V s', codegen_binop Op L R s = Some (Some V, s').
Proof.
  intros H. apply TokPrecedence_operator in H.
  destruct H as [-> | [-> | [-> | ->]]]; eexists; eexists; reflexivity.
Qed.

Lemma codegen_chain_succeeds chain : forall e s V s1,
  codegen e s = Some (Some V, s1) ->
  descending chain = true ->
  (forall x, In (AVariable x) (List.map snd chain) ->
     exists W, bound s x = Some W) ->
  exists V' s', codegen (chain_ast e chain) s = Some (Some V', s').
Proof.
  induction chain as [|[op a] chain IH]; intros e s V s1 He Hd Hb.
  - exists V, s1. exact He.
  - simpl in Hd. apply andb_true_iff in Hd. destruct Hd as [Hd Hd'].
    apply andb_true_iff in Hd. destruct Hd as [Hop _].
    apply Z.ltb_lt in Hop. simpl in Hop.
    assert (forall x, a = AVariable x -> exists W, bound s1 x = Some W) as Ha.
    { intros x ->. destruct (Hb x (or_introl eq_refl)) as [W HW].
      exists W. apply step_codegen in He.
      destruct He as [_ [_ [Hbound _]]]. rewrite Hbound. exact HW. }
    destruct (codegen_atom_known s1 a Ha) as [Va HVa].
    destruct (codegen_binop_operator op V Va s1 Hop) as [V2 [s2 H2]].
    change (chain_ast e ((op, a) :: chain))
      with (chain_ast (BinaryExprAST op (Some e) (Some (atom_ast a))) chain).
    apply (IH _ s V2 s2); [|exact Hd'|].
    + cbn [codegen]. unfold bind, deref. rewrite He, HVa. exact H2.
    + intros x Hx. apply Hb. right. exact Hx.
Qed.

Lemma created_name P s :
  lookup_function (getName P) (TheModule s) = None ->
  fname (CG_created P s) = getName P.
Proof.
  intros Hnew. simpl. unfold createValueName.
  destruct (decide (getName P = "")) as [He|Hne]; [reflexivity|].
  rewrite bool_decide_eq_false_2; [reflexivity|].
  intros Hin. apply list_elem_of_In in Hin.
  exact (lookup_function_None _ _ Hne Hnew Hin).
Qed.

(** Lowering a new definition whose body lowers: the module gains the
    function, with its entry block. *)
Lemma FunctionAST_codegen_defines P body s :
  handles_below s ->
  lookup_function (getName P) (TheModule s) = None ->
  (forall c, (forall x, In x (protoArgs P) -> exists W, bound c x = Some W) ->
     exists V c', codegen body c = Some (Some V, c')) ->
  exists V s',
    FunctionAST_codegen (mkFunctionAST (Some P) (Some body)) s =
      Some (Some (allocated s), s') /\
    TheModule s' = (TheModule s ++ [with_block (CG_created P s)])%list /\
    out s' = out s /\
    last (built s') = Some (Ret V).
Proof.
  intros Hb Hnew Hbody.
  destruct (FunctionAST_codegen_new P body s Hnew) as [s1 [HP Hrun]].
  destruct (PrototypeAST_codegen_appends P s Hb) as [s1' [HP' [Hm1 _]]].
  rewrite HP in HP'. inversion HP'; subst s1'. clear HP'.
  destruct (PrototypeAST_codegen_creates P s) as [s1' [HP' [_ [_ [_ [_ [_ Ho1]]]]]]].
  rewrite HP in HP'. inversion HP'; subst s1'. clear HP'.
  set (F := CG_created P s) in *.
  assert (TheModule (CG_entered s1 F) = (TheModule s ++ [with_block F])%list) as Hme.
  { simpl. rewrite Hm1. unfold update_function. rewrite List.map_app.
    fold (update_function (with_block F) (TheModule s)).
    rewrite update_function_fresh
      by (intros G HG; apply Hb in HG; simpl; lia).
    simpl. rewrite Nat.eqb_refl. reflexivity. }
  assert (forall x, In x (protoArgs P) ->
            exists W, bound (CG_entered s1 F) x = Some W) as Hargs.
  { intros x Hx. unfold bound. simpl.
    assert (x ∈ setArgNames (protoArgs P) [] 0) as Hin
      by (apply list_elem_of_In, setArgNames_In; right; exact Hx).
    destruct (bind_args_in (allocated s) _ 0 ∅ x Hin) as [j [_ Hl]].
    rewrite Hl. eexists. reflexivity. }
  destruct (Hbody _ Hargs) as [V [s2 Hc]].
  rewrite Hc in Hrun. exists V, (CG_built s2 (Ret V)).
  split; [exact Hrun|].
  apply step_codegen in Hc.
  destruct Hc as [[Hm _] [_ [_ [msgs [Ho Hiff]]]]].
  assert (msgs = []) as ->.
  { destruct msgs; [reflexivity|]. exfalso.
    assert (Some V = None) as H by (apply Hiff; discriminate). discriminate H. }
  rewrite app_nil_r in Ho. simpl.
  split; [rewrite Hm; exact Hme|]. split; [rewrite Ho; exact Ho1|].
  apply last_snoc.
Qed.

End DefinitionEndToEnd.

Section HandleDefinitionFacts.
Import Parse.



End HandleDefinitionFacts.

(** ** A dropped operand at the top level *)

Section DroppedOperand.
Import Parse.

Lemma FunctionAST_codegen_undefined P body s :
  (forall s0, CG.codegen body s0 = None) ->
  CG.FunctionAST_codegen (mkFunctionAST (Some P) (Some body)) s = None.
Proof.
  intros Hbody.
  destruct (CG.lookup_function (getName P) (CG.TheModule s)) as [F|] eqn:HF.
  - rewrite (FunctionAST_codegen_existing P body s F HF), Hbody. reflexivity.
  - destruct (FunctionAST_codegen_new P body s HF) as [s1 [_ Heq]].
    rewrite Heq, Hbody. reflexivity.
Qed.



End DroppedOperand.

(** ** The parser sees the lexer through its tokens only *)

Section Parametricity.
Import Parse.
Context {L1 L2 : Lexer}.

Lemma sim_ret {A} (a : A) : sim (@ret L1 A a) (@ret L2 A a).
Proof. intros s1 s2 H. simpl. auto. Qed.

Lemma sim_out_of_fuel {A} : sim (@out_of_fuel L1 A) (@out_of_fuel L2 A).
Proof. intros s1 s2 H. exact I. Qed.

Lemma sim_bind {A B} (m1 : @M L1 A) (m2 : @M L2 A)
    (k1 : A -> @M L1 B) (k2 : A -> @M L2 B) :
  sim m1 m2 -> (forall a, sim (k1 a) (k2 a)) -> sim (bind m1 k1) (bind m2 k2).
Proof.
  intros Hm Hk s1 s2 Hs. unfold bind. specialize (Hm s1 s2 Hs).
  destruct (m1 s1) as [[a1 s1']|], (m2 s2) as [[a2 s2']|]; try contradiction.
  - destruct Hm as [-> Hs']. apply Hk. exact Hs'.
  - exact I.
Qed.

Lemma sim_getCurTok : sim (@getCurTok L1) (@getCurTok L2).
Proof. intros s1 s2 Hs. simpl. split; [apply Hs|exact Hs]. Qed.

Lemma sim_GetTokPrecedence : sim (@GetTokPrecedence L1) (@GetTokPrecedence L2).
Proof.
  intros s1 s2 Hs. simpl. split; [|exact Hs].
  destruct Hs as [-> _]. reflexivity.
Qed.

Lemma sim_getIdentifierStr : sim (@getIdentifierStr L1) (@getIdentifierStr L2).
Proof.
  intros s1 s2 Hs. simpl. split; [|exact Hs].
  destruct Hs as [_ [_ Hl]]. apply (Hl 0%nat).
Qed.

Lemma sim_getNumVal : sim (@getNumVal L1) (@getNumVal L2).
Proof.
  intros s1 s2 Hs. simpl. split; [|exact Hs].
  destruct Hs as [_ [_ Hl]]. apply (Hl 0%nat).
Qed.

Lemma sim_getNextTok : sim (@getNextTok L1) (@getNextTok L2).
Proof.
  intros s1 s2 [Hc [Ho Hl]]. unfold getNextTok.
  pose proof (Hl 1%nat) as H1. destruct H1 as [_ [_ [Ht _]]].
  assert (forall n, lex_sim n (snd (lex_gettok L1 (lexer s1)))
                              (snd (lex_gettok L2 (lexer s2)))) as Hn
    by (intros n; apply (Hl (S n))).
  destruct (lex_gettok L1 (lexer s1)) as [t1 l1],
           (lex_gettok L2 (lexer s2)) as [t2 l2]. simpl in *.
  split; [exact Ht|]. split; [exact Ht|]. split; [exact Ho|exact Hn].
Qed.

Lemma sim_LogError {A} Str : sim (@LogError L1 A Str) (@LogError L2 A Str).
Proof.
  intros s1 s2 [Hc [Ho Hl]]. simpl. split; [reflexivity|].
  split; [exact Hc|]. split; [rewrite Ho; reflexivity|exact Hl].
Qed.

Lemma sim_LogErrorP Str : sim (@LogErrorP L1 Str) (@LogErrorP L2 Str).
Proof. apply sim_LogError. Qed.

Lemma sim_ParseNumberExpr : sim (@ParseNumberExpr L1) (@ParseNumberExpr L2).
Proof.
  unfold ParseNumberExpr.
  apply sim_bind; [apply sim_getNumVal|]. intros v.
  apply sim_bind; [apply sim_getNextTok|]. intros _. apply sim_ret.
Qed.

Ltac sim_step :=
  first
    [ assumption
    | match goal with H : forall _ _, sim _ _ |- _ => apply H end
    | apply sim_ret
    | apply sim_out_of_fuel
    | apply sim_getCurTok
    | apply sim_GetTokPrecedence
    | apply sim_getIdentifierStr
    | apply sim_getNumVal
    | apply sim_getNextTok
    | apply sim_LogError
    | apply sim_LogErrorP
    | apply sim_ParseNumberExpr
    | apply sim_bind; [|intros ?]
    | match goal with
      | |- sim (if ?c then _ else _) (if ?c then _ else _) => destruct c
      | |- sim (match ?x with _ => _ end) (match ?x with _ => _ end) => destruct x
      end ].

Lemma parser_sim n : sim_all L1 L2 n.
Proof.
  induction n as [|n IH].
  - repeat split; intros; apply sim_out_of_fuel.
  - destruct IH as [HE [HP [HPa [HI [HA HB]]]]].
    repeat split; intros; simpl; repeat sim_step.
Qed.

Lemma ParsePrototypeArgs_sim n : forall Fname ArgNames,
  sim (@ParsePrototypeArgs L1 n Fname ArgNames)
      (@ParsePrototypeArgs L2 n Fname ArgNames).
Proof.
  induction n as [|n IH]; intros Fname ArgNames; simpl; repeat sim_step.
Qed.

Lemma entry_points_sim n :
  sim (@ParseTopLevelExpr L1 n) (@ParseTopLevelExpr L2 n) /\
  sim (@ParseDefinition L1 n) (@ParseDefinition L2 n) /\
  sim (@ParseExtern L1 n) (@ParseExtern L2 n).
Proof.
  destruct (parser_sim n) as [HE _].
  pose proof (ParsePrototypeArgs_sim n) as HPA.
  assert (sim (@ParsePrototype L1 n) (@ParsePrototype L2 n)) as HP
    by (unfold ParsePrototype; repeat sim_step).
  repeat split.
  - unfold ParseTopLevelExpr. repeat sim_step.
  - unfold ParseDefinition. repeat sim_step.
  - unfold ParseExtern. repeat sim_step.
Qed.

Lemma sim_observed {A} (m1 : @M L1 A) (m2 : @M L2 A) s1 s2 :
  sim m1 m2 -> sim_state s1 s2 -> observed (m1 s1) = observed (m2 s2).
Proof.
  intros Hm Hs. specialize (Hm s1 s2 Hs).
  destruct (m1 s1) as [[a1 s1']|], (m2 s2) as [[a2 s2']|]; try contradiction.
  - destruct Hm as [-> [_ [Ho _]]]. simpl. rewrite Ho. reflexivity.
  - reflexivity.
Qed.

End Parametricity.

Section TextAsTokens.

Lemma gettok_tail_range lc inp id nv :
  -1 <= lc <= 255 -> -1 <= fst (Lex.gettok_tail lc inp id nv) <= 255.
Proof.
  intros H. unfold Lex.gettok_tail.
  destruct (lc =? EOF); [simpl; unfold tok_eof; lia|].
  destruct inp; simpl; exact H.
Qed.

Lemma gettok_rec_keyword fuel : forall st t st',
  Lex_wf st -> Lex.gettok_rec fuel st = Some (t, st') ->
  (t = tok_def -> Lex.IdentifierStr st' = "def") /\
  (t = tok_extern -> Lex.IdentifierStr st' = "extern").
Proof.
  induction fuel as [|fuel IH]; intros [lc inp id nv] t st' Hwf;
    unfold Lex_wf in Hwf; simpl in *;
    pose proof (skip_space_range lc inp Hwf) as Hs;
    destruct (Lex.skip_space lc inp) as [lc1 inp1]; simpl in Hs;
    (destruct (isalpha lc1);
     [ destruct (Lex.read_alnum _ inp1) as [[Id lc2] inp2];
       destruct (String.eqb Id "def") eqn:E1;
       [ apply String.eqb_eq in E1
       | destruct (String.eqb Id "extern") eqn:E2;
         [apply String.eqb_eq in E2|] ];
       intros H; inversion H; subst; simpl;
       (split; intros Ht; try discriminate Ht; reflexivity)
     | ]);
    rewrite number_cond_false;
    (destruct (lc1 =? int_of_char "#");
     [| intros H; inversion H as [H1];
        pose proof (gettok_tail_range lc1 inp1 id nv Hs) as Ht;
        rewrite H1 in Ht; simpl in Ht; unfold tok_def, tok_extern;
        split; intros ->; lia ]);
    pose proof (skip_comment_range inp1) as Hc;
    destruct (Lex.skip_comment inp1) as [lc2 inp2]; simpl in Hc;
    (destruct (lc2 =? EOF); simpl;
     [ intros H; inversion H as [H1];
       pose proof (gettok_tail_range lc2 inp2 id nv Hc) as Ht;
       rewrite H1 in Ht; simpl in Ht; unfold tok_def, tok_extern;
       split; intros ->; lia
     | ]).
  - discriminate.
  - intros H. apply IH in H; [exact H|exact Hc].
Qed.

Lemma tokenize_at_EOF n st : Lex.LastChar st = EOF -> tokenize n st = [].
Proof.
  intros H. destruct n; [reflexivity|]. simpl.
  rewrite (gettok_at_EOF st H). reflexivity.
Qed.

(** The token lexer on the tokens of a text gives what [gettok] gives on
    the text. *)
Lemma tokenize_sim n : forall st N,
  Lex_wf st -> (Lex_remaining st <= N)%nat ->
  @lex_sim stdin_lexer token_lexer n st
    (TokLex.mk (tokenize N st) (Lex.IdentifierStr st) (Lex.NumVal st)).
Proof.
  induction n as [|n IH]; intros st N Hwf HN.
  - simpl. auto.
  - cbn [lex_sim]. split; [reflexivity|]. split; [reflexivity|].
    cbn [lex_gettok stdin_lexer token_lexer lex_state].
    destruct (Z.eq_dec (Lex.LastChar st) EOF) as [He|Hne].
    + rewrite (tokenize_at_EOF N st He), (gettok_at_EOF st He).
      unfold TokLex.gettok. simpl. split; [reflexivity|].
      rewrite <- (tokenize_at_EOF N st He). apply IH; assumption.
    + destruct N as [|N].
      { unfold Lex_remaining, Lex_remaining_of in HN.
        apply Z.eqb_neq in Hne. rewrite Hne in HN. lia. }
      pose proof (gettok_result_spec st Hwf) as [Hwf' Hres].
      pose proof (gettok_progress st) as Hp.
      pose proof (gettok_rec_keyword _ st _ _ Hwf
                    (eq_trans (gettok_unfold st)
                       (f_equal Some (surjective_pairing (Lex.gettok st)))))
        as [Hdef Hext].
      cbn [tokenize].
      destruct (Lex.gettok st) as [t st'] eqn:Eg. simpl in *.
      destruct (t =? tok_eof) eqn:Ee.
      * apply Z.eqb_eq in Ee. subst t.
        inversion Hres as [st1 HE Hid Hnv | t1 st1 Hw Hal Hnv | t1 st1 Hr Hid Hnv];
          subst.
        -- unfold TokLex.gettok. simpl. split; [reflexivity|].
           rewrite <- Hid, <- Hnv, <- (tokenize_at_EOF 0 st' HE).
           apply IH; [exact Hwf'|].
           unfold Lex_remaining, Lex_remaining_of. rewrite HE. simpl. lia.
        -- unfold tok_eof, tok_def, tok_extern, tok_identifier in Hw. lia.
        -- unfold tok_eof in Hr. lia.
      * apply Z.eqb_neq in Ee. specialize (Hp Ee).
        assert (@lex_sim stdin_lexer token_lexer n st'
                  (TokLex.mk (tokenize N st') (Lex.IdentifierStr st')
                             (Lex.NumVal st'))) as Hrec
          by (apply IH; [exact Hwf'|lia]).
        inversion Hres as [st1 HE Hid Hnv | t1 st1 Hw Hal Hnv | t1 st1 Hr Hid Hnv];
          subst.
        -- contradiction.
        -- unfold token_of, TokLex.gettok. simpl.
           destruct Hw as [-> | [-> | ->]]; simpl.
           ++ rewrite <- Hnv, <- (Hdef eq_refl). split; [reflexivity|exact Hrec].
           ++ rewrite <- Hnv, <- (Hext eq_refl). split; [reflexivity|exact Hrec].
           ++ rewrite <- Hnv. split; [reflexivity|exact Hrec].
        -- unfold token_of, TokLex.gettok.
           assert ((t =? tok_def) = false) as -> by (apply Z.eqb_neq; unfold tok_def; lia).
           assert ((t =? tok_extern) = false) as ->
             by (apply Z.eqb_neq; unfold tok_extern; lia).
           assert ((t =? tok_identifier) = false) as ->
             by (apply Z.eqb_neq; unfold tok_identifier; lia).
           simpl. rewrite (int_of_char_of_int t Hr), <- Hid, <- Hnv.
           split; [reflexivity|exact Hrec].
Qed.

Lemma parse_text_sim (input : string) :
  sim_state (parse_text input) (parse_tokens (tokens_of input)).
Proof.
  assert (forall n, @lex_sim stdin_lexer token_lexer n (Lex.init input)
                      (TokLex.init (tokens_of input))) as H.
  { intros n. apply (tokenize_sim n (Lex.init input) (S (String.length input))).
    - apply Lex_init_wf.
    - reflexivity. }
  unfold parse_text, parse_tokens, Parse.start.
  pose proof (H 1%nat) as [_ [_ [Ht _]]].
  assert (forall n, @lex_sim stdin_lexer token_lexer n
                      (snd (Lex.gettok (Lex.init input)))
                      (snd (TokLex.gettok (TokLex.init (tokens_of input))))) as Hn
    by (intros n; apply (H (S n))).
  cbn [lex_gettok stdin_lexer token_lexer] in *.
  destruct (Lex.gettok (Lex.init input)) as [t1 l1],
           (TokLex.gettok (TokLex.init (tokens_of input))) as [t2 l2].
  simpl in *. split; [exact Ht|]. split; [reflexivity|exact Hn].
Qed.

(** X20.  Parsing a source text is parsing its tokens.  The entry points
    of the parser, run on a text through [gettok], return the tree and
    print the lines that they return and print when run on the list of
    the tokens of the text; with too little fuel they run out of it
    together.  What is shown of the parser on token lists holds on every
    text with those tokens. *)
Theorem parse_text_as_tokens (input : string) (fuel : nat) :
  observed (Parse.ParseExpression fuel (parse_text input)) =
    observed (Parse.ParseExpression fuel (parse_tokens (tokens_of input))) /\
  observed (Parse.ParseTopLevelExpr fuel (parse_text input)) =
    observed (Parse.ParseTopLevelExpr fuel (parse_tokens (tokens_of input))) /\
  observed (Parse.ParseDefinition fuel (parse_text input)) =
    observed (Parse.ParseDefinition fuel (parse_tokens (tokens_of input))) /\
  observed (Parse.ParseExtern fuel (parse_text input)) =
    observed (Parse.ParseExtern fuel (parse_tokens (tokens_of input))).
Proof.
  pose proof (parse_text_sim input) as Hs.
  destruct (@parser_sim stdin_lexer token_lexer fuel) as [HE _].
  destruct (@entry_points_sim stdin_lexer token_lexer fuel) as [HT [HD HX]].
  repeat split; apply sim_observed; assumption.
Qed.

End TextAsTokens.

Section DriverParametricity.
Import Parse.
Context {L1 L2 : Lexer}.

Lemma dsim_ret {A} (a : A) : dsim (@Driver.ret L1 A a) (@Driver.ret L2 A a).
Proof. intros s1 s2 H. simpl. auto. Qed.

Lemma dsim_bind {A B} (m1 : @Driver.M L1 A) (m2 : @Driver.M L2 A)
    (k1 : A -> @Driver.M L1 B) (k2 : A -> @Driver.M L2 B) :
  dsim m1 m2 -> (forall a, dsim (k1 a) (k2 a)) ->
  dsim (Driver.bind m1 k1) (Driver.bind m2 k2).
Proof.
  intros Hm Hk s1 s2 Hs. unfold Driver.bind. specialize (Hm s1 s2 Hs).
  destruct (m1 s1) as [a1 s1'| |], (m2 s2) as [a2 s2'| |]; try contradiction;
    try exact I.
  destruct Hm as [-> Hs']. apply Hk. exact Hs'.
Qed.

Lemma dsim_parse {A} (m1 : @M L1 A) (m2 : @M L2 A) :
  sim m1 m2 -> dsim (Driver.parse m1) (Driver.parse m2).
Proof.
  intros Hm s1 s2 [Hp [Hl He]]. unfold Driver.parse.
  specialize (Hm _ _ Hp).
  destruct (m1 (Driver.parser s1)) as [[a1 p1]|],
           (m2 (Driver.parser s2)) as [[a2 p2]|]; try contradiction;
    [|exact I].
  destruct Hm as [-> Hp']. split; [reflexivity|].
  split; [exact Hp'|]. split; assumption.
Qed.

Lemma dsim_lower {A} (m : CG.M A) :
  dsim (@Driver.lower L1 A m) (@Driver.lower L2 A m).
Proof.
  intros s1 s2 [[Hc [Ho Hx]] [Hl He]]. unfold Driver.lower, Driver.stdout.
  rewrite Hl, Ho.
  destruct (m _) as [[a c]|]; [|exact I].
  split; [reflexivity|]. split; [|split; [reflexivity|exact He]].
  split; [exact Hc|]. split; [reflexivity|exact Hx].
Qed.

Lemma dsim_print text : dsim (@Driver.print L1 text) (@Driver.print L2 text).
Proof.
  intros s1 s2 [[Hc [Ho Hx]] [Hl He]]. unfold Driver.print, Driver.stdout.
  split; [reflexivity|]. split; [|split; assumption].
  split; [exact Hc|]. split; [simpl; rewrite Ho; reflexivity|exact Hx].
Qed.

Lemma dsim_print_errs F :
  dsim (@Driver.print_errs L1 F) (@Driver.print_errs L2 F).
Proof.
  intros s1 s2 [Hp [Hl He]]. unfold Driver.print_errs.
  split; [reflexivity|]. split; [exact Hp|]. split; [exact Hl|].
  simpl. rewrite He. reflexivity.
Qed.

Lemma dsim_print_TheModule :
  dsim (@Driver.print_TheModule L1) (@Driver.print_TheModule L2).
Proof.
  intros s1 s2 [Hp [Hl He]]. unfold Driver.print_TheModule.
  split; [reflexivity|]. split; [exact Hp|]. split; [exact Hl|].
  simpl. rewrite He, Hl. reflexivity.
Qed.

Lemma dsim_InitializeModule :
  dsim (@Driver.InitializeModule L1) (@Driver.InitializeModule L2).
Proof.
  intros s1 s2 [Hp [Hl He]]. unfold Driver.InitializeModule.
  split; [reflexivity|]. split; [exact Hp|]. split; [|exact He].
  simpl. rewrite Hl. reflexivity.
Qed.

Ltac dsim_step :=
  first
    [ assumption
    | apply dsim_ret
    | apply dsim_lower
    | apply dsim_print
    | apply dsim_print_errs
    | apply dsim_print_TheModule
    | apply dsim_InitializeModule
    | apply dsim_parse;
      first [ apply sim_getNextTok | apply sim_getCurTok
            | apply entry_points_sim ]
    | apply dsim_bind; [|intros ?]
    | match goal with
      | |- dsim (if ?c then _ else _) (if ?c then _ else _) => destruct c
      | |- dsim (match ?x with _ => _ end) (match ?x with _ => _ end) => destruct x
      end ].

Lemma handlers_sim fuel :
  dsim (@Driver.HandleDefinition L1 fuel) (@Driver.HandleDefinition L2 fuel) /\
  dsim (@Driver.HandleExtern L1 fuel) (@Driver.HandleExtern L2 fuel) /\
  dsim (@Driver.HandleTopLevelExpression L1 fuel)
       (@Driver.HandleTopLevelExpression L2 fuel).
Proof.
  split; [|split].
  - unfold Driver.HandleDefinition. repeat dsim_step.
  - unfold Driver.HandleExtern. repeat dsim_step.
  - unfold Driver.HandleTopLevelExpression. repeat dsim_step.
Qed.

Lemma MainLoop_sim fuel :
  dsim (@Driver.MainLoop L1 fuel) (@Driver.MainLoop L2 fuel).
Proof.
  induction fuel as [|fuel IH].
  - intros s1 s2 _. exact I.
  - destruct (handlers_sim fuel) as [HD [HX HE]].
    simpl. repeat dsim_step.
Qed.

Lemma main_sim fuel (l1 : lex_state L1) (l2 : lex_state L2) :
  (forall n, lex_sim n l1 l2) ->
  outcome_of (Driver.main fuel l1) = outcome_of (Driver.main fuel l2).
Proof.
  intros Hl.
  assert (dsim (L1:=L1) (L2:=L2)
            (Driver.bind (Driver.print "Jlang>") (fun _ =>
             Driver.bind (Driver.parse getNextTok) (fun _ =>
             Driver.bind Driver.InitializeModule (fun _ =>
             Driver.bind (Driver.MainLoop fuel) (fun _ =>
             Driver.bind Driver.print_TheModule (fun _ => Driver.ret 0))))))
            (Driver.bind (Driver.print "Jlang>") (fun _ =>
             Driver.bind (Driver.parse getNextTok) (fun _ =>
             Driver.bind Driver.InitializeModule (fun _ =>
             Driver.bind (Driver.MainLoop fuel) (fun _ =>
             Driver.bind Driver.print_TheModule (fun _ => Driver.ret 0)))))))
    as Hm.
  { pose proof (MainLoop_sim fuel). repeat dsim_step. }
  specialize (Hm (Driver.initial l1) (Driver.initial l2)).
  unfold Driver.main.
  destruct (Driver.bind _ _ (Driver.initial l1)) as [r1 s1| |],
           (Driver.bind _ _ (Driver.initial l2)) as [r2 s2| |];
    try (exfalso; apply Hm; repeat split; auto; fail); try reflexivity.
  destruct Hm as [-> [[_ [Ho _]] [Hlow He]]].
  - repeat split; auto.
  - simpl. unfold Driver.stdout. rewrite Ho, Hlow, He. reflexivity.
Qed.

End DriverParametricity.

(** X21.  Running [main] on a source text is running it on the tokens of
    the text: with the same fuel both runs end in the same way (they
    return, run into undefined behaviour or run out of fuel together), and
    when they return they have printed the same on both streams and built
    the same module. *)
Theorem main_on_text_as_tokens (input : string) (fuel : nat) :
  outcome_of (run fuel input) =
  outcome_of (@Driver.main token_lexer fuel (TokLex.init (tokens_of input))).
Proof.
  unfold run. apply (@main_sim stdin_lexer token_lexer).
  intros n. apply (tokenize_sim n (Lex.init input) (S (String.length input))).
  - apply Lex_init_wf.
  - reflexivity.
Qed.
